(** * Galactus: admission control, fallback ladder and job long-poll

    A shallow embedding of the request fan-out and rate-limiting code of
    the [galactus] package (Go) together with the event handlers of the
    [handler] package, and the properties of its specification that can be
    settled on it.

    Conventions.
    - [int64] and [time.Duration] values are [Z]; durations and the store
      clock are counted in nanoseconds, as [time.Duration] is.
    - The key/value store is the one the code reaches through go-redis.  It
      is modelled as a record threaded through every call: the keyspace, a
      clock, the list of commands issued so far, and a script saying which
      of the coming commands fail in transport.
    - [sync.RWMutex] is not modelled: every function below runs alone.
    - A Go [error] value that is [nil] is [None]. *)

From stdpp Require Import gmap strings list.
From Stdlib Require Import ZArith Lia Ascii.

Local Open Scope Z_scope.

(** ** Go runtime pieces used by the code *)

Module time.
Definition Duration : Type := Z.
Definition Millisecond : Duration := 1000000.
Definition Second : Duration := 1000 * Millisecond.
Definition Minute : Duration := 60 * Second.
End time.

(** [error] values: the store's [redis.Nil] sentinel, plain errors, and
    errors wrapping another one (what [errors.Is] walks through). *)
Inductive error : Type :=
| redis_Nil
| errorString (msg : string)
| wrapError (msg : string) (inner : error).

Fixpoint error_eqb (a b : error) : bool :=
  match a, b with
  | redis_Nil, redis_Nil => true
  | errorString m, errorString n => String.eqb m n
  | wrapError m i, wrapError n j => String.eqb m n && error_eqb i j
  | _, _ => false
  end.

(** [err.Error()] *)
Definition Error (e : error) : string :=
  match e with
  | redis_Nil => "redis: nil"
  | errorString m => m
  | wrapError m _ => m
  end.

Fixpoint unwrap_Is (e target : error) : bool :=
  error_eqb e target ||
  match e with
  | wrapError _ inner => unwrap_Is inner target
  | _ => false
  end.

(** [errors.Is(err, target)] for a possibly nil [err]. *)
Definition errors_Is (err : option error) (target : error) : bool :=
  match err with
  | None => false
  | Some e => unwrap_Is e target
  end.

(** The double-quote character, for the JSON bodies the handlers write. *)
Definition dq : string := String "034"%char EmptyString.

(** ** Values that travel through the store *)

Module discord.
(** [discord.PatchParams] *)
Record PatchParams := { Deaf : bool; Mute : bool }.

(** [discord.UserModify], the body of a modify request. *)
Record UserModify := { UserID : Z; UMute : bool; UDeaf : bool }.

(** [discord.ModifyTask], what a capture client is asked to do. *)
Record ModifyTask := {
  TaskID : string;
  GuildID : Z;
  TaskUserID : Z;
  Parameters : PatchParams
}.

(** [discord.NewModifyTask]; the fresh task id it draws is an argument. *)
Definition NewModifyTask (taskID : string) (gid uid : Z) (p : PatchParams)
  : ModifyTask :=
  {| TaskID := taskID; GuildID := gid; TaskUserID := uid; Parameters := p |}.
End discord.

(** Type tags of the jobs the event handlers enqueue. *)
Inductive DiscordMessageType : Type :=
| GuildDelete
| VoiceStateUpdate.

(** Elements of the store's lists.  They are kept as the values the helper
    packages encode, not as the JSON text. *)
Inductive item : Type :=
| TaskItem (t : discord.ModifyTask)
| MessageItem (ty : DiscordMessageType) (data : option string).

(** ** The key/value store *)

Module redis.
Inductive rvalue : Type :=
| RInt (n : Z)
| RSet (members : gset string)
| RList (items : list item).

Record entry := Entry { val : rvalue; expireAt : option Z }.

Inductive Cmd : Type :=
| INCR (key : string)
| EXPIRE (key : string) (ttl : time.Duration)
| SET (key : string) (value : Z) (ttl : time.Duration)
| SADD (key member : string)
| SREM (key member : string)
| SMEMBERS (key : string)
| RPUSH (key : string) (x : item)
| SUBSCRIBE (topic : string)
| PUBSUB_CLOSE (topic : string)
| TOKEN_WAIT (secret : string)
| TOKEN_LOCK (secret : string).

(** [history] lists the calls made on the client in the order they were
    made, each with the arguments of the call.  [faults] scripts the
    transport: each command that goes to the server takes the head;
    [Some e] makes that command fail with [e] and leave the keyspace alone.
    An empty script means a healthy store.  [clock] is the clock of the
    server, which alone decides when a key has expired. *)
Record Client := {
  db : gmap string entry;
  clock : Z;
  faults : list (option error);
  history : list Cmd;
  tokenLocks : gset string
}.

Definition int64_max : Z := 9223372036854775807.

(** go-redis' [KeepTTL] *)
Definition KeepTTL : time.Duration := -1.

Definition live (now : Z) (e : entry) : bool :=
  match expireAt e with
  | None => true
  | Some t => now <? t
  end.

(** What a read of [key] sees: expired entries are gone. *)
Definition get (c : Client) (key : string) : option entry :=
  match db c !! key with
  | Some e => if live (clock c) e then Some e else None
  | None => None
  end.

Definition record (cmd : Cmd) (c : Client) : Client :=
  {| db := db c; clock := clock c; faults := faults c;
     history := history c ++ [cmd]; tokenLocks := tokenLocks c |}.

Definition with_db (d : gmap string entry) (c : Client) : Client :=
  {| db := d; clock := clock c; faults := faults c;
     history := history c; tokenLocks := tokenLocks c |}.

Definition next_fault (c : Client) : option error * Client :=
  match faults c with
  | [] => (None, c)
  | f :: fs =>
      (f, {| db := db c; clock := clock c; faults := fs;
             history := history c; tokenLocks := tokenLocks c |})
  end.

(** Time passing between two calls. *)
Definition sleep (d : time.Duration) (c : Client) : Client :=
  {| db := db c; clock := clock c + d; faults := faults c;
     history := history c; tokenLocks := tokenLocks c |}.

Definition WRONGTYPE : error :=
  errorString "WRONGTYPE Operation against a key holding the wrong kind of value".
Definition ERR_overflow : error :=
  errorString "ERR increment or decrement would overflow".

(** [client.Incr(ctx, key).Result()].  On any error the integer of the
    reply is 0. *)
Definition Incr (key : string) (c : Client) : (Z * option error) * Client :=
  let '(f, c1) := next_fault (record (INCR key) c) in
  match f with
  | Some e => ((0, Some e), c1)
  | None =>
      match get c1 key with
      | None =>
          ((1, None), with_db (<[key := Entry (RInt 1) None]> (db c1)) c1)
      | Some (Entry (RInt n) exp) =>
          if n =? int64_max then ((0, Some ERR_overflow), c1)
          else ((n + 1, None),
                with_db (<[key := Entry (RInt (n + 1)) exp]> (db c1)) c1)
      | Some _ => ((0, Some WRONGTYPE), c1)
      end
  end.

(** go-redis' [usePrecise], [formatMs] and [formatSec]: how a duration is
    put on the wire.  It goes in whole seconds or in whole milliseconds,
    truncated as Go's integer division does, and a positive duration below
    the unit goes as one unit. *)
Definition usePrecise (dur : time.Duration) : bool :=
  (dur <? time.Second) || negb (Z.rem dur time.Second =? 0).

Definition formatMs (dur : time.Duration) : Z :=
  if (0 <? dur) && (dur <? time.Millisecond) then 1
  else Z.quot dur time.Millisecond.

Definition formatSec (dur : time.Duration) : Z :=
  if (0 <? dur) && (dur <? time.Second) then 1
  else Z.quot dur time.Second.

(** The time to live the server is given by [Set] for a positive [ttl]:
    [EX] seconds when the duration is a whole number of seconds, [PX]
    milliseconds otherwise. *)
Definition set_ttl (ttl : time.Duration) : time.Duration :=
  if usePrecise ttl then formatMs ttl * time.Millisecond
  else formatSec ttl * time.Second.

(** [client.Expire(ctx, key, ttl).Err()]: the timeout goes in seconds.  A
    missing key is no error; a timeout that is not positive deletes the
    key. *)
Definition Expire (key : string) (ttl : time.Duration) (c : Client)
  : option error * Client :=
  let '(f, c1) := next_fault (record (EXPIRE key ttl) c) in
  match f with
  | Some e => (Some e, c1)
  | None =>
      match get c1 key with
      | None => (None, c1)
      | Some e =>
          if 0 <? ttl
          then (None, with_db (<[key := Entry (val e)
                                   (Some (clock c1 + formatSec ttl * time.Second))]>
                                 (db c1)) c1)
          else (None, with_db (delete key (db c1)) c1)
      end
  end.

(** [client.Set(ctx, key, value, ttl).Err()] for an integer value: a
    positive [ttl] gives the expiry, as the server is told it; [KeepTTL]
    keeps the one the key has, anything else stores the value without
    expiry. *)
Definition Set_ (key : string) (value : Z) (ttl : time.Duration) (c : Client)
  : option error * Client :=
  let '(f, c1) := next_fault (record (SET key value ttl) c) in
  match f with
  | Some e => (Some e, c1)
  | None =>
      let exp :=
        if 0 <? ttl then Some (clock c1 + set_ttl ttl)
        else if ttl =? KeepTTL
             then match get c1 key with Some e => expireAt e | None => None end
             else None in
      (None, with_db (<[key := Entry (RInt value) exp]> (db c1)) c1)
  end.

(** [client.SMembers(ctx, key).Result()] *)
Definition SMembers (key : string) (c : Client)
  : (list string * option error) * Client :=
  let '(f, c1) := next_fault (record (SMEMBERS key) c) in
  match f with
  | Some e => (([], Some e), c1)
  | None =>
      match get c1 key with
      | None => (([], None), c1)
      | Some (Entry (RSet s) _) => ((elements s, None), c1)
      | Some _ => (([], Some WRONGTYPE), c1)
      end
  end.

(** [client.SAdd(ctx, key, member).Err()] *)
Definition SAdd (key member : string) (c : Client) : option error * Client :=
  let '(f, c1) := next_fault (record (SADD key member) c) in
  match f with
  | Some e => (Some e, c1)
  | None =>
      match get c1 key with
      | None =>
          (None, with_db (<[key := Entry (RSet {[ member ]}) None]> (db c1)) c1)
      | Some (Entry (RSet s) exp) =>
          (None, with_db (<[key := Entry (RSet ({[ member ]} ∪ s)) exp]> (db c1)) c1)
      | Some _ => (Some WRONGTYPE, c1)
      end
  end.

(** [client.SRem(ctx, key, member)]; a set that becomes empty is deleted. *)
Definition SRem (key member : string) (c : Client) : option error * Client :=
  let '(f, c1) := next_fault (record (SREM key member) c) in
  match f with
  | Some e => (Some e, c1)
  | None =>
      match get c1 key with
      | None => (None, c1)
      | Some (Entry (RSet s) exp) =>
          let s' := s ∖ {[ member ]} in
          if decide (s' = ∅)
          then (None, with_db (delete key (db c1)) c1)
          else (None, with_db (<[key := Entry (RSet s') exp]> (db c1)) c1)
      | Some _ => (Some WRONGTYPE, c1)
      end
  end.

(** [client.RPush(ctx, key, x).Err()] *)
Definition RPush (key : string) (x : item) (c : Client) : option error * Client :=
  let '(f, c1) := next_fault (record (RPUSH key x) c) in
  match f with
  | Some e => (Some e, c1)
  | None =>
      match get c1 key with
      | None =>
          (None, with_db (<[key := Entry (RList [x]) None]> (db c1)) c1)
      | Some (Entry (RList l) exp) =>
          (None, with_db (<[key := Entry (RList (l ++ [x])) exp]> (db c1)) c1)
      | Some _ => (Some WRONGTYPE, c1)
      end
  end.

(** A [*redis.PubSub]: the topic it was opened on, and whether [Close]
    has been called on it.  [attemptOnCaptureBot] and [waitForAck] share
    one. *)
Record PubSub := { topic : string; closed : bool }.

Definition ErrClosed : error := errorString "redis: client is closed".

(** [client.Subscribe(ctx, topic)].  The command is written to a
    connection of its own and the call returns without waiting for the
    reply of the server; the library drops its error and subscribes again
    when it has to reconnect.  So [history] has the instant the command was
    issued, the call takes nothing from [faults], and what the
    subscription delivers is an input of the wait. *)
Definition Subscribe (topic : string) (c : Client) : PubSub * Client :=
  ({| topic := topic; closed := false |}, record (SUBSCRIBE topic) c).

(** [pubsub.Close()]: the first call closes the connection of the
    subscription; a later one returns [ErrClosed] and does nothing. *)
Definition PubSub_Close (pubsub : PubSub) (c : Client)
  : (option error * PubSub) * Client :=
  if closed pubsub then ((Some ErrClosed, pubsub), c)
  else ((None, {| topic := topic pubsub; closed := true |}),
        record (PUBSUB_CLOSE (topic pubsub)) c).
End redis.

(** Modelled from the spec: the key builders of the [rediskey] package,
    which is not part of the sources; the layout is the one of the
    specification's key table. *)
Module rediskey.
Definition GuildTokensKey (guildID : string) : string :=
  "guild:" +:+ guildID +:+ ":tokens".
Definition GuildTokenLock (guildID hToken : string) : string :=
  "guild:" +:+ guildID +:+ ":token:" +:+ hToken.
Definition TasksList (connectCode : string) : string :=
  "tasks:" +:+ connectCode.
Definition CompleteTask (taskID : string) : string :=
  "task:" +:+ taskID +:+ ":complete".
End rediskey.

(** ** Logging *)

Module zap.
Inductive Level : Type := ErrorLevel | InfoLevel | StdLog.

Inductive Field : Type :=
| Error (err : option error)
| String (key value : string)
| Int64 (key : string) (value : Z)
| Uint64 (key : string) (value : Z)
| Bool (key : string) (value : bool).

Record Entry := { level : Level; msg : string; fields : list Field }.
End zap.

(** ** The platform SDK *)

(** A [*discordgo.Session]: the credential it was made with and the guilds
    its state lists once it is open. *)
Record Session := { Token : string; Guilds : list string }.

(** Calls that leave the process towards the chat platform. *)
Inductive PlatformCall : Type :=
| CallNew (token : string)
| CallOpen (sess : Session)
| CallClose (sess : Session)
| CallStopAll
| CallApplyMuteDeaf (sess : Session) (guildID userID : string) (mute deaf : bool).

(** What the libraries outside the sources answer.  [sha256_Sum] is
    [crypto/sha256]; [token_Released] says, for a token lock somebody
    holds, whether the holder lets go of it while [token.WaitForToken]
    waits; the others are the SDK's and the platform's replies. *)
Record Platform := {
  sha256_Sum : string → string;
  discordgo_New : string → option error;
  State_Guilds : string → list string;
  Session_Open : Session → option error;
  Session_Close : Session → option error;
  StopAll : option error;
  ApplyMuteDeaf : Session → string → string → bool → bool → option error;
  token_Released : string → bool
}.

(** ** Package galactus *)

Module galactus.

(** [GalactusAPI] with the two output streams of the process: the lines
    given to the logger and the calls made to the platform. *)
Record GalactusAPI := {
  client : redis.Client;
  activeSessions : gmap string Session;
  maxRequests5Seconds : Z;
  logger : list zap.Entry;
  platform : list PlatformCall
}.

(** State-passing monad of the methods of [GalactusAPI]. *)
Definition M (A : Type) : Type := GalactusAPI → A * GalactusAPI.

Definition ret {A : Type} (a : A) : M A := λ g, (a, g).

Definition bind {A B : Type} (m : M A) (k : A → M B) : M B :=
  λ g, let '(a, g') := m g in k a g'.

Notation "x <- m ;;; k" := (bind m (λ x, k))
  (at level 20, m at level 100, k at level 200, only parsing).
Notation "' pat <- m ;;; k" := (bind m (λ pat, k))
  (at level 20, pat pattern, m at level 100, k at level 200, only parsing).

Definition with_client (c : redis.Client) (g : GalactusAPI) : GalactusAPI :=
  {| client := c; activeSessions := activeSessions g;
     maxRequests5Seconds := maxRequests5Seconds g;
     logger := logger g; platform := platform g |}.

Definition with_sessions (s : gmap string Session) (g : GalactusAPI)
  : GalactusAPI :=
  {| client := client g; activeSessions := s;
     maxRequests5Seconds := maxRequests5Seconds g;
     logger := logger g; platform := platform g |}.

(** A store command run on [galactus.client]. *)
Definition store {A : Type} (f : redis.Client → A * redis.Client) : M A :=
  λ g, let '(a, c) := f (client g) in (a, with_client c g).

Definition write_log (lvl : zap.Level) (msg : string) (fs : list zap.Field)
  : M unit :=
  λ g, (tt, {| client := client g; activeSessions := activeSessions g;
               maxRequests5Seconds := maxRequests5Seconds g;
               logger := logger g ++ [ {| zap.level := lvl; zap.msg := msg;
                                          zap.fields := fs |} ];
               platform := platform g |}).

(** [galactus.logger.Error], [galactus.logger.Info], [log.Println] *)
Definition logger_Error := write_log zap.ErrorLevel.
Definition logger_Info := write_log zap.InfoLevel.
Definition log_Println (msg : string) : M unit := write_log zap.StdLog msg [].

Definition call (c : PlatformCall) : M unit :=
  λ g, (tt, {| client := client g; activeSessions := activeSessions g;
               maxRequests5Seconds := maxRequests5Seconds g;
               logger := logger g; platform := platform g ++ [c] |}).

(** [if err != nil { body }] *)
Definition if_err (err : option error) (body : error → M unit) : M unit :=
  match err with
  | Some e => body e
  | None => ret tt
  end.

(** [getAllTokensForGuild]; [None] is the nil slice. *)
Definition getAllTokensForGuild (guildID : string) : M (option (list string)) :=
  '(hTokens, err) <- store (redis.SMembers (rediskey.GuildTokensKey guildID)) ;;;
  match err with
  | Some e =>
      _ <- logger_Error "error retrieving smembers from Redis"
             [zap.Error (Some e); zap.String "guildID" guildID] ;;;
      ret None
  | None => ret (Some hTokens)
  end.

Definition IncrAndTestGuildTokenComboLock (guildID hashToken : string)
  : M bool :=
  '(i, err) <- store (redis.Incr (rediskey.GuildTokenLock guildID hashToken)) ;;;
  _ <- if_err err (λ e,
         logger_Error "error incrementing guild token combo"
           [zap.Error (Some e); zap.String "guildID" guildID;
            zap.String "hashedToken" hashToken]) ;;;
  λ g,
  let usable := i <? maxRequests5Seconds g in
  (_ <- logger_Info "guild token combo"
          [zap.String "guildID" guildID; zap.String "hashedToken" hashToken;
           zap.Int64 "count" i; zap.Bool "using" usable] ;;;
   if negb usable then ret false
   else
     err <- store (redis.Expire (rediskey.GuildTokenLock guildID hashToken)
                     (time.Second * 5)) ;;;
     _ <- if_err err (λ e,
            logger_Error "error setting expiration for guild token combo"
              [zap.Error (Some e); zap.String "guildID" guildID;
               zap.String "hashedToken" hashToken]) ;;;
     ret true) g.

Definition BlacklistTokenForDuration (guildID hashToken : string)
    (duration : time.Duration) : M (option error) :=
  λ g, store (redis.Set_ (rediskey.GuildTokenLock guildID hashToken)
                (maxRequests5Seconds g) duration) g.

(** The [for i, hToken := range tokens] loop of [getAnySession], from
    index [i] on. *)
Fixpoint getAnySession_from (guildID : string) (tokens : list string)
    (i limit : Z) : M (option Session * string) :=
  match tokens with
  | [] => ret (None, "")
  | hToken :: rest =>
      if i =? limit then ret (None, "")
      else
        ok <- IncrAndTestGuildTokenComboLock guildID hToken ;;;
        if (ok : bool) then
          λ g,
          match activeSessions g !! hToken with
          | Some sess => (ret (Some sess, hToken)) g
          | None =>
              (_ <- store (redis.SRem (rediskey.GuildTokensKey guildID) hToken) ;;;
               getAnySession_from guildID rest (i + 1) limit) g
          end
        else
          _ <- logger_Info "secondary token potentially rate-limited; skipping"
                 [zap.String "hashedToken" hToken; zap.String "guildID" guildID] ;;;
          getAnySession_from guildID rest (i + 1) limit
  end.

Definition getAnySession (guildID : string) (tokens : list string) (limit : Z)
  : M (option Session * string) :=
  getAnySession_from guildID tokens 0 limit.


(** [attemptOnSecondaryTokens]; [tokens] may be the nil slice. *)
Definition attemptOnSecondaryTokens (P : Platform) (guildID userID : string)
    (tokens : option (list string)) (limit : Z)
    (request : discord.UserModify) : M bool :=
  match tokens with
  | Some toks =>
      if 0 <? limit then
        '(sess, hToken) <- getAnySession guildID toks limit ;;;
        match sess with
        | Some sess =>
            _ <- call (CallApplyMuteDeaf sess guildID userID
                         (discord.UMute request) (discord.UDeaf request)) ;;;
            match ApplyMuteDeaf P sess guildID userID
                    (discord.UMute request) (discord.UDeaf request) with
            | Some e =>
                _ <- logger_Error "failed to apply mute/deaf on secondary bot"
                       [zap.Error (Some e); zap.String "guildID" guildID;
                        zap.Uint64 "userID" (discord.UserID request);
                        zap.String "hashedToken" hToken;
                        zap.Bool "mute" (discord.UMute request);
                        zap.Bool "deaf" (discord.UDeaf request)] ;;;
                ret false
            | None =>
                _ <- logger_Info "successfully applied mute/deaf on secondary bot"
                       [zap.Error None; zap.String "guildID" guildID;
                        zap.Uint64 "userID" (discord.UserID request);
                        zap.String "hashedToken" hToken;
                        zap.Bool "mute" (discord.UMute request);
                        zap.Bool "deaf" (discord.UDeaf request)] ;;;
                ret true
            end
        | None =>
            _ <- logger_Info "no secondary bot tokens found"
                   [zap.String "guildID" guildID; zap.String "userID" userID] ;;;
            ret false
        end
      else
        _ <- logger_Info "guild has no access to secondary bot tokens; skipping"
               [zap.String "guildID" guildID] ;;;
        ret false
  | None =>
      _ <- logger_Info "guild has no access to secondary bot tokens; skipping"
             [zap.String "guildID" guildID] ;;;
      ret false
  end.

Definition UnresponsiveCaptureBlacklistDuration : time.Duration :=
  time.Minute * 5.

(** Modelled from the spec: [redis.PushCaptureClientTask] of the
    repository's [internal/redis] package, which is not part of the
    sources: the task goes to the end of the list of its connect code,
    with the store-side timeout when one is given. *)
Definition PushCaptureClientTask (connectCode : string)
    (task : discord.ModifyTask) (timeout : time.Duration) (c : redis.Client)
  : option error * redis.Client :=
  let '(err, c1) := redis.RPush (rediskey.TasksList connectCode) (TaskItem task) c in
  match err with
  | Some e => (Some e, c1)
  | None =>
      if 0 <? timeout
      then redis.Expire (rediskey.TasksList connectCode) timeout c1
      else (None, c1)
  end.

(** What the server, the capture clients and the Go runtime decide once
    the task has been pushed.  Times are counted from the return of the
    push, which is when the wait begins.
    - [published]: the messages published on the completion topic, in the
      order of publication, each with its instant and its payload;
    - [registered]: the instant at which the server has the subscription
      in place; it is not positive when that was so by the time the push
      was handled, and positive otherwise, for [Subscribe] returns without
      waiting for the server;
    - [timerFirst]: the case the [select] takes when the timer and the
      channel are ready at the same instant;
    - [closeFirst]: whether the [pubsub.Close()] deferred in [waitForAck]
      runs before the receiver of [result] makes its next call, or only
      after the receiver has returned. *)
Record Runtime := {
  published : list (time.Duration * string);
  registered : time.Duration;
  timerFirst : bool;
  closeFirst : bool
}.

(** The first message the channel of the subscription hands out: the
    first one published once the subscription was in place.  What was
    published before is lost. *)
Definition delivery (rt : Runtime) : option (time.Duration * string) :=
  head (filter (λ m, registered rt ≤ fst m) (published rt)).

(** Which case of the [select] in [waitForAck] runs: the timer's, or the
    subscription's with the message it delivers [after] the wait began. *)
Inductive SelectCase : Type :=
| TimerFired
| Received (after : time.Duration) (payload : string).

(** The [select] of [waitForAck] against [time.NewTimer(waitTime)]: the
    case that is ready first runs.  A timer that is not positive has fired
    at once, and a message handed out before the wait began is there at
    its start. *)
Definition select (waitTime : time.Duration) (rt : Runtime) : SelectCase :=
  let fires := Z.max 0 waitTime in
  match delivery rt with
  | None => TimerFired
  | Some (after, payload) =>
      let after := Z.max 0 after in
      if after <? fires then Received after payload
      else if fires <? after then TimerFired
      else if timerFirst rt then TimerFired
      else Received after payload
  end.

(** [pubsub.Close()] on the subscription the two functions share; the
    code drops its error. *)
Definition pubsub_Close (pubsub : redis.PubSub) : M redis.PubSub :=
  store (λ c, let '((_, pubsub'), c') := redis.PubSub_Close pubsub c in
              (pubsub', c')).

(** [waitForAck]: the value sent on [result], and the subscription as the
    receiver finds it.  The deferred [pubsub.Close()] runs once the value
    has been received, beside the receiver: here when it runs before the
    receiver goes on, and at the end of [attemptOnCaptureBot] when it runs
    last.  Both loop bodies return, so the [for] runs once. *)
Definition waitForAck (pubsub : redis.PubSub) (waitTime : time.Duration)
    (rt : Runtime) : M (bool * redis.PubSub) :=
  res <- match select waitTime rt with
         | TimerFired =>
             _ <- store (λ c, (tt, redis.sleep (Z.max 0 waitTime) c)) ;;;
             ret false
         | Received after payload =>
             _ <- store (λ c, (tt, redis.sleep after c)) ;;;
             ret (String.eqb payload "true")
         end ;;;
  pubsub <- (if closeFirst rt then pubsub_Close pubsub else ret pubsub) ;;;
  ret (res, pubsub).

(** [attemptOnCaptureBot].  [taskID] is the id [discord.NewModifyTask]
    draws and [rt] what the runtime decides, should it come to a wait.
    The [defer pubsub.Close()] of the function runs at each of its returns
    after the subscription; they are gathered at the end. *)
Definition attemptOnCaptureBot (taskID : string) (rt : Runtime)
    (guildID connectCode : string) (gid : Z) (timeout : time.Duration)
    (request : discord.UserModify) : M bool :=
  ok <- IncrAndTestGuildTokenComboLock guildID connectCode ;;;
  if (ok : bool) then
    let taskObj :=
      discord.NewModifyTask taskID gid (discord.UserID request)
        {| discord.Deaf := discord.UDeaf request;
           discord.Mute := discord.UMute request |} in
    pubsub <- store (redis.Subscribe
                       (rediskey.CompleteTask (discord.TaskID taskObj))) ;;;
    err <- store (PushCaptureClientTask connectCode taskObj timeout) ;;;
    '(res, pubsub) <-
       match err with
       | Some e =>
           _ <- log_Println ("Error in pushing task to "
                             +:+ rediskey.TasksList connectCode) ;;;
           _ <- log_Println (Error e) ;;;
           ret (false, pubsub)
       | None =>
           '(res, pubsub) <- waitForAck pubsub timeout rt ;;;
           if (res : bool) then
             _ <- log_Println
                    "Successful mute/deafen using client capture bot!" ;;;
             ret (true, pubsub)
           else
             err <- BlacklistTokenForDuration guildID connectCode
                      UnresponsiveCaptureBlacklistDuration ;;;
             _ <- match err with
                  | None =>
                      log_Println
                        ("No ack from capture clients; blacklisting capture client for gamecode "
                         +:+ dq +:+ connectCode +:+ dq +:+ " for 5m0s")
                  | Some _ => ret tt
                  end ;;;
             ret (false, pubsub)
       end ;;;
    pubsub <- pubsub_Close pubsub ;;;
    _ <- match err with
         | None => if closeFirst rt then ret pubsub else pubsub_Close pubsub
         | Some _ => ret pubsub
         end ;;;
    ret res
  else
    _ <- log_Println
           "Capture client is probably rate-limited. Deferring to main bot instead" ;;;
    ret false.

(** What the handler has put on its [http.ResponseWriter]. *)
Record Response := { StatusCode : Z; Body : string }.

Definition StatusOK : Z := 200.
Definition StatusAccepted : Z := 202.
Definition StatusInternalServerError : Z := 500.

(** The closure returned by [requestJobHandler], from the return of
    [redisutils.PopRawDiscordMessageTimeout] on.  The pop belongs to a
    package that is not part of the sources: what it returned is [popped],
    and what it sent to the store and took from the job list is not
    modelled, so the store of the result is the store after the pop.
    [RequestJob] is the route constant of the [endpoint] package and
    [writeErr] the error of the final [w.Write]; [Body] is what was handed
    to [w.Write]. *)
Definition requestJobHandler (RequestJob : string)
    (popped : string * option error) (writeErr : option error) : M Response :=
  let '(msg, err) := popped in
  if errors_Is err redis_Nil then
    ret {| StatusCode := StatusAccepted;
           Body := "{" +:+ dq +:+ "status" +:+ dq +:+ ": " +:+ dq
                   +:+ "No jobs available" +:+ dq +:+ "}" |}
  else
    match err with
    | Some e =>
        _ <- logger_Error "redis error when popping job"
               [zap.String "endpoint" RequestJob; zap.Error (Some e)] ;;;
        ret {| StatusCode := StatusInternalServerError;
               Body := "{" +:+ dq +:+ "error" +:+ dq +:+ ": " +:+ dq
                       +:+ Error e +:+ dq +:+ "}" |}
    | None =>
        if String.eqb msg "" then
          _ <- logger_Error "nil job returned, despite no Redis errors"
                 [zap.String "endpoint" RequestJob] ;;;
          ret {| StatusCode := StatusInternalServerError;
                 Body := "{" +:+ dq +:+ "error" +:+ dq +:+ ": " +:+ dq
                         +:+ "Nil job returned, despite no Redis errors"
                         +:+ dq +:+ "}" |}
        else
          _ <- if_err writeErr (λ e,
                 logger_Error "failed to write job as HTTP response"
                   [zap.String "endpoint" RequestJob; zap.Error (Some e)]) ;;;
          ret {| StatusCode := StatusOK; Body := msg |}
    end.


(** [hex.EncodeToString] *)
Definition hextable : string := "0123456789abcdef".

Definition hex_digit (n : nat) : ascii :=
  match String.get n hextable with
  | Some c => c
  | None => "0"%char
  end.

Fixpoint hex_EncodeToString (src : string) : string :=
  match src with
  | EmptyString => EmptyString
  | String c rest =>
      let v := nat_of_ascii c in
      String (hex_digit (Nat.div v 16))
        (String (hex_digit (Nat.modulo v 16)) (hex_EncodeToString rest))
  end.

Definition hashToken (P : Platform) (token : string) : string :=
  hex_EncodeToString (sha256_Sum P token).

(** [strings.ReplaceAll(s, " ", "")] *)
Fixpoint strings_RemoveSpaces (s : string) : string :=
  match s with
  | EmptyString => EmptyString
  | String c rest =>
      if Ascii.eqb c " "%char then strings_RemoveSpaces rest
      else String c (strings_RemoveSpaces rest)
  end.

(** [strings.Split(s, ",")] *)
Fixpoint strings_SplitComma (s : string) : list string :=
  match s with
  | EmptyString => [EmptyString]
  | String c rest =>
      if Ascii.eqb c ","%char then EmptyString :: strings_SplitComma rest
      else
        match strings_SplitComma rest with
        | first :: others => String c first :: others
        | [] => [String c EmptyString]
        end
  end.

(** Modelled from the spec: the distributed token lock of the [token]
    package, which is not part of the sources.  The specification has it
    taken through the store, held by the instance that opens a session for
    the secret, and released when that session closes; another caller of
    [WaitForToken] is blocked until the holder has let go.  So
    [tokenLocks] is the lock table of the store; [LockForToken] enters the
    secret; the close of a session takes the secret of the session out;
    and [WaitForToken] returns at once for a free lock and otherwise only
    when the holder lets go of it, which [token_Released] answers: [None]
    is a wait that does not end. *)
Definition token_WaitForToken (P : Platform) (botToken : string)
    (c : redis.Client) : option redis.Client :=
  let c1 := redis.record (redis.TOKEN_WAIT botToken) c in
  if decide (botToken ∈ redis.tokenLocks c) then
    if token_Released P botToken then
      Some {| redis.db := redis.db c1; redis.clock := redis.clock c1;
              redis.faults := redis.faults c1;
              redis.history := redis.history c1;
              redis.tokenLocks := redis.tokenLocks c1 ∖ {[ botToken ]} |}
    else None
  else Some c1.

Definition token_LockForToken (botToken : string) (c : redis.Client)
  : redis.Client :=
  let c1 := redis.record (redis.TOKEN_LOCK botToken) c in
  {| redis.db := redis.db c1; redis.clock := redis.clock c1;
     redis.faults := redis.faults c1; redis.history := redis.history c1;
     redis.tokenLocks := {[ botToken ]} ∪ redis.tokenLocks c1 |}.

(** The secret a session was made with: [discordgo.New("Bot " + botToken)]. *)
Definition Session_secret (v : Session) : string :=
  String.substring 4 (String.length (Token v) - 4) (Token v).

(** Modelled from the spec: what the close of a session does to the token
    lock, [The lock is released when the session closes].  The code sends
    nothing for it, so [history] stays as it is. *)
Definition token_ReleaseOnClose (v : Session) (c : redis.Client)
  : redis.Client :=
  {| redis.db := redis.db c; redis.clock := redis.clock c;
     redis.faults := redis.faults c; redis.history := redis.history c;
     redis.tokenLocks := redis.tokenLocks c ∖ {[ Session_secret v ]} |}.

(** [for _, v := range sess.State.Guilds] at the end of the loop body of
    [loadTokensFromEnv]. *)
Fixpoint addTokenToGuilds (botToken hashedToken : string)
    (guilds : list string) : M unit :=
  match guilds with
  | [] => ret tt
  | v :: rest =>
      err <- store (redis.SAdd (rediskey.GuildTokensKey v) hashedToken) ;;;
      _ <- (if negb (errors_Is err redis_Nil) && bool_decide (err ≠ None)
            then logger_Error "error adding bot token for specific guild"
                   [zap.Error err; zap.String "token" botToken;
                    zap.String "guildID" v]
            else logger_Info "added bot token to guild successfully"
                   [zap.String "token" botToken; zap.String "guildID" v]) ;;;
      addTokenToGuilds botToken hashedToken rest
  end.

(** One turn of [for _, botToken := range botTokens]. *)
Definition loadToken (P : Platform) (botToken : string) (g : GalactusAPI)
  : option GalactusAPI :=
  let hashedToken := hashToken P botToken in
  let g1 := snd (logger_Info "loaded bot token" [zap.String "token" botToken] g) in
  match activeSessions g1 !! hashedToken with
  | Some _ =>
      Some (snd (logger_Info "token already has a running session on this instance"
                   [zap.String "token" botToken] g1))
  | None =>
      match token_WaitForToken P botToken (client g1) with
      | None => None
      | Some c =>
          let g2 := with_client (token_LockForToken botToken c) g1 in
          let g3 := snd (call (CallNew ("Bot " +:+ botToken)) g2) in
          match discordgo_New P ("Bot " +:+ botToken) with
          | Some e =>
              Some (snd (logger_Error
                           "error in CREATING discordgo session, possibly an invalid token"
                           [zap.Error (Some e); zap.String "token" botToken] g3))
          | None =>
              let sess := {| Token := "Bot " +:+ botToken;
                             Guilds := State_Guilds P ("Bot " +:+ botToken) |} in
              let g4 := snd (call (CallOpen sess) g3) in
              match Session_Open P sess with
              | Some e =>
                  Some (snd (logger_Error
                               "error in OPENING discordgo session, possibly an invalid token"
                               [zap.Error (Some e); zap.String "token" botToken] g4))
              | None =>
                  let g5 := with_sessions (<[hashedToken := sess]> (activeSessions g4)) g4 in
                  Some (snd (addTokenToGuilds botToken hashedToken (Guilds sess) g5))
              end
          end
      end
  end.

Fixpoint loadTokens (P : Platform) (botTokens : list string) (g : GalactusAPI)
  : option GalactusAPI :=
  match botTokens with
  | [] => Some g
  | botToken :: rest =>
      match loadToken P botToken g with
      | Some g' => loadTokens P rest g'
      | None => None
      end
  end.

(** [loadTokensFromEnv]; [WORKER_BOT_TOKENS] is the value of the
    environment variable. *)
Definition loadTokensFromEnv (P : Platform) (WORKER_BOT_TOKENS : string)
    (g : GalactusAPI) : option GalactusAPI :=
  let workerTokenStr := strings_RemoveSpaces WORKER_BOT_TOKENS in
  if String.eqb workerTokenStr "" then
    Some (snd (logger_Info "no WORKER_BOT_TOKENS provided" [] g))
  else loadTokens P (strings_SplitComma workerTokenStr) g.

(** [for hToken, v := range galactus.activeSessions] of [Close], over
    the entries in the order the map gives them.  [v.Close()] is the call
    to the platform, its answer, and what the specification has it do to
    the token lock. *)
Fixpoint closeSessions (P : Platform) (entries : list (string * Session))
  : M unit :=
  match entries with
  | [] => ret tt
  | (hToken, v) :: rest =>
      _ <- call (CallClose v) ;;;
      _ <- store (λ c, (tt, token_ReleaseOnClose v c)) ;;;
      _ <- if_err (Session_Close P v) (λ e,
             logger_Error "error closing active session"
               [zap.Error (Some e); zap.String "hashedToken" hToken]) ;;;
      closeSessions P rest
  end.

Definition Close (P : Platform) : M unit :=
  _ <- call CallStopAll ;;;
  _ <- if_err (StopAll P) (λ e,
         logger_Error "error stopping all shard sessions" [zap.Error (Some e)]) ;;;
  λ g,
  (_ <- closeSessions P (map_to_list (activeSessions g)) ;;;
   λ g', (tt, with_sessions ∅ g')) g.

(** [JobsNumber] *)
Record JobsNumber := { Jobs : Z }.

(** The closure returned by [jobCount].  [sized] is what
    [redisutils.DiscordMessagesSize] returned and [json_Marshal] the reply
    of [json.Marshal] for a [JobsNumber]: the bytes, nil on failure, and
    the error; [Body] is what was handed to [w.Write]. *)
Definition jobCount (sized : Z * option error)
    (json_Marshal : JobsNumber → option string * option error) : M Response :=
  let '(num, err) := sized in
  if bool_decide (err = None) || errors_Is err redis_Nil then
    let jobs := if errors_Is err redis_Nil then {| Jobs := 0 |}
                else {| Jobs := num |} in
    let '(byt, err) := json_Marshal jobs in
    match err with
    | Some e =>
        _ <- logger_Error "error marshalling JobsNumber" [zap.Error (Some e)] ;;;
        ret {| StatusCode := StatusInternalServerError;
               Body := "{" +:+ dq +:+ "error" +:+ dq +:+ ": " +:+ dq
                       +:+ Error e +:+ dq +:+ "}" |}
    | None =>
        ret {| StatusCode := StatusOK; Body := default "" byt |}
    end
  else
    ret {| StatusCode := StatusInternalServerError;
           Body := "{" +:+ dq +:+ "error" +:+ dq +:+ ": " +:+ dq
                   +:+ match err with Some e => Error e | None => "" end
                   +:+ dq +:+ "}" |}.

(** [for test := range galactus.activeSessions] of the closure returned by
    [newGuildHandler], over the keys in the order the map gives them. *)
Fixpoint newGuildHandler_range (hashedToken guildID : string)
    (tests : list string) : M unit :=
  match tests with
  | [] => ret tt
  | test :: rest =>
      _ <- (if String.eqb hashedToken test then
              err <- store (redis.SAdd (rediskey.GuildTokensKey guildID)
                              hashedToken) ;;;
              match err with
              | Some e =>
                  logger_Error "error adding hashed token for guild"
                    [zap.Error (Some e); zap.String "hashedToken" hashedToken;
                     zap.String "guildID" guildID]
              | None =>
                  logger_Info "token added for guild"
                    [zap.String "guildID" guildID]
              end
            else ret tt) ;;;
      newGuildHandler_range hashedToken guildID rest
  end.

(** The closure returned by [newGuildHandler(hashedToken)], on a
    guild-create event whose [m.Guild.ID] is [guildID]. *)
Definition newGuildHandler (hashedToken guildID : string) : M unit :=
  λ g, newGuildHandler_range hashedToken guildID
         (fst <$> map_to_list (activeSessions g)) g.

End galactus.

(** ** Package handler *)

Module handler.

(** What a handler is given: the logger and the store client. *)
Record World := { client : redis.Client; logger : list zap.Entry }.

Definition H (A : Type) : Type := World → A * World.

Definition write_log (lvl : zap.Level) (msg : string) (fs : list zap.Field)
  : H unit :=
  λ w, (tt, {| client := client w;
               logger := logger w ++ [ {| zap.level := lvl; zap.msg := msg;
                                          zap.fields := fs |} ] |}).

Definition store {A : Type} (f : redis.Client → A * redis.Client) : H A :=
  λ w, let '(a, c) := f (client w) in (a, {| client := c; logger := logger w |}).

(** The events of the SDK the handlers receive. *)
Record GuildDeleteEvent := { ID : string }.

Record VoiceStateUpdateEvent := {
  GuildID : string;
  ChannelID : string;
  UserID : string;
  SessionID : string
}.

Section handlers.
(** The key of the shared job list, a constant of the message package. *)
Variable DiscordMessagesKey : string.

(** The table of type names of the message package. *)
Variable DiscordMessageTypeStrings : DiscordMessageType → string.

(** Modelled from the spec: [PushDiscordMessage] of the repository's
    [internal/redis] package, which is not part of the sources: the
    type tag and the payload go onto the shared job list as one job. *)
Definition PushDiscordMessage (messageType : DiscordMessageType)
    (data : option string) : H (option error) :=
  store (redis.RPush DiscordMessagesKey (MessageItem messageType data)).

(** The closure returned by [GuildDeleteHandler].  [json_Marshal] is
    the reply of [json.Marshal(m)]: the bytes, nil on failure, and the
    error. *)
Definition GuildDeleteHandler (json_Marshal : option string * option error)
    (m : GuildDeleteEvent) : H unit :=
  λ w,
  let '(byt, err) := json_Marshal in
  let w1 :=
    match err with
    | Some e =>
        snd (write_log zap.ErrorLevel
               "error marshalling json for GuildDelete message"
               [zap.Error (Some e)] w)
    | None => w
    end in
  let '(err, w2) := PushDiscordMessage GuildDelete byt w1 in
  match err with
  | Some e =>
      write_log zap.ErrorLevel
        "error pushing to Redis for GuildDelete message"
        [zap.Error (Some e)] w2
  | None =>
      write_log zap.InfoLevel "received GuildDelete message"
        [zap.String "ID" (ID m)] w2
  end.

(** The closure returned by [VoiceStateUpdateHandler].  [m] may be nil
    and [selfID] is [s.State.User.ID].  [redis_utils.AnyActiveGamesInGuild]
    and [redis_utils.PurgeOldGuildGames] belong to a package that is not
    part of the sources: the answer of the first is [anyActiveGames], and
    what the two send to the store, the second beside the handler, is not
    modelled.  For this handler the job list and the log are what the
    code gives them; [history] has the push only. *)
Definition VoiceStateUpdateHandler
    (json_Marshal : option string * option error)
    (selfID : string) (anyActiveGames : bool)
    (m : option VoiceStateUpdateEvent) : H unit :=
  λ w,
  match m with
  | None => (tt, w)
  | Some m =>
      if String.eqb (UserID m) selfID then (tt, w)
      else if negb anyActiveGames then (tt, w)
      else
        let '(byt, err) := json_Marshal in
        let w1 :=
          match err with
          | Some e =>
              snd (write_log zap.ErrorLevel
                     "error marshalling json for VoiceStateUpdate message"
                     [zap.Error (Some e)] w)
          | None => w
          end in
        let '(err, w2) := PushDiscordMessage VoiceStateUpdate byt w1 in
        match err with
        | Some e =>
            write_log zap.ErrorLevel
              "error pushing to Redis for VoiceStateUpdate message"
              [zap.Error (Some e)] w2
        | None =>
            write_log zap.InfoLevel "pushed discord message to Redis"
              [zap.String "type" (DiscordMessageTypeStrings VoiceStateUpdate);
               zap.String "guild_id" (GuildID m);
               zap.String "channel_id" (ChannelID m);
               zap.String "user_id" (UserID m);
               zap.String "id" (SessionID m)] w2
        end
  end.
End handlers.

(** The jobs on the shared list, as a read of the store sees them. *)
Definition jobs (key : string) (w : World) : list item :=
  match redis.get (client w) key with
  | Some (redis.Entry (redis.RList l) _) => l
  | _ => []
  end.

End handler.

(** ** Vocabulary of the properties *)

Import galactus.

(** A store whose coming commands all reach the server. *)
Definition healthy (c : redis.Client) : Prop := redis.faults c = [].

(** The expiry instant of [key], when it is live and has one. *)
Definition expiry (c : redis.Client) (key : string) : option Z :=
  match redis.get c key with
  | Some e => redis.expireAt e
  | None => None
  end.

(** The members of the set at [key], as a read sees them. *)
Definition members (c : redis.Client) (key : string) : gset string :=
  match redis.get c key with
  | Some (redis.Entry (redis.RSet s) _) => s
  | _ => ∅
  end.

(** An admission check made [delay] after the previous call returned. *)
Definition admit_after (guildID hashToken : string) (delay : time.Duration)
  : M bool :=
  bind (store (λ c, (tt, redis.sleep delay c)))
       (λ _, IncrAndTestGuildTokenComboLock guildID hashToken).

(** A run of admission checks on one pair, with the delay before each. *)
Fixpoint admit_each (guildID hashToken : string) (delays : list time.Duration)
  : M (list bool) :=
  match delays with
  | [] => ret []
  | d :: rest =>
      bind (admit_after guildID hashToken d) (λ ok,
      bind (admit_each guildID hashToken rest) (λ oks, ret (ok :: oks)))
  end.

(** What an admission check on [key] depends on and changes: the entry
    under the key, the clock, the transport script and the capacity. *)
Definition view (g : GalactusAPI) (key : string)
  : option redis.entry * Z * list (option error) * Z :=
  (redis.db (client g) !! key, redis.clock (client g),
   redis.faults (client g), maxRequests5Seconds g).

(** No read at instant [now] sees the entry. *)
Definition gone (now : Z) (o : option redis.entry) : Prop :=
  match o with
  | None => True
  | Some e => redis.live now e = false
  end.

(** An empty store at instant 0 and an instance with capacity [R] on it. *)
Definition empty_store : redis.Client :=
  {| redis.db := ∅; redis.clock := 0; redis.faults := [];
     redis.history := []; redis.tokenLocks := ∅ |}.

Definition fresh_instance (R : Z) : GalactusAPI :=
  {| client := empty_store; activeSessions := ∅; maxRequests5Seconds := R;
     logger := []; platform := [] |}.

(** The same instance when the coming store commands follow [script]. *)
Definition with_faults (script : list (option error)) (g : GalactusAPI)
  : GalactusAPI :=
  with_client
    {| redis.db := redis.db (client g); redis.clock := redis.clock (client g);
       redis.faults := script; redis.history := redis.history (client g);
       redis.tokenLocks := redis.tokenLocks (client g) |} g.

(** An instance on a store that holds nothing but the token set of one
    guild. *)
Definition guild_instance (guildID : string) (hTokens : gset string)
    (sessions : gmap string Session) (R : Z) : GalactusAPI :=
  {| client :=
       {| redis.db := {[ rediskey.GuildTokensKey guildID
                         := redis.Entry (redis.RSet hTokens) None ]};
          redis.clock := 0; redis.faults := [];
          redis.history := []; redis.tokenLocks := ∅ |};
     activeSessions := sessions; maxRequests5Seconds := R;
     logger := []; platform := [] |}.

(** The key holds a list, or nothing a read can see. *)
Definition list_or_absent (c : redis.Client) (key : string) : Prop :=
  match redis.get c key with
  | Some (redis.Entry (redis.RList _) _) | None => True
  | Some _ => False
  end.



(** The body the specification gives for the empty long-poll. *)
Definition specified_empty_body : string :=
  "{" +:+ dq +:+ "status" +:+ dq +:+ ":" +:+ dq +:+ "No jobs available"
  +:+ dq +:+ "}".

(** Commands that put an element on a list. *)
Definition is_push (cmd : redis.Cmd) : bool :=
  match cmd with
  | redis.RPUSH _ _ => true
  | _ => false
  end.

(** A platform on which every call succeeds but the mute/deaf call through
    the session made with the credential [bad]. *)
Definition platform_failing_for (bad : string) : Platform :=
  {| sha256_Sum := λ s, s;
     discordgo_New := λ _, None;
     State_Guilds := λ _, [];
     Session_Open := λ _, None;
     Session_Close := λ _, None;
     StopAll := None;
     ApplyMuteDeaf := λ sess _ _ _ _,
       if String.eqb (Token sess) bad
       then Some (errorString "HTTP 500 Internal Server Error")
       else None;
     token_Released := λ _, false |}.

(** A platform that refuses to create sessions. *)
Definition platform_without_sessions : Platform :=
  {| sha256_Sum := λ s, s;
     discordgo_New := λ _, Some (errorString "invalid token");
     State_Guilds := λ _, [];
     Session_Open := λ _, None;
     Session_Close := λ _, None;
     StopAll := None;
     ApplyMuteDeaf := λ _ _ _ _ _, None;
     token_Released := λ _, false |}.

(** A platform on which every call succeeds and every session reports the
    guilds [guilds]. *)
Definition platform_in_guilds (guilds : list string) : Platform :=
  {| sha256_Sum := λ s, s;
     discordgo_New := λ _, None;
     State_Guilds := λ _, guilds;
     Session_Open := λ _, None;
     Session_Close := λ _, None;
     StopAll := None;
     ApplyMuteDeaf := λ _ _ _ _ _, None;
     token_Released := λ _, false |}.

(** The commands the session walk over [tokens] may send for a guild:
    admission commands on the pairs of listed identities, and removals of
    listed identities that have no session in [sessions]. *)
Definition walk_command (guildID : string) (tokens : list string)
    (sessions : gmap string Session) (cmd : redis.Cmd) : Prop :=
  match cmd with
  | redis.INCR key =>
      ∃ h, h ∈ tokens ∧ key = rediskey.GuildTokenLock guildID h
  | redis.EXPIRE key ttl =>
      ∃ h, h ∈ tokens ∧ key = rediskey.GuildTokenLock guildID h
           ∧ ttl = time.Second * 5
  | redis.SREM key member =>
      key = rediskey.GuildTokensKey guildID ∧ member ∈ tokens
      ∧ sessions !! member = None
  | _ => False
  end.

(** The wait ended with the ack: a message whose payload is ["true"]. *)
Definition acked (ev : SelectCase) : bool :=
  match ev with
  | Received _ payload => String.eqb payload "true"
  | TimerFired => false
  end.

(** The elements of the list at [key], as a read sees them. *)
Definition items (c : redis.Client) (key : string) : list item :=
  match redis.get c key with
  | Some (redis.Entry (redis.RList l) _) => l
  | _ => []
  end.

(** How long the wait for the ack lasts: until the message is there, or
    until the timer fires. *)
Definition waited (waitTime : time.Duration) (rt : Runtime) : time.Duration :=
  match select waitTime rt with
  | TimerFired => Z.max 0 waitTime
  | Received after _ => after
  end.

(** The character occurs in the string. *)
Fixpoint contains (c : ascii) (s : string) : bool :=
  match s with
  | EmptyString => false
  | String x rest => Ascii.eqb x c || contains c rest
  end.

(** [strings.Join(parts, ",")] *)
Fixpoint strings_JoinComma (parts : list string) : string :=
  match parts with
  | [] => EmptyString
  | [p] => p
  | p :: rest => p +:+ "," +:+ strings_JoinComma rest
  end.

(** The value of a hexadecimal digit: its place in [hextable]. *)
Definition hex_value (c : ascii) : nat :=
  match String.index 0 (String c EmptyString) hextable with
  | Some n => n
  | None => 0
  end.

(** The key holds a set, or nothing a read can see. *)
Definition set_or_absent (c : redis.Client) (key : string) : Prop :=
  match redis.get c key with
  | Some (redis.Entry (redis.RSet _) _) | None => True
  | Some _ => False
  end.

(** The error lines [Close] writes for the sessions that fail to close. *)
Definition close_errors (P : Platform) (entries : list (string * Session))
  : list zap.Entry :=
  omap (λ '(hToken, v),
          (λ e, {| zap.level := zap.ErrorLevel;
                   zap.msg := "error closing active session";
                   zap.fields := [zap.Error (Some e);
                                  zap.String "hashedToken" hToken] |})
          <$> Session_Close P v) entries.

(** * Properties *)

(** ** The store *)

Section store_facts.
Implicit Types (c : redis.Client) (k : string).

Lemma next_fault_healthy c : healthy c → redis.next_fault c = (None, c).
Proof.
  unfold healthy, redis.next_fault. intros ->. by destruct c.
Qed.

Lemma get_record cmd c k : redis.get (redis.record cmd c) k = redis.get c k.
Proof. reflexivity. Qed.

Lemma Incr_error_zero k c e :
  snd (fst (redis.Incr k c)) = Some e → fst (fst (redis.Incr k c)) = 0.
Proof.
  unfold redis.Incr.
  destruct (redis.next_fault _) as [[f|] c1]; cbn; [done|].
  destruct (redis.get c1 k) as [[[n|s|l] exp]|]; cbn; try done.
  destruct (n =? redis.int64_max); cbn; done.
Qed.

Lemma Incr_history k c :
  redis.history (snd (redis.Incr k c)) = redis.history c ++ [redis.INCR k].
Proof.
  unfold redis.Incr, redis.next_fault.
  destruct c as [d t fs h l]; cbn.
  destruct fs as [|[f|] fs]; cbn; try done;
    unfold redis.get; cbn; destruct (d !! k) as [[[n|s|l'] exp]|]; cbn; try done;
    destruct (redis.live _ _); cbn; try done;
    destruct (n =? redis.int64_max); cbn; done.
Qed.

Lemma Expire_history k ttl c :
  redis.history (snd (redis.Expire k ttl c))
  = redis.history c ++ [redis.EXPIRE k ttl].
Proof.
  unfold redis.Expire, redis.next_fault.
  destruct c as [d t fs h l]; cbn.
  destruct fs as [|[f|] fs]; cbn; try done;
    unfold redis.get; cbn; destruct (d !! k) as [e|]; cbn; try done;
    destruct (redis.live _ _); cbn; try done;
    destruct (0 <? ttl); cbn; done.
Qed.

(** A healthy increment of a key no read sees creates the counter at 1,
    without expiry. *)
Lemma Incr_fresh k c :
  healthy c → redis.get c k = None →
  redis.Incr k c
  = ((1, None),
     redis.with_db (<[k := redis.Entry (redis.RInt 1) None]> (redis.db c))
       (redis.record (redis.INCR k) c)).
Proof.
  intros Hh Hg. unfold redis.Incr.
  rewrite next_fault_healthy by done. rewrite get_record, Hg. done.
Qed.

(** A healthy increment of a live counter below [int64_max] adds one and
    keeps the expiry. *)
Lemma Incr_live k c n exp :
  healthy c → redis.get c k = Some (redis.Entry (redis.RInt n) exp) →
  n < redis.int64_max →
  redis.Incr k c
  = ((n + 1, None),
     redis.with_db (<[k := redis.Entry (redis.RInt (n + 1)) exp]> (redis.db c))
       (redis.record (redis.INCR k) c)).
Proof.
  intros Hh Hg Hn. unfold redis.Incr.
  rewrite next_fault_healthy by done. rewrite get_record, Hg.
  destruct (Z.eqb_spec n redis.int64_max); [lia | done].
Qed.

Lemma Expire_live k ttl c e :
  healthy c → redis.get c k = Some e → 0 < ttl →
  redis.Expire k ttl c
  = (None,
     redis.with_db
       (<[k := redis.Entry (redis.val e)
                 (Some (redis.clock c + redis.formatSec ttl * time.Second))]>
          (redis.db c))
       (redis.record (redis.EXPIRE k ttl) c)).
Proof.
  intros Hh Hg Ht. unfold redis.Expire.
  rewrite next_fault_healthy by done. rewrite get_record, Hg.
  destruct (Z.ltb_spec 0 ttl); [done | lia].
Qed.

Lemma get_insert_eq k c e (d : gmap string redis.entry) :
  redis.live (redis.clock c) e = true →
  redis.get (redis.with_db (<[k := e]> d) c) k = Some e.
Proof.
  intros Hl. unfold redis.get; cbn. rewrite lookup_insert_eq. by rewrite Hl.
Qed.

Lemma get_insert_ne k k' c e (d : gmap string redis.entry) :
  k ≠ k' →
  redis.get (redis.with_db (<[k := e]> d) c) k'
  = redis.get (redis.with_db d c) k'.
Proof.
  intros Hne. unfold redis.get; cbn. by rewrite lookup_insert_ne.
Qed.
End store_facts.

(** ** The admission controller *)

Section admission.
Variables guildID hashToken : string.
Local Abbreviation k := (rediskey.GuildTokenLock guildID hashToken).
Local Abbreviation W := (time.Second * 5).

(** What [IncrAndTestGuildTokenComboLock] is on the store: the increment,
    and the expiry when and only when the count read is below capacity.
    Nothing else of the instance changes but the log. *)
Lemma IncrAndTest_unfold (g : GalactusAPI) :
  let i := fst (fst (redis.Incr k (client g))) in
  let c1 := snd (redis.Incr k (client g)) in
  let usable := i <? maxRequests5Seconds g in
  let r := IncrAndTestGuildTokenComboLock guildID hashToken g in
  fst r = usable ∧
  client (snd r) = (if usable then snd (redis.Expire k W c1) else c1) ∧
  activeSessions (snd r) = activeSessions g ∧
  maxRequests5Seconds (snd r) = maxRequests5Seconds g ∧
  platform (snd r) = platform g.
Proof.
  cbv zeta.
  unfold IncrAndTestGuildTokenComboLock, bind, store, if_err,
    logger_Error, logger_Info, write_log, ret.
  destruct (redis.Incr k (client g)) as [[i err] c1]. cbn [fst snd].
  destruct err; cbn; destruct (i <? maxRequests5Seconds g); cbn;
    try (destruct (redis.Expire k W c1) as [[?|] ?]); cbn; auto.
Qed.

Lemma admit_after_eq d g :
  admit_after guildID hashToken d g
  = IncrAndTestGuildTokenComboLock guildID hashToken
      (with_client (redis.sleep d (client g)) g).
Proof. reflexivity. Qed.

Lemma W_pos : 0 < W.
Proof. reflexivity. Qed.

(** A healthy check when no counter is live: the count is 1. *)
Lemma admit_after_absent d g o t R :
  view g k = (o, t, [], R) → gone (t + d) o →
  let r := admit_after guildID hashToken d g in
  fst r = (1 <? R) ∧
  view (snd r) k
  = (Some (redis.Entry (redis.RInt 1) (if 1 <? R then Some (t + d + W) else None)),
     t + d, [], R).
Proof.
  unfold view. intros [= Ho Ht Hf HR] Hgone. cbv zeta.
  rewrite admit_after_eq.
  set (g1 := with_client (redis.sleep d (client g)) g).
  assert (Hh : healthy (client g1)) by exact Hf.
  assert (Hget : redis.get (client g1) k = None).
  { unfold redis.get; cbn. rewrite Ho, Ht.
    destruct o as [e|]; [|done]. cbn in Hgone. by rewrite Hgone. }
  destruct (IncrAndTest_unfold g1) as (Hr & Hc & _ & HR' & _).
  rewrite (Incr_fresh k _ Hh Hget) in Hr, Hc. cbn [fst snd] in Hr, Hc.
  assert (HR1 : maxRequests5Seconds g1 = R) by exact HR.
  rewrite HR1 in Hr, Hc, HR'. rewrite Hr, Hc, HR'.
  destruct (1 <? R).
  - rewrite (Expire_live k W _ (redis.Entry (redis.RInt 1) None)).
    + cbn. rewrite lookup_insert_eq, Hf, Ht. done.
    + exact Hh.
    + by apply get_insert_eq.
    + exact W_pos.
  - cbn. rewrite lookup_insert_eq, Hf, Ht. done.
Qed.

(** A healthy check on a live counter: the count is one more; the expiry
    moves to [W] after the call when the check grants, and stays when it
    denies. *)
Lemma admit_after_present d g n exp t R :
  view g k = (Some (redis.Entry (redis.RInt n) exp), t, [], R) →
  redis.live (t + d) (redis.Entry (redis.RInt n) exp) = true →
  n < redis.int64_max →
  let r := admit_after guildID hashToken d g in
  fst r = (n + 1 <? R) ∧
  view (snd r) k
  = (Some (redis.Entry (redis.RInt (n + 1))
             (if n + 1 <? R then Some (t + d + W) else exp)),
     t + d, [], R).
Proof.
  unfold view. intros [= Ho Ht Hf HR] Hlive Hn. cbv zeta.
  rewrite admit_after_eq.
  set (g1 := with_client (redis.sleep d (client g)) g).
  assert (Hh : healthy (client g1)) by exact Hf.
  assert (Hget : redis.get (client g1) k = Some (redis.Entry (redis.RInt n) exp)).
  { unfold redis.get; cbn. rewrite Ho, Ht. by rewrite Hlive. }
  destruct (IncrAndTest_unfold g1) as (Hr & Hc & _ & HR' & _).
  rewrite (Incr_live k _ n exp Hh Hget Hn) in Hr, Hc. cbn [fst snd] in Hr, Hc.
  assert (HR1 : maxRequests5Seconds g1 = R) by exact HR.
  rewrite HR1 in Hr, Hc, HR'. rewrite Hr, Hc, HR'.
  destruct (n + 1 <? R).
  - rewrite (Expire_live k W _ (redis.Entry (redis.RInt (n + 1)) exp)).
    + cbn. rewrite lookup_insert_eq, Hf, Ht. done.
    + exact Hh.
    + apply get_insert_eq. cbn.
      unfold redis.live in *. cbn in *. rewrite Ht. exact Hlive.
    + exact W_pos.
  - cbn. rewrite lookup_insert_eq, Hf, Ht. done.
Qed.

Lemma admit_each_cons d ds (g : GalactusAPI) :
  fst (admit_each guildID hashToken (d :: ds) g)
  = fst (admit_after guildID hashToken d g)
    :: fst (admit_each guildID hashToken ds
              (snd (admit_after guildID hashToken d g))).
Proof.
  cbn [admit_each]. unfold bind, ret.
  destruct (admit_after guildID hashToken d g) as [ok g1]. cbn [fst snd].
  by destruct (admit_each guildID hashToken ds g1).
Qed.

Lemma live_int n exp now :
  redis.live now (redis.Entry (redis.RInt n) (Some exp)) = (now <? exp).
Proof. reflexivity. Qed.

Lemma denied_iff_at_capacity (g : GalactusAPI) (n : Z) :
  fst (redis.Incr k (client g)) = (n, None) →
  fst (IncrAndTestGuildTokenComboLock guildID hashToken g) = false
  ↔ maxRequests5Seconds g ≤ n.
Proof.
  intros Hi. destruct (IncrAndTest_unfold g) as (Hr & _).
  rewrite Hr, Hi. cbn. apply Z.ltb_ge.
Qed.

(** C1, as the code has it.  With capacity 3 on a healthy store and no
    live counter, four checks made within one 5 s window answer true,
    true, false, false: the third already reads the count 3.  A fifth
    check made 5 s or more after the second one, the last that was
    granted and so the last that set the expiry, answers true.  In
    general a check whose increment succeeds with count [n] is denied
    exactly when [n] is at least the capacity. *)
Theorem admission_window_of_three (g : GalactusAPI)
    (d0 d1 d2 d3 d4 : time.Duration) :
  maxRequests5Seconds g = 3 → healthy (client g) →
  redis.get (client g) k = None →
  0 ≤ d0 → 0 ≤ d1 → 0 ≤ d2 → 0 ≤ d3 →
  d1 + d2 + d3 < W → W ≤ d2 + d3 + d4 →
  fst (admit_each guildID hashToken [d0; d1; d2; d3; d4] g)
  = [true; true; false; false; true]
  ∧ ∀ (g' : GalactusAPI) (n : Z),
      fst (redis.Incr k (client g')) = (n, None) →
      fst (IncrAndTestGuildTokenComboLock guildID hashToken g') = false
      ↔ maxRequests5Seconds g' ≤ n.
Proof.
  intros HR Hh Hget H0 H1 H2 H3 Hin Hout.
  split; [|intros g' n; apply denied_iff_at_capacity].
  set (t := redis.clock (client g)).
  assert (Hv : view g k = (redis.db (client g) !! k, t, [], 3)).
  { unfold view. by rewrite Hh, HR. }
  assert (Hgone : gone (t + d0) (redis.db (client g) !! k)).
  { unfold redis.get in Hget. fold t in Hget.
    destruct (redis.db (client g) !! k) as [e|]; [|done]. cbn.
    unfold redis.live in *. destruct (redis.expireAt e) as [x|]; [|done].
    destruct (Z.ltb_spec t x); [done|]. apply Z.ltb_ge. lia. }
  rewrite !admit_each_cons.
  destruct (admit_after_absent d0 g _ _ _ Hv Hgone) as [R1 V1].
  set (g1 := snd (admit_after guildID hashToken d0 g)) in *.
  change (1 <? 3) with true in R1, V1. cbn iota in V1.
  destruct (admit_after_present d1 g1 _ _ _ _ V1) as [R2 V2].
  { rewrite live_int. apply Z.ltb_lt. lia. }
  { done. }
  set (g2 := snd (admit_after guildID hashToken d1 g1)) in *.
  change (1 + 1 <? 3) with true in R2, V2. cbn iota in V2.
  destruct (admit_after_present d2 g2 _ _ _ _ V2) as [R3 V3].
  { rewrite live_int. apply Z.ltb_lt. lia. }
  { done. }
  set (g3 := snd (admit_after guildID hashToken d2 g2)) in *.
  change (1 + 1 + 1 <? 3) with false in R3, V3. cbn iota in V3.
  destruct (admit_after_present d3 g3 _ _ _ _ V3) as [R4 V4].
  { rewrite live_int. apply Z.ltb_lt. lia. }
  { done. }
  set (g4 := snd (admit_after guildID hashToken d3 g3)) in *.
  change (1 + 1 + 1 + 1 <? 3) with false in R4, V4. cbn iota in V4.
  destruct (admit_after_absent d4 g4 _ _ _ V4) as [R5 _].
  { unfold gone. rewrite live_int. apply Z.ltb_ge. lia. }
  change (1 <? 3) with true in R5.
  by rewrite R1, R2, R3, R4, R5.
Qed.

Lemma admit_each_cons_snd d ds (g : GalactusAPI) :
  snd (admit_each guildID hashToken (d :: ds) g)
  = snd (admit_each guildID hashToken ds
           (snd (admit_after guildID hashToken d g))).
Proof.
  cbn [admit_each]. unfold bind, ret.
  destruct (admit_after guildID hashToken d g) as [ok g1]. cbn [fst snd].
  by destruct (admit_each guildID hashToken ds g1).
Qed.

(** The commands a check sends: the increment, and the expiry when it
    grants. *)
Lemma IncrAndTest_history (g : GalactusAPI) :
  let r := IncrAndTestGuildTokenComboLock guildID hashToken g in
  redis.history (client (snd r))
  = redis.history (client g)
    ++ (if fst r then [redis.INCR k; redis.EXPIRE k W] else [redis.INCR k]).
Proof.
  cbv zeta. destruct (IncrAndTest_unfold g) as (Hr & Hc & _).
  rewrite Hr, Hc. destruct (_ <? _).
  - rewrite Expire_history, Incr_history. by rewrite <- app_assoc.
  - by rewrite Incr_history.
Qed.


(** Checks on a counter at or above capacity, all made before it
    expires: every one is denied and the expiry stays where it was. *)
Lemma denied_run (delays : list time.Duration) :
  ∀ (g : GalactusAPI) (n e t R : Z),
    view g k = (Some (redis.Entry (redis.RInt n) (Some e)), t, [], R) →
    R ≤ n → n + Z.of_nat (length delays) ≤ redis.int64_max →
    Forall (λ d, 0 ≤ d) delays → t + foldr Z.add 0 delays < e →
    let r := admit_each guildID hashToken delays g in
    fst r = repeat false (length delays) ∧
    view (snd r) k
    = (Some (redis.Entry (redis.RInt (n + Z.of_nat (length delays))) (Some e)),
       t + foldr Z.add 0 delays, [], R).
Proof.
  induction delays as [|d ds IH]; intros g n e t R Hv HR Hn Hpos Hlt; cbv zeta.
  - cbn. split; [done|]. rewrite Hv. repeat f_equal; lia.
  - apply Forall_cons in Hpos as [Hd Hds].
    assert (Hsum : 0 ≤ foldr Z.add 0 ds).
    { clear -Hds. induction Hds; cbn; lia. }
    cbn [foldr length] in *.
    destruct (admit_after_present d g _ _ _ _ Hv) as [R1 V1].
    { rewrite live_int. apply Z.ltb_lt. lia. }
    { lia. }
    destruct (Z.ltb_spec (n + 1) R) as [|_]; [lia|].
    rewrite admit_each_cons, admit_each_cons_snd, R1.
    destruct (IH _ _ _ _ _ V1) as [R2 V2]; [lia | lia | done | lia |].
    rewrite R2, V2. cbn [repeat]. split; [done|].
    replace (n + 1 + Z.of_nat (length ds)) with (n + Z.of_nat (S (length ds))) by lia.
    by replace (t + d + foldr Z.add 0 ds) with (t + (d + foldr Z.add 0 ds)) by lia.
Qed.


Lemma set_ttl_unfold (d : time.Duration) :
  0 < d →
  redis.set_ttl d
  = if d <? time.Millisecond then time.Millisecond
    else d / time.Millisecond * time.Millisecond.
Proof.
  intros Hd.
  unfold redis.set_ttl, redis.usePrecise, redis.formatMs, redis.formatSec.
  rewrite !Z.quot_div_nonneg, Z.rem_mod_nonneg by (done || lia).
  destruct (Z.ltb_spec 0 d) as [_|]; [|lia]. cbn [andb].
  change time.Second with 1000000000. change time.Millisecond with 1000000.
  destruct (Z.ltb_spec d 1000000000) as [Hs|Hs]; cbn [orb].
  - destruct (Z.ltb_spec d 1000000); lia.
  - destruct (Z.ltb_spec d 1000000); [lia|].
    destruct (Z.eqb_spec (d mod 1000000000) 0) as [Hz|Hz]; cbn [negb]; [|done].
    pose proof (Z.div_mod d 1000000000 ltac:(lia)) as H1.
    pose proof (Z.div_mod d 1000000 ltac:(lia)) as H2.
    pose proof (Z.mod_pos_bound d 1000000 ltac:(lia)) as H3.
    assert (d mod 1000000 = 0); [|lia].
    rewrite H1, Hz, Z.add_0_r.
    replace (1000000000 * (d / 1000000000)) with ((d / 1000000000 * 1000) * 1000000) by lia.
    apply Z.mod_mul. lia.
Qed.

Lemma set_ttl_bounds (d : time.Duration) :
  time.Millisecond ≤ d →
  d - time.Millisecond < redis.set_ttl d ∧ redis.set_ttl d ≤ d.
Proof.
  intros Hd. rewrite set_ttl_unfold by (change time.Millisecond with 1000000 in Hd; lia).
  revert Hd. change time.Millisecond with 1000000. intros Hd.
  destruct (Z.ltb_spec d 1000000); [lia|].
  pose proof (Z.div_mod d 1000000 ltac:(lia)) as H2.
  pose proof (Z.mod_pos_bound d 1000000 ltac:(lia)) as H3. lia.
Qed.


Lemma set_ttl_short (d : time.Duration) :
  0 < d → d < time.Millisecond → redis.set_ttl d = time.Millisecond.
Proof.
  intros Hd Hlt. rewrite set_ttl_unfold by done.
  destruct (Z.ltb_spec d time.Millisecond); [done|lia].
Qed.

Lemma Blacklist_view (g : GalactusAPI) (d : time.Duration) :
  healthy (client g) → 0 < d →
  let b := BlacklistTokenForDuration guildID hashToken d g in
  fst b = None ∧
  view (snd b) k
  = (Some (redis.Entry (redis.RInt (maxRequests5Seconds g))
             (Some (redis.clock (client g) + redis.set_ttl d))),
     redis.clock (client g), [], maxRequests5Seconds g).
Proof.
  intros Hh Hd. cbv zeta.
  unfold BlacklistTokenForDuration, store, redis.Set_.
  rewrite next_fault_healthy by done.
  destruct (Z.ltb_spec 0 d); [|lia].
  unfold view. cbn. rewrite lookup_insert_eq. by rewrite Hh.
Qed.

Lemma expiry_of_view (g : GalactusAPI) v e t fs R :
  view g k = (Some (redis.Entry v (Some e)), t, fs, R) → t < e →
  expiry (client g) k = Some e.
Proof.
  unfold view, expiry, redis.get. intros [= -> -> _ _] Hlt.
  unfold redis.live; cbn.
  destruct (Z.ltb_spec t e); [done | lia].
Qed.


Lemma expiry_insert_live c (d : gmap string redis.entry) v e :
  redis.clock c < e →
  expiry (redis.with_db (<[k := redis.Entry v (Some e)]> d) c) k = Some e.
Proof.
  intros Hlt. unfold expiry, redis.get; cbn. rewrite lookup_insert_eq.
  unfold redis.live; cbn. destruct (Z.ltb_spec (redis.clock c) e); [done | lia].
Qed.

Lemma expiry_insert_keep c v exp n :
  redis.get c k = Some (redis.Entry v exp) →
  expiry (redis.with_db (<[k := redis.Entry n exp]> (redis.db c)) c) k
  = expiry c k.
Proof.
  unfold expiry, redis.get; cbn. rewrite lookup_insert_eq.
  destruct (redis.db c !! k) as [e|]; [|done].
  destruct (redis.live (redis.clock c) e) eqn:Hl; [|done].
  intros [= ->]. unfold redis.live in *; cbn in *. by rewrite Hl.
Qed.

(** C3, as the code has it.  On a healthy store every granted check, not
    only the first of a window, leaves the counter expiring [W] after that
    check; a denied check leaves the expiry as it was. *)
Theorem every_grant_sets_expiry (g : GalactusAPI) :
  healthy (client g) →
  let r := IncrAndTestGuildTokenComboLock guildID hashToken g in
  if fst r
  then expiry (client (snd r)) k = Some (redis.clock (client g) + W)
  else expiry (client (snd r)) k = expiry (client g) k.
Proof.
  intros Hh. cbv zeta.
  destruct (IncrAndTest_unfold g) as (Hr & Hc & _).
  rewrite Hr, Hc. clear Hr Hc.
  pose proof W_pos as HW.
  assert (Hrec : healthy (redis.record (redis.INCR k) (client g))) by exact Hh.
  destruct (redis.get (client g) k) as [[[n|s|l] exp]|] eqn:Hget.
  - destruct (Z.eq_dec n redis.int64_max) as [->|Hne].
    + unfold redis.Incr. rewrite next_fault_healthy by done.
      rewrite get_record, Hget. rewrite Z.eqb_refl. cbn [fst snd].
      destruct (0 <? maxRequests5Seconds g); [|done].
      erewrite Expire_live; [|done|by rewrite get_record|done].
      cbn [snd]. apply expiry_insert_live. cbn. lia.
    + assert (Hn : redis.get (client g) k = Some (redis.Entry (redis.RInt n) exp)) by done.
      unfold redis.Incr. rewrite next_fault_healthy by done.
      rewrite get_record, Hget.
      destruct (Z.eqb_spec n redis.int64_max); [done|]. cbn [fst snd].
      destruct (n + 1 <? maxRequests5Seconds g).
      * erewrite Expire_live; [|done| |done].
        -- cbn [snd]. apply expiry_insert_live. cbn. lia.
        -- apply get_insert_eq. cbn.
           unfold redis.get in Hget.
           destruct (redis.db (client g) !! k) as [e0|]; [|done].
           destruct (redis.live (redis.clock (client g)) e0) eqn:Hl; [|done].
           injection Hget as ->. exact Hl.
      * exact (expiry_insert_keep _ _ _ _ Hn).
  - unfold redis.Incr. rewrite next_fault_healthy by done.
    rewrite get_record, Hget. cbn [fst snd].
    destruct (0 <? maxRequests5Seconds g); [|done].
    erewrite Expire_live; [|done|by rewrite get_record|done].
    cbn [snd]. apply expiry_insert_live. cbn. lia.
  - unfold redis.Incr. rewrite next_fault_healthy by done.
    rewrite get_record, Hget. cbn [fst snd].
    destruct (0 <? maxRequests5Seconds g); [|done].
    erewrite Expire_live; [|done|by rewrite get_record|done].
    cbn [snd]. apply expiry_insert_live. cbn. lia.
  - rewrite (Incr_fresh k _ Hh Hget). cbn [fst snd].
    destruct (1 <? maxRequests5Seconds g).
    + erewrite Expire_live; [|done|by apply get_insert_eq|done].
      cbn [snd]. apply expiry_insert_live. cbn. lia.
    + unfold expiry. rewrite Hget.
      unfold redis.get; cbn. by rewrite lookup_insert_eq.
Qed.

(** C10.  When the increment returns an error the count tested is 0, so
    with a positive capacity the check grants, and it still sends the
    expiry command; the error and the count 0 are logged. *)
Theorem fails_open_on_store_error (g : GalactusAPI) (e : error) :
  snd (fst (redis.Incr k (client g))) = Some e →
  0 < maxRequests5Seconds g →
  let r := IncrAndTestGuildTokenComboLock guildID hashToken g in
  fst r = true ∧
  redis.history (client (snd r))
  = redis.history (client g) ++ [redis.INCR k; redis.EXPIRE k W] ∧
  {| zap.level := zap.ErrorLevel;
     zap.msg := "error incrementing guild token combo";
     zap.fields := [zap.Error (Some e); zap.String "guildID" guildID;
                    zap.String "hashedToken" hashToken] |} ∈ logger (snd r) ∧
  {| zap.level := zap.InfoLevel;
     zap.msg := "guild token combo";
     zap.fields := [zap.String "guildID" guildID;
                    zap.String "hashedToken" hashToken;
                    zap.Int64 "count" 0; zap.Bool "using" true] |}
    ∈ logger (snd r).
Proof.
  intros He HR. cbv zeta.
  pose proof (Incr_error_zero _ _ _ He) as Hz.
  destruct (IncrAndTest_unfold g) as (Hr & Hc & _).
  rewrite Hz in Hr, Hc.
  destruct (Z.ltb_spec 0 (maxRequests5Seconds g)) as [_|]; [|lia].
  split; [exact Hr|]. split.
  - rewrite Hc, Expire_history, Incr_history. by rewrite <- app_assoc.
  - clear Hr Hc.
    unfold IncrAndTestGuildTokenComboLock, bind, store, if_err,
      logger_Error, logger_Info, write_log, ret.
    destruct (redis.Incr k (client g)) as [[i err] c1].
    cbn [fst snd] in He, Hz. subst i err. cbn.
    destruct (Z.ltb_spec 0 (maxRequests5Seconds g)) as [_|]; [|lia]. cbn.
    destruct (redis.Expire k W c1) as [[e'|] c2]; cbn; split; set_solver.
Qed.
End admission.

(** *** The admission properties on concrete runs *)

(** The window of three on an empty store: four checks at once, the fifth
    5 s later. *)
Lemma admission_window_of_three_witness :
  fst (admit_each "g" "h" [0; 0; 0; 0; time.Second * 5] (fresh_instance 3))
  = [true; true; false; false; true]
  ∧ ∀ (g' : GalactusAPI) (n : Z),
      fst (redis.Incr (rediskey.GuildTokenLock "g" "h") (client g')) = (n, None) →
      fst (IncrAndTestGuildTokenComboLock "g" "h" g') = false
      ↔ maxRequests5Seconds g' ≤ n.
Proof.
  apply (admission_window_of_three "g" "h" (fresh_instance 3)
           0 0 0 0 (time.Second * 5));
    first [ reflexivity | vm_compute; discriminate ].
Defined.

(** C1 as the specification words it fails: with capacity 3 the third of
    four quick checks is already denied; and a fifth check made 5 s after
    the first one, but only 1 s after the second, is denied as well. *)
Lemma four_quick_checks_counterexample :
  fst (admit_each "g" "h" [0; 0; 0; 0] (fresh_instance 3))
  ≠ [true; true; true; false]
  ∧ fst (admit_each "g" "h"
           [0; time.Second * 4; 0; 0; time.Second * 1] (fresh_instance 3))
    = [true; true; false; false; false].
Proof. split; vm_compute; [discriminate | reflexivity]. Qed.



(** The first check on an empty store. *)
Lemma every_grant_sets_expiry_witness :
  let g := fresh_instance 3 in
  let r := IncrAndTestGuildTokenComboLock "g" "h" g in
  if fst r
  then expiry (client (snd r)) (rediskey.GuildTokenLock "g" "h")
       = Some (redis.clock (client g) + time.Second * 5)
  else expiry (client (snd r)) (rediskey.GuildTokenLock "g" "h")
       = expiry (client g) (rediskey.GuildTokenLock "g" "h").
Proof.
  apply (every_grant_sets_expiry "g" "h" (fresh_instance 3)). reflexivity.
Defined.

(** C3 as the specification words it fails: a second granted check, made
    2 s into the window, moves the expiry of the counter from 5 s to 7 s. *)
Lemma second_grant_moves_expiry_counterexample :
  let k := rediskey.GuildTokenLock "g" "h" in
  let r1 := admit_after "g" "h" 0 (fresh_instance 3) in
  let r2 := admit_after "g" "h" (time.Second * 2) (snd r1) in
  fst r1 = true ∧ fst r2 = true ∧
  expiry (client (snd r1)) k = Some (time.Second * 5) ∧
  expiry (client (snd r2)) k = Some (time.Second * 7) ∧
  expiry (client (snd r2)) k ≠ expiry (client (snd r1)) k.
Proof. vm_compute. repeat split; (reflexivity || discriminate). Qed.

(** A check whose increment is refused by the transport. *)
Lemma fails_open_on_store_error_witness :
  let e := errorString "connection refused" in
  let g := with_faults [Some e] (fresh_instance 3) in
  let r := IncrAndTestGuildTokenComboLock "g" "h" g in
  fst r = true ∧
  redis.history (client (snd r))
  = redis.history (client g)
    ++ [redis.INCR (rediskey.GuildTokenLock "g" "h");
        redis.EXPIRE (rediskey.GuildTokenLock "g" "h") (time.Second * 5)] ∧
  {| zap.level := zap.ErrorLevel;
     zap.msg := "error incrementing guild token combo";
     zap.fields := [zap.Error (Some e); zap.String "guildID" "g";
                    zap.String "hashedToken" "h"] |} ∈ logger (snd r) ∧
  {| zap.level := zap.InfoLevel;
     zap.msg := "guild token combo";
     zap.fields := [zap.String "guildID" "g"; zap.String "hashedToken" "h";
                    zap.Int64 "count" 0; zap.Bool "using" true] |}
    ∈ logger (snd r).
Proof.
  apply (fails_open_on_store_error "g" "h"
           (with_faults [Some (errorString "connection refused")] (fresh_instance 3))
           (errorString "connection refused")); reflexivity.
Defined.

(** ** Keys *)

Lemma append_inj_prefix (p a b : string) : p +:+ a = p +:+ b → a = b.
Proof.
  induction p as [|c p IH]; cbn; [done|]. intros [= H]. by apply IH.
Qed.

Lemma GuildTokensKey_not_lock guildID hToken :
  rediskey.GuildTokensKey guildID ≠ rediskey.GuildTokenLock guildID hToken.
Proof.
  unfold rediskey.GuildTokensKey, rediskey.GuildTokenLock. intros H.
  apply append_inj_prefix, append_inj_prefix in H. cbn in H. discriminate H.
Qed.

Lemma GuildTokenLock_inj guildID h1 h2 :
  rediskey.GuildTokenLock guildID h1 = rediskey.GuildTokenLock guildID h2 →
  h1 = h2.
Proof.
  unfold rediskey.GuildTokenLock. intros H.
  by apply append_inj_prefix, append_inj_prefix, append_inj_prefix in H.
Qed.

(** ** Frame of the store commands *)

Section store_frame.
Implicit Types (c : redis.Client) (k : string).

Lemma next_fault_get c k :
  redis.get (snd (redis.next_fault c)) k = redis.get c k.
Proof. unfold redis.next_fault. by destruct (redis.faults c). Qed.

Lemma next_fault_keeps_healthy c :
  healthy c → healthy (snd (redis.next_fault c)).
Proof. unfold healthy, redis.next_fault. intros Hh. by rewrite Hh. Qed.

(** What a command that rewrites at most its own key leaves alone. *)
Ltac frame_of_command k' Hg :=
  repeat match goal with
    | |- context [match ?x with _ => _ end] => destruct x; cbn [fst snd]
    end;
  try apply Hg;
  unfold redis.get; cbn;
  rewrite ?lookup_insert_ne, ?lookup_delete_ne by done;
  try apply (Hg k'); done.

Lemma Incr_get_other k k' c :
  k ≠ k' → redis.get (snd (redis.Incr k c)) k' = redis.get c k'.
Proof.
  intros Hne. unfold redis.Incr.
  pose proof (next_fault_get (redis.record (redis.INCR k) c)) as Hg.
  destruct (redis.next_fault _) as [f c1]; cbn [snd] in Hg.
  frame_of_command k' Hg.
Qed.

Lemma Expire_get_other k k' ttl c :
  k ≠ k' → redis.get (snd (redis.Expire k ttl c)) k' = redis.get c k'.
Proof.
  intros Hne. unfold redis.Expire.
  pose proof (next_fault_get (redis.record (redis.EXPIRE k ttl) c)) as Hg.
  destruct (redis.next_fault _) as [f c1]; cbn [snd] in Hg.
  frame_of_command k' Hg.
Qed.

Lemma SRem_get_other k k' m c :
  k ≠ k' → redis.get (snd (redis.SRem k m c)) k' = redis.get c k'.
Proof.
  intros Hne. unfold redis.SRem.
  pose proof (next_fault_get (redis.record (redis.SREM k m) c)) as Hg.
  destruct (redis.next_fault _) as [f c1]; cbn [snd] in Hg.
  frame_of_command k' Hg.
Qed.

Ltac healthy_after_command Hh :=
  repeat match goal with
    | |- context [match ?x with _ => _ end] => destruct x; cbn [fst snd]
    end;
  exact Hh.

Lemma Incr_healthy k c : healthy c → healthy (snd (redis.Incr k c)).
Proof.
  intros Hh. unfold redis.Incr.
  pose proof (next_fault_keeps_healthy (redis.record (redis.INCR k) c) Hh) as Hh'.
  destruct (redis.next_fault _) as [f c1]; cbn [snd] in Hh'.
  healthy_after_command Hh'.
Qed.

Lemma Expire_healthy k ttl c : healthy c → healthy (snd (redis.Expire k ttl c)).
Proof.
  intros Hh. unfold redis.Expire.
  pose proof (next_fault_keeps_healthy (redis.record (redis.EXPIRE k ttl) c) Hh) as Hh'.
  destruct (redis.next_fault _) as [f c1]; cbn [snd] in Hh'.
  healthy_after_command Hh'.
Qed.

Lemma SRem_healthy k m c : healthy c → healthy (snd (redis.SRem k m c)).
Proof.
  intros Hh. unfold redis.SRem.
  pose proof (next_fault_keeps_healthy (redis.record (redis.SREM k m) c) Hh) as Hh'.
  destruct (redis.next_fault _) as [f c1]; cbn [snd] in Hh'.
  healthy_after_command Hh'.
Qed.

(** A healthy removal from a set takes the member out and nothing else. *)
Lemma SRem_members k m c :
  healthy c →
  members (snd (redis.SRem k m c)) k = members c k ∖ {[ m ]}.
Proof.
  intros Hh. unfold redis.SRem. rewrite next_fault_healthy by done.
  rewrite get_record. unfold members at 2.
  destruct (redis.get c k) as [[[n|s|l] exp]|] eqn:Hget; cbn [snd].
  - unfold members. rewrite get_record, Hget. by rewrite empty_difference_L.
  - destruct (decide (s ∖ {[m]} = ∅)) as [He|Hne]; cbn [snd].
    + rewrite He. unfold members, redis.get; cbn. by rewrite lookup_delete_eq.
    + unfold members. rewrite get_insert_eq; [done|].
      unfold redis.get in Hget. cbn.
      destruct (redis.db c !! k) as [e0|]; [|done].
      destruct (redis.live (redis.clock c) e0) eqn:Hl; [|done].
      injection Hget as ->. exact Hl.
  - unfold members. rewrite get_record, Hget. by rewrite empty_difference_L.
  - unfold members. rewrite get_record, Hget. by rewrite empty_difference_L.
Qed.

End store_frame.

(** ** The session walk and the secondary rung *)

Section walk.
Variable guildID : string.
Local Abbreviation ks := (rediskey.GuildTokensKey guildID).
Local Abbreviation W := (time.Second * 5).

Lemma IncrAndTest_get_other hToken k' (g : GalactusAPI) :
  rediskey.GuildTokenLock guildID hToken ≠ k' →
  redis.get (client (snd (IncrAndTestGuildTokenComboLock guildID hToken g))) k'
  = redis.get (client g) k'.
Proof.
  intros Hne. destruct (IncrAndTest_unfold guildID hToken g) as (_ & Hc & _).
  rewrite Hc. destruct (_ <? _).
  - by rewrite Expire_get_other, Incr_get_other.
  - by rewrite Incr_get_other.
Qed.

Lemma IncrAndTest_healthy hToken (g : GalactusAPI) :
  healthy (client g) →
  healthy (client (snd (IncrAndTestGuildTokenComboLock guildID hToken g))).
Proof.
  intros Hh. destruct (IncrAndTest_unfold guildID hToken g) as (_ & Hc & _).
  rewrite Hc. destruct (_ <? _).
  - by apply Expire_healthy, Incr_healthy.
  - by apply Incr_healthy.
Qed.

Lemma IncrAndTest_fresh_grants hToken (g : GalactusAPI) :
  healthy (client g) →
  redis.get (client g) (rediskey.GuildTokenLock guildID hToken) = None →
  1 < maxRequests5Seconds g →
  fst (IncrAndTestGuildTokenComboLock guildID hToken g) = true.
Proof.
  intros Hh Hget HR.
  destruct (IncrAndTest_unfold guildID hToken g) as (Hr & _).
  rewrite Hr, (Incr_fresh _ _ Hh Hget). cbn. by apply Z.ltb_lt.
Qed.

(** An admitted identity without a local session: it is taken out of the
    guild's set and the walk goes on with the next one. *)
Lemma walk_skips_stale hToken rest i limit (g : GalactusAPI) :
  i ≠ limit →
  fst (IncrAndTestGuildTokenComboLock guildID hToken g) = true →
  activeSessions g !! hToken = None →
  getAnySession_from guildID (hToken :: rest) i limit g
  = getAnySession_from guildID rest (i + 1) limit
      (snd (store (redis.SRem ks hToken)
              (snd (IncrAndTestGuildTokenComboLock guildID hToken g)))).
Proof.
  intros Hi Hok Hs. cbn [getAnySession_from].
  destruct (Z.eqb_spec i limit); [done|].
  destruct (IncrAndTest_unfold guildID hToken g) as (_ & _ & Ha & _).
  unfold bind at 1.
  destruct (IncrAndTestGuildTokenComboLock guildID hToken g) as [ok g1].
  cbn [fst snd] in *. subst ok. rewrite Ha, Hs.
  unfold bind, store. by destruct (redis.SRem ks hToken (client g1)).
Qed.

(** An admitted identity with a local session ends the walk. *)
Lemma walk_returns_session hToken rest i limit sess (g : GalactusAPI) :
  i ≠ limit →
  fst (IncrAndTestGuildTokenComboLock guildID hToken g) = true →
  activeSessions g !! hToken = Some sess →
  getAnySession_from guildID (hToken :: rest) i limit g
  = ((Some sess, hToken),
     snd (IncrAndTestGuildTokenComboLock guildID hToken g)).
Proof.
  intros Hi Hok Hs. cbn [getAnySession_from].
  destruct (Z.eqb_spec i limit); [done|].
  destruct (IncrAndTest_unfold guildID hToken g) as (_ & _ & Ha & _).
  unfold bind at 1.
  destruct (IncrAndTestGuildTokenComboLock guildID hToken g) as [ok g1].
  cbn [fst snd] in *. subst ok. by rewrite Ha, Hs.
Qed.

Lemma members_of_get c c' k :
  redis.get c k = redis.get c' k → members c k = members c' k.
Proof. unfold members. by intros ->. Qed.

(** C6.  An admitted identity that has no session in the local map is
    removed from the guild's token set and the walk continues with the
    next identity.  With two identities listed, of which only the second
    has a session, both admitted on a healthy store and the walk allowed
    to visit two, the walk returns the second's session and the set then
    holds the second alone. *)
Theorem stale_identity_is_removed (h1 h2 : string) (s2 : Session)
    (limit : Z) (g : GalactusAPI) :
  healthy (client g) → h1 ≠ h2 → 2 ≤ limit →
  activeSessions g !! h1 = None →
  activeSessions g !! h2 = Some s2 →
  redis.get (client g) (rediskey.GuildTokenLock guildID h1) = None →
  redis.get (client g) (rediskey.GuildTokenLock guildID h2) = None →
  1 < maxRequests5Seconds g →
  members (client g) ks = {[ h1; h2 ]} →
  (fst (getAnySession guildID [h1; h2] limit g) = (Some s2, h2)
   ∧ members (client (snd (getAnySession guildID [h1; h2] limit g))) ks
     = {[ h2 ]})
  ∧ ∀ (hToken : string) (rest : list string) (i lim : Z) (g' : GalactusAPI),
      i ≠ lim → healthy (client g') →
      fst (IncrAndTestGuildTokenComboLock guildID hToken g') = true →
      activeSessions g' !! hToken = None →
      let g1 := snd (IncrAndTestGuildTokenComboLock guildID hToken g') in
      let g2 := snd (store (redis.SRem ks hToken) g1) in
      getAnySession_from guildID (hToken :: rest) i lim g'
      = getAnySession_from guildID rest (i + 1) lim g2
      ∧ members (client g2) ks = members (client g') ks ∖ {[ hToken ]}.
Proof.
  intros Hh Hne Hlim Hs1 Hs2 Hk1 Hk2 HR Hm.
  assert (Hstep : ∀ hToken (g' : GalactusAPI),
    healthy (client g') →
    let g1 := snd (IncrAndTestGuildTokenComboLock guildID hToken g') in
    let g2 := snd (store (redis.SRem ks hToken) g1) in
    members (client g2) ks = members (client g') ks ∖ {[ hToken ]}
    ∧ healthy (client g2)
    ∧ (∀ k', ks ≠ k' → redis.get (client g2) k' = redis.get (client g1) k')
    ∧ activeSessions g2 = activeSessions g'
    ∧ maxRequests5Seconds g2 = maxRequests5Seconds g').
  { intros hToken g' Hh'. cbv zeta.
    pose proof (IncrAndTest_healthy hToken g' Hh') as Hh1.
    pose proof (IncrAndTest_get_other hToken ks g') as Hf.
    destruct (IncrAndTest_unfold guildID hToken g') as (_ & _ & Ha & HR' & _).
    set (g1 := snd (IncrAndTestGuildTokenComboLock guildID hToken g')) in *.
    unfold store.
    pose proof (SRem_members ks hToken (client g1) Hh1) as Hm'.
    pose proof (SRem_healthy ks hToken (client g1) Hh1) as Hh2.
    pose proof (λ k', SRem_get_other ks k' hToken (client g1)) as Hf2.
    destruct (redis.SRem ks hToken (client g1)) as [err c2]. cbn [snd] in *.
    split; [|split; [done|split; [done|split; done]]].
    cbn [client with_client]. rewrite Hm'. f_equal. apply members_of_get, Hf.
    intros E. symmetry in E. by apply GuildTokensKey_not_lock in E. }
  split.
  - unfold getAnySession.
    pose proof (IncrAndTest_fresh_grants h1 g Hh Hk1 HR) as Hok1.
    rewrite (walk_skips_stale h1 [h2] 0 limit g) by (done || lia).
    destruct (Hstep h1 g Hh) as (Hm2 & Hh2 & Hf2 & Ha2 & HR2).
    set (g2 := snd (store (redis.SRem ks h1)
                      (snd (IncrAndTestGuildTokenComboLock guildID h1 g)))) in *.
    assert (Hk2' : redis.get (client g2) (rediskey.GuildTokenLock guildID h2) = None).
    { rewrite Hf2 by apply GuildTokensKey_not_lock.
      rewrite IncrAndTest_get_other; [done|].
      intros E. by apply GuildTokenLock_inj in E. }
    assert (Hok2 : fst (IncrAndTestGuildTokenComboLock guildID h2 g2) = true).
    { apply IncrAndTest_fresh_grants; [done | done | by rewrite HR2]. }
    rewrite (walk_returns_session h2 [] (0 + 1) limit s2 g2);
      [| lia | done | by rewrite Ha2].
    cbn [fst snd]. split; [done|].
    rewrite (members_of_get _ (client g2)).
    + rewrite Hm2, Hm. apply set_eq. intros x.
      rewrite elem_of_difference, elem_of_union, !elem_of_singleton.
      split; [intros [[->| ->] Hx]; done | intros ->; by split; [right | auto]].
    + apply IncrAndTest_get_other.
      intros E. symmetry in E. by apply GuildTokensKey_not_lock in E.
  - intros hToken rest i lim g' Hi Hh' Hok Hs. cbv zeta. split.
    + by apply walk_skips_stale.
    + by destruct (Hstep hToken g' Hh') as (Hm2 & _).
Qed.
End walk.

Lemma getAnySession_from_platform guildID (tokens : list string) :
  ∀ (i limit : Z) (g : GalactusAPI),
    platform (snd (getAnySession_from guildID tokens i limit g)) = platform g.
Proof.
  induction tokens as [|hToken rest IH]; intros i limit g; [done|].
  cbn [getAnySession_from]. destruct (i =? limit); [done|].
  destruct (IncrAndTest_unfold guildID hToken g) as (_ & _ & _ & _ & Hp).
  unfold bind at 1.
  destruct (IncrAndTestGuildTokenComboLock guildID hToken g) as [[|] g1];
    cbn [fst snd] in *.
  - destruct (activeSessions g1 !! hToken); [done|].
    unfold bind, store.
    destruct (redis.SRem _ hToken (client g1)) as [err c2].
    by rewrite IH.
  - unfold bind, logger_Info, write_log. by rewrite IH.
Qed.

(** C4, as the code has it.  When the mute/deaf call on the session the
    walk has chosen fails, the secondary rung logs the failure and answers
    false at once: that call is the only one made to the platform, and no
    further admission check or store command follows it. *)
Theorem rest_failure_ends_secondary_rung (P : Platform)
    (guildID userID : string) (tokens : list string) (limit : Z)
    (request : discord.UserModify) (g g1 : GalactusAPI)
    (sess : Session) (hToken : string) (e : error) :
  0 < limit →
  getAnySession guildID tokens limit g = ((Some sess, hToken), g1) →
  ApplyMuteDeaf P sess guildID userID
    (discord.UMute request) (discord.UDeaf request) = Some e →
  let r := attemptOnSecondaryTokens P guildID userID (Some tokens) limit request g in
  fst r = false ∧
  client (snd r) = client g1 ∧
  platform (snd r)
  = platform g ++ [CallApplyMuteDeaf sess guildID userID
                     (discord.UMute request) (discord.UDeaf request)] ∧
  logger (snd r)
  = logger g1 ++
    [ {| zap.level := zap.ErrorLevel;
         zap.msg := "failed to apply mute/deaf on secondary bot";
         zap.fields := [zap.Error (Some e); zap.String "guildID" guildID;
                        zap.Uint64 "userID" (discord.UserID request);
                        zap.String "hashedToken" hToken;
                        zap.Bool "mute" (discord.UMute request);
                        zap.Bool "deaf" (discord.UDeaf request)] |} ].
Proof.
  intros Hlim Hget Hfail.
  pose proof (getAnySession_from_platform guildID tokens 0 limit g) as Hp.
  unfold getAnySession in *. rewrite Hget in Hp. cbn [snd] in Hp.
  set (entry := {| zap.level := zap.ErrorLevel;
                   zap.msg := "failed to apply mute/deaf on secondary bot";
                   zap.fields := _ |}).
  set (c := CallApplyMuteDeaf _ _ _ _ _).
  assert (Hr : attemptOnSecondaryTokens P guildID userID (Some tokens) limit request g
               = (false, snd (write_log zap.ErrorLevel (zap.msg entry) (zap.fields entry)
                                (snd (call c g1))))).
  { unfold attemptOnSecondaryTokens, getAnySession.
    destruct (Z.ltb_spec 0 limit); [|lia].
    unfold bind at 1. rewrite Hget. unfold bind at 1. cbn [call snd fst].
    fold c. by rewrite Hfail. }
  cbv zeta. rewrite Hr. cbn. by rewrite Hp.
Qed.

(** ** The capture rung *)

Lemma bind_eq {A B : Type} (m : M A) (k : A → M B) (g : GalactusAPI) :
  bind m k g = k (fst (m g)) (snd (m g)).
Proof. unfold bind. by destruct (m g). Qed.

Lemma store_eq {A : Type} (f : redis.Client → A * redis.Client)
    (g : GalactusAPI) :
  store f g = (fst (f (client g)), with_client (snd (f (client g))) g).
Proof. unfold store. by destruct (f (client g)). Qed.

Lemma RPush_history key x c :
  redis.history (snd (redis.RPush key x c))
  = redis.history c ++ [redis.RPUSH key x].
Proof.
  unfold redis.RPush, redis.next_fault.
  destruct c as [d t fs h l]; cbn.
  destruct fs as [|[f|] fs]; cbn; try done;
    unfold redis.get; cbn; destruct (d !! key) as [[[n|s|l'] exp]|]; cbn;
    try done; destruct (redis.live _ _); cbn; done.
Qed.

Lemma Set_history key v ttl c :
  redis.history (snd (redis.Set_ key v ttl c))
  = redis.history c ++ [redis.SET key v ttl].
Proof.
  unfold redis.Set_, redis.next_fault.
  destruct c as [d t fs h l]; cbn.
  by destruct fs as [|[f|] fs].
Qed.

(** *** The rungs on concrete runs *)

(** Two identities listed for the guild, a session for the second only. *)
Lemma stale_identity_is_removed_witness :
  let s2 := {| Token := "Bot two"; Guilds := [] |} in
  let g := guild_instance "g" {[ "h1"; "h2" ]} {[ "h2" := s2 ]} 3 in
  (fst (getAnySession "g" ["h1"; "h2"] 2 g) = (Some s2, "h2")
   ∧ members (client (snd (getAnySession "g" ["h1"; "h2"] 2 g)))
       (rediskey.GuildTokensKey "g") = {[ "h2" ]})
  ∧ ∀ (hToken : string) (rest : list string) (i lim : Z) (g' : GalactusAPI),
      i ≠ lim → healthy (client g') →
      fst (IncrAndTestGuildTokenComboLock "g" hToken g') = true →
      activeSessions g' !! hToken = None →
      let g1 := snd (IncrAndTestGuildTokenComboLock "g" hToken g') in
      let g2 := snd (store (redis.SRem (rediskey.GuildTokensKey "g") hToken) g1) in
      getAnySession_from "g" (hToken :: rest) i lim g'
      = getAnySession_from "g" rest (i + 1) lim g2
      ∧ members (client g2) (rediskey.GuildTokensKey "g")
        = members (client g') (rediskey.GuildTokensKey "g") ∖ {[ hToken ]}.
Proof.
  apply (stale_identity_is_removed "g" "h1" "h2"
           {| Token := "Bot two"; Guilds := [] |} 2
           (guild_instance "g" {[ "h1"; "h2" ]}
              {[ "h2" := {| Token := "Bot two"; Guilds := [] |} ]} 3));
    first [ reflexivity | vm_compute; discriminate | vm_compute; reflexivity ].
Defined.

(** Two identities with sessions; the call through the first one fails. *)
Lemma rest_failure_ends_secondary_rung_witness :
  let s1 := {| Token := "Bot one"; Guilds := [] |} in
  let s2 := {| Token := "Bot two"; Guilds := [] |} in
  let P := platform_failing_for "Bot one" in
  let request := {| discord.UserID := 7; discord.UMute := true;
                    discord.UDeaf := false |} in
  let g := guild_instance "g" {[ "h1"; "h2" ]} {[ "h1" := s1; "h2" := s2 ]} 3 in
  let g1 := snd (getAnySession "g" ["h1"; "h2"] 2 g) in
  let r := attemptOnSecondaryTokens P "g" "u" (Some ["h1"; "h2"]) 2 request g in
  fst r = false ∧
  client (snd r) = client g1 ∧
  platform (snd r) = platform g ++ [CallApplyMuteDeaf s1 "g" "u" true false] ∧
  logger (snd r)
  = logger g1 ++
    [ {| zap.level := zap.ErrorLevel;
         zap.msg := "failed to apply mute/deaf on secondary bot";
         zap.fields := [zap.Error (Some (errorString "HTTP 500 Internal Server Error"));
                        zap.String "guildID" "g"; zap.Uint64 "userID" 7;
                        zap.String "hashedToken" "h1";
                        zap.Bool "mute" true; zap.Bool "deaf" false] |} ].
Proof.
  apply (rest_failure_ends_secondary_rung (platform_failing_for "Bot one")
           "g" "u" ["h1"; "h2"] 2
           {| discord.UserID := 7; discord.UMute := true; discord.UDeaf := false |}
           (guild_instance "g" {[ "h1"; "h2" ]}
              {[ "h1" := {| Token := "Bot one"; Guilds := [] |};
                 "h2" := {| Token := "Bot two"; Guilds := [] |} ]} 3)
           (snd (getAnySession "g" ["h1"; "h2"] 2
                   (guild_instance "g" {[ "h1"; "h2" ]}
                      {[ "h1" := {| Token := "Bot one"; Guilds := [] |};
                         "h2" := {| Token := "Bot two"; Guilds := [] |} ]} 3)))
           {| Token := "Bot one"; Guilds := [] |} "h1"
           (errorString "HTTP 500 Internal Server Error"));
    first [ reflexivity | vm_compute; reflexivity ].
Defined.

(** C4 as the specification words it fails: two identities are listed and
    both have sessions; the call through the first fails and the call
    through the second would succeed.  The rung answers false after the one
    call, and the second identity is never checked nor used. *)
Lemma second_identity_untried_counterexample :
  let s1 := {| Token := "Bot one"; Guilds := [] |} in
  let s2 := {| Token := "Bot two"; Guilds := [] |} in
  let P := platform_failing_for "Bot one" in
  let request := {| discord.UserID := 7; discord.UMute := true;
                    discord.UDeaf := false |} in
  let g := guild_instance "g" {[ "h1"; "h2" ]} {[ "h1" := s1; "h2" := s2 ]} 3 in
  let r := attemptOnSecondaryTokens P "g" "u" (Some ["h1"; "h2"]) 2 request g in
  ApplyMuteDeaf P s2 "g" "u" true false = None ∧
  fst r = false ∧
  platform (snd r) = [CallApplyMuteDeaf s1 "g" "u" true false] ∧
  redis.history (client (snd r))
  = [redis.INCR (rediskey.GuildTokenLock "g" "h1");
     redis.EXPIRE (rediskey.GuildTokenLock "g" "h1") (time.Second * 5)].
Proof. vm_compute. repeat split; reflexivity. Qed.

(** ** Event ingress *)

Section ingress.
Variable key : string.
Variable typeNames : DiscordMessageType → string.

(** A healthy push onto a list, or onto no key at all, puts the job at
    the end. *)
Lemma PushDiscordMessage_jobs ty data (w : handler.World) :
  healthy (handler.client w) → list_or_absent (handler.client w) key →
  let r := handler.PushDiscordMessage key ty data w in
  fst r = None ∧
  handler.jobs key (snd r) = handler.jobs key w ++ [MessageItem ty data] ∧
  handler.logger (snd r) = handler.logger w.
Proof.
  intros Hh Hl. cbv zeta.
  unfold handler.PushDiscordMessage, handler.store, redis.RPush.
  rewrite next_fault_healthy by done. rewrite get_record.
  unfold list_or_absent in Hl. unfold handler.jobs at 2.
  destruct (redis.get (handler.client w) key) as [[[n|s|l] exp]|] eqn:Hget;
    try done; cbn [fst snd handler.client handler.logger];
    (split; [done|]); (split; [|done]); unfold handler.jobs.
  - cbn [handler.client]. rewrite get_insert_eq; [done|]. cbn.
    unfold redis.get in Hget.
    destruct (redis.db (handler.client w) !! key) as [e0|]; [|done].
    destruct (redis.live (redis.clock (handler.client w)) e0) eqn:Hlive; [|done].
    injection Hget as ->. exact Hlive.
  - cbn [handler.client]. by rewrite get_insert_eq.
Qed.

Lemma jobs_write_log lvl msg fs (w : handler.World) :
  handler.jobs key (snd (handler.write_log lvl msg fs w)) = handler.jobs key w.
Proof. reflexivity. Qed.

Lemma logger_write_log lvl msg fs (w : handler.World) :
  handler.logger (snd (handler.write_log lvl msg fs w))
  = handler.logger w
    ++ [ {| zap.level := lvl; zap.msg := msg; zap.fields := fs |} ].
Proof. reflexivity. Qed.

(** C7, as the code has it.  When [json.Marshal] fails the handlers log
    the error and go on to push: on a healthy store a job with the type
    tag and the bytes returned with the error, nil, is put at the end of
    the shared list. *)
Theorem marshal_failure_still_pushes (byt : option string) (e : error)
    (w : handler.World) :
  healthy (handler.client w) → list_or_absent (handler.client w) key →
  (∀ m : handler.GuildDeleteEvent,
     let w' := snd (handler.GuildDeleteHandler key (byt, Some e) m w) in
     handler.jobs key w'
     = handler.jobs key w ++ [MessageItem GuildDelete byt]
     ∧ handler.logger w'
       = handler.logger w ++
         [ {| zap.level := zap.ErrorLevel;
              zap.msg := "error marshalling json for GuildDelete message";
              zap.fields := [zap.Error (Some e)] |};
           {| zap.level := zap.InfoLevel;
              zap.msg := "received GuildDelete message";
              zap.fields := [zap.String "ID" (handler.ID m)] |} ])
  ∧ (∀ (m : handler.VoiceStateUpdateEvent) (selfID : string),
       handler.UserID m ≠ selfID →
       let w' := snd (handler.VoiceStateUpdateHandler key typeNames
                        (byt, Some e) selfID true (Some m) w) in
       handler.jobs key w'
       = handler.jobs key w ++ [MessageItem VoiceStateUpdate byt]
       ∧ {| zap.level := zap.ErrorLevel;
            zap.msg := "error marshalling json for VoiceStateUpdate message";
            zap.fields := [zap.Error (Some e)] |} ∈ handler.logger w').
Proof.
  intros Hh Hl.
  set (entry msg := {| zap.level := zap.ErrorLevel; zap.msg := msg;
                       zap.fields := [zap.Error (Some e)] |}).
  assert (Hpush : ∀ ty msg,
    let w1 := snd (handler.write_log zap.ErrorLevel msg [zap.Error (Some e)] w) in
    let r := handler.PushDiscordMessage key ty byt w1 in
    fst r = None ∧
    handler.jobs key (snd r) = handler.jobs key w ++ [MessageItem ty byt] ∧
    handler.logger (snd r) = handler.logger w ++ [entry msg]).
  { intros ty msg. cbv zeta.
    apply (PushDiscordMessage_jobs ty byt
             (snd (handler.write_log zap.ErrorLevel msg [zap.Error (Some e)] w)));
      done. }
  split.
  - intros m. unfold handler.GuildDeleteHandler. cbv beta iota zeta.
    destruct (Hpush GuildDelete "error marshalling json for GuildDelete message")
      as (He & Hj & Hlog).
    destruct (handler.PushDiscordMessage _ _ _ _) as [err w2].
    cbn [fst snd] in *. subst err.
    rewrite jobs_write_log, logger_write_log, Hj, Hlog.
    split; [done|]. by rewrite <- app_assoc.
  - intros m selfID Hself. unfold handler.VoiceStateUpdateHandler.
    destruct (String.eqb_spec (handler.UserID m) selfID); [done|].
    cbv beta iota zeta. cbn [negb].
    destruct (Hpush VoiceStateUpdate
                "error marshalling json for VoiceStateUpdate message")
      as (He & Hj & Hlog).
    destruct (handler.PushDiscordMessage _ _ _ _) as [err w2].
    cbn [fst snd] in *. subst err.
    rewrite jobs_write_log, logger_write_log, Hj, Hlog. split; [done|].
    apply elem_of_app. left. apply elem_of_app. right.
    by apply list_elem_of_singleton.
Qed.
End ingress.

(** A guild-delete event that cannot be serialized, on an empty store. *)
Lemma marshal_failure_still_pushes_witness :
  let e := errorString "json: unsupported value" in
  let w := {| handler.client := empty_store; handler.logger := [] |} in
  let w' := snd (handler.GuildDeleteHandler "jobs" (None, Some e)
                   {| handler.ID := "1" |} w) in
  handler.jobs "jobs" w' = handler.jobs "jobs" w ++ [MessageItem GuildDelete None]
  ∧ handler.logger w'
    = handler.logger w ++
      [ {| zap.level := zap.ErrorLevel;
           zap.msg := "error marshalling json for GuildDelete message";
           zap.fields := [zap.Error (Some e)] |};
        {| zap.level := zap.InfoLevel;
           zap.msg := "received GuildDelete message";
           zap.fields := [zap.String "ID" "1"] |} ].
Proof.
  apply (proj1 (marshal_failure_still_pushes "jobs" (λ _, "") None
                  (errorString "json: unsupported value")
                  {| handler.client := empty_store; handler.logger := [] |}
                  eq_refl I)).
Defined.

(** C7 as the specification words it fails: the event that could not be
    serialized is not dropped; the shared list, empty before, holds a job
    for it afterwards, for either handler. *)
Lemma unserializable_event_enqueued_counterexample :
  let e := errorString "json: unsupported value" in
  let w := {| handler.client := empty_store; handler.logger := [] |} in
  let m := {| handler.GuildID := "g"; handler.ChannelID := "c";
              handler.UserID := "u"; handler.SessionID := "s" |} in
  handler.jobs "jobs" w = []
  ∧ handler.jobs "jobs"
      (snd (handler.GuildDeleteHandler "jobs" (None, Some e)
              {| handler.ID := "1" |} w))
    = [MessageItem GuildDelete None]
  ∧ handler.jobs "jobs"
      (snd (handler.VoiceStateUpdateHandler "jobs" (λ _, "") (None, Some e)
              "bot" true (Some m) w))
    = [MessageItem VoiceStateUpdate None].
Proof. vm_compute. repeat split; reflexivity. Qed.

(** ** The job long-poll *)

(** C8, as the code has it.  The handler answers by the outcome of the
    pop: 202 for [redis.Nil], with a body that has one space after the
    colon; 500 with the error text for any other error; 500 for an empty
    string without error; 200 with the payload as body otherwise. *)
Theorem request_job_outcomes (route msg : string) (err writeErr : option error)
    (g : GalactusAPI) :
  let resp := fst (requestJobHandler route (msg, err) writeErr g) in
  (errors_Is err redis_Nil = true →
   resp = {| StatusCode := 202;
             Body := "{" +:+ dq +:+ "status" +:+ dq +:+ ": " +:+ dq
                     +:+ "No jobs available" +:+ dq +:+ "}" |})
  ∧ (∀ e, err = Some e → errors_Is err redis_Nil = false →
       resp = {| StatusCode := 500;
                 Body := "{" +:+ dq +:+ "error" +:+ dq +:+ ": " +:+ dq
                         +:+ Error e +:+ dq +:+ "}" |})
  ∧ (err = None → msg = "" →
     resp = {| StatusCode := 500;
               Body := "{" +:+ dq +:+ "error" +:+ dq +:+ ": " +:+ dq
                       +:+ "Nil job returned, despite no Redis errors"
                       +:+ dq +:+ "}" |})
  ∧ (err = None → msg ≠ "" → resp = {| StatusCode := 200; Body := msg |}).
Proof.
  cbv zeta. unfold requestJobHandler. repeat split.
  - by intros ->.
  - intros e -> ->. reflexivity.
  - intros -> ->. reflexivity.
  - intros -> Hmsg. cbn [errors_Is].
    destruct (String.eqb_spec msg ""); [done|].
    by destruct writeErr.
Qed.

(** The empty pop and a pop that returns a payload. *)
Lemma request_job_outcomes_witness :
  fst (requestJobHandler "/request/job" ("", Some redis_Nil) None (fresh_instance 3))
  = {| StatusCode := 202;
       Body := "{" +:+ dq +:+ "status" +:+ dq +:+ ": " +:+ dq
               +:+ "No jobs available" +:+ dq +:+ "}" |}
  ∧ fst (requestJobHandler "/request/job" ("payload", None) None (fresh_instance 3))
    = {| StatusCode := 200; Body := "payload" |}.
Proof.
  split.
  - apply (proj1 (request_job_outcomes "/request/job" "" (Some redis_Nil) None
                    (fresh_instance 3))).
    reflexivity.
  - apply (proj2 (proj2 (proj2
             (request_job_outcomes "/request/job" "payload" None None
                (fresh_instance 3))))).
    + reflexivity.
    + discriminate.
Defined.

(** C8 as the specification words it fails: the body written for the
    empty pop is not, byte for byte, the one the specification gives. *)
Lemma empty_poll_body_counterexample :
  let resp := fst (requestJobHandler "/request/job" ("", Some redis_Nil) None
                     (fresh_instance 3)) in
  StatusCode resp = 202 ∧ Body resp ≠ specified_empty_body.
Proof. vm_compute. split; [reflexivity | discriminate]. Qed.

(** ** Token locks *)

Section token_locks.
Implicit Types (c : redis.Client) (g : GalactusAPI).













End token_locks.



(** * Further properties of the code *)

(** ** Admission: windows, capacity and recovery *)

Section admission_more.
Variables guildID hashToken : string.
Local Abbreviation k := (rediskey.GuildTokenLock guildID hashToken).
Local Abbreviation W := (time.Second * 5).

Lemma counts_from n (len : nat) (R : Z) :
  (n + 1 <? R) :: map (λ i, n + 1 + Z.of_nat i <? R) (seq 1 len)
  = map (λ i, n + Z.of_nat i <? R) (seq 1 (S len)).
Proof.
  cbn [seq map]. replace (n + Z.of_nat 1) with (n + 1) by lia. f_equal.
  rewrite <- (seq_shift len 1), List.map_map. apply List.map_ext. intros i.
  f_equal. lia.
Qed.

(** Checks on a live counter that all fall before the instant [T], when
    no expiry the counter can have is earlier than [T]: the check that
    reads count [n] is granted exactly when [n] is below capacity. *)
Lemma run_within_window (delays : list time.Duration) :
  ∀ (g : GalactusAPI) (n : Z) (exp : option Z) (t R T : Z),
    view g k = (Some (redis.Entry (redis.RInt n) exp), t, [], R) →
    (∀ e, exp = Some e → T ≤ e) → T ≤ t + W →
    Forall (λ d, 0 ≤ d) delays → t + foldr Z.add 0 delays < T →
    n + Z.of_nat (length delays) ≤ redis.int64_max →
    fst (admit_each guildID hashToken delays g)
    = map (λ i, n + Z.of_nat i <? R) (seq 1 (length delays)).
Proof.
  induction delays as [|d ds IH]; intros g n exp t R T Hv Hexp HT Hpos Hlt Hn;
    [done|].
  apply Forall_cons in Hpos as [Hd Hds].
  assert (Hsum : 0 ≤ foldr Z.add 0 ds).
  { clear -Hds. induction Hds; cbn; lia. }
  cbn [foldr length] in *.
  destruct (admit_after_present guildID hashToken d g _ _ _ _ Hv) as [R1 V1].
  { unfold redis.live; cbn. destruct exp as [e|]; [|done].
    apply Z.ltb_lt. specialize (Hexp e eq_refl). lia. }
  { lia. }
  rewrite admit_each_cons, R1.
  rewrite (IH _ _ _ _ _ T V1); [apply counts_from| |lia|done|lia|lia].
  intros e. destruct (n + 1 <? R); [intros [= <-]; lia | apply Hexp].
Qed.

(** In one window the n-th admission check is granted exactly when n is
    below the capacity: on a healthy store with no live counter, for checks
    that all fall within [W] of the first one, the answers are
    [1 < R], [2 < R], ... in this order. *)
Theorem window_grants_below_capacity (g : GalactusAPI) (d0 : time.Duration)
    (delays : list time.Duration) :
  healthy (client g) →
  redis.get (client g) k = None →
  0 ≤ d0 → Forall (λ d, 0 ≤ d) delays → foldr Z.add 0 delays < W →
  Z.of_nat (S (length delays)) ≤ redis.int64_max →
  fst (admit_each guildID hashToken (d0 :: delays) g)
  = map (λ n, Z.of_nat n <? maxRequests5Seconds g) (seq 1 (S (length delays))).
Proof.
  intros Hh Hget H0 Hpos Hlt Hn.
  set (t := redis.clock (client g)). set (R := maxRequests5Seconds g).
  assert (Hv : view g k = (redis.db (client g) !! k, t, [], R)).
  { unfold view. by rewrite Hh. }
  assert (Hgone : gone (t + d0) (redis.db (client g) !! k)).
  { unfold redis.get in Hget. fold t in Hget.
    destruct (redis.db (client g) !! k) as [e|]; [|done]. cbn.
    unfold redis.live in *. destruct (redis.expireAt e) as [x|]; [|done].
    destruct (Z.ltb_spec t x); [done|]. apply Z.ltb_ge. lia. }
  destruct (admit_after_absent guildID hashToken d0 g _ _ _ Hv Hgone) as [R1 V1].
  assert (Hsum : 0 ≤ foldr Z.add 0 delays).
  { clear -Hpos. induction Hpos; cbn; lia. }
  rewrite admit_each_cons, R1.
  rewrite (run_within_window delays _ _ _ _ _ (t + d0 + W) V1);
    [| |lia|done|lia|lia].
  - exact (counts_from 0 (length delays) R).
  - intros e. destruct (1 <? R); [intros [= <-]; lia | done].
Qed.

(** With a capacity of 1 or less, on a store whose commands succeed and
    that has no live counter for the pair, no check is granted, however
    long the caller waits: the first check creates the counter without
    expiry, and it stays without one.  (A check whose increment fails
    reads 0 and is granted when the capacity is 1.) *)
Theorem capacity_one_never_grants (g : GalactusAPI) (d0 : time.Duration)
    (delays : list time.Duration) :
  healthy (client g) →
  redis.get (client g) k = None →
  maxRequests5Seconds g ≤ 1 →
  0 ≤ d0 → Forall (λ d, 0 ≤ d) delays →
  Z.of_nat (S (length delays)) ≤ redis.int64_max →
  let r := admit_each guildID hashToken (d0 :: delays) g in
  fst r = repeat false (S (length delays))
  ∧ redis.db (client (snd r)) !! k
    = Some (redis.Entry (redis.RInt (Z.of_nat (S (length delays)))) None).
Proof.
  intros Hh Hget HR H0 Hpos Hn. cbv zeta.
  set (t := redis.clock (client g)). set (R := maxRequests5Seconds g) in *.
  assert (Hv : view g k = (redis.db (client g) !! k, t, [], R)).
  { unfold view. by rewrite Hh. }
  assert (Hgone : gone (t + d0) (redis.db (client g) !! k)).
  { unfold redis.get in Hget. fold t in Hget.
    destruct (redis.db (client g) !! k) as [e|]; [|done]. cbn.
    unfold redis.live in *. destruct (redis.expireAt e) as [x|]; [|done].
    destruct (Z.ltb_spec t x); [done|]. apply Z.ltb_ge. lia. }
  destruct (admit_after_absent guildID hashToken d0 g _ _ _ Hv Hgone) as [R1 V1].
  destruct (Z.ltb_spec 1 R) as [|_]; [lia|].
  rewrite admit_each_cons, admit_each_cons_snd, R1. cbn [repeat].
  set (g1 := snd (admit_after guildID hashToken d0 g)) in *. clearbody g1.
  clear Hv Hgone Hget Hh R1.
  assert (Hrun : ∀ (ds : list time.Duration) (g' : GalactusAPI) (n t' : Z),
    view g' k = (Some (redis.Entry (redis.RInt n) None), t', [], R) →
    1 ≤ n → n + Z.of_nat (length ds) ≤ redis.int64_max →
    fst (admit_each guildID hashToken ds g') = repeat false (length ds)
    ∧ redis.db (client (snd (admit_each guildID hashToken ds g'))) !! k
      = Some (redis.Entry (redis.RInt (n + Z.of_nat (length ds))) None)).
  { induction ds as [|d ds IH]; intros g' n t' Hv' Hn1 Hlen.
    - cbn. unfold view in Hv'. injection Hv' as -> _ _ _.
      split; [done|]. do 3 f_equal. lia.
    - cbn [length] in *.
      destruct (admit_after_present guildID hashToken d g' _ _ _ _ Hv')
        as [R2 V2]; [done | lia |].
      destruct (Z.ltb_spec (n + 1) R) as [|_]; [lia|].
      rewrite admit_each_cons, admit_each_cons_snd, R2.
      destruct (IH _ _ _ V2) as [R3 V3]; [lia | lia |].
      rewrite R3, V3. split; [done|]. do 3 f_equal. lia. }
  destruct (Hrun delays g1 1 (t + d0) V1) as [R2 V2]; [lia | lia |].
  rewrite R2, V2. split; [done|]. do 3 f_equal. lia.
Qed.

(** A blacklisting wears off.  On a store whose commands succeed and with
    a capacity above 1, the first check made once the time to live the
    store was sent has elapsed is granted again, with the count back at 1
    and a fresh window.  From a millisecond on that time is at most the
    duration of the blacklisting, so then a check made once the duration
    has elapsed is granted; a shorter blacklisting lasts a millisecond. *)
Theorem blacklist_wears_off (g : GalactusAPI) (d delay : time.Duration) :
  healthy (client g) → 0 < d → redis.set_ttl d ≤ delay →
  1 < maxRequests5Seconds g →
  let b := BlacklistTokenForDuration guildID hashToken d g in
  let r := admit_after guildID hashToken delay (snd b) in
  fst r = true
  ∧ redis.db (client (snd r)) !! k
    = Some (redis.Entry (redis.RInt 1)
              (Some (redis.clock (client g) + delay + W)))
  ∧ (time.Millisecond ≤ d → redis.set_ttl d ≤ d)
  ∧ (d < time.Millisecond → redis.set_ttl d = time.Millisecond).
Proof.
  intros Hh Hd Hdelay HR. cbv zeta.
  destruct (Blacklist_view guildID hashToken g d Hh Hd) as [_ Vb].
  destruct (admit_after_absent guildID hashToken delay _ _ _ _ Vb) as [R1 V1].
  { unfold gone, redis.live; cbn. apply Z.ltb_ge. lia. }
  destruct (Z.ltb_spec 1 (maxRequests5Seconds g)) as [_|]; [|lia].
  split; [done|]. split.
  { unfold view in V1. by injection V1 as -> _ _ _. }
  split; [apply set_ttl_bounds | by apply set_ttl_short].
Qed.

(** A first grant whose expiry command fails is still a grant, and the
    counter it leaves has no expiry at all. *)
Theorem failed_expire_leaves_no_ttl (g : GalactusAPI) (e : error)
    (rest : list (option error)) :
  redis.faults (client g) = None :: Some e :: rest →
  redis.get (client g) k = None →
  1 < maxRequests5Seconds g →
  let r := IncrAndTestGuildTokenComboLock guildID hashToken g in
  fst r = true
  ∧ redis.db (client (snd r)) !! k = Some (redis.Entry (redis.RInt 1) None)
  ∧ redis.faults (client (snd r)) = rest
  ∧ {| zap.level := zap.ErrorLevel;
       zap.msg := "error setting expiration for guild token combo";
       zap.fields := [zap.Error (Some e); zap.String "guildID" guildID;
                      zap.String "hashedToken" hashToken] |} ∈ logger (snd r).
Proof.
  intros Hf Hget HR. cbv zeta.
  destruct g as [[d t fs h tl] s R lg p]. cbn in Hf, HR. subst fs.
  unfold redis.get in Hget. cbn in Hget.
  assert (Hsee : match d !! k with
                 | Some e0 => if redis.live t e0 then Some e0 else None
                 | None => None
                 end = None) by exact Hget.
  unfold IncrAndTestGuildTokenComboLock, bind, store, redis.Incr,
    redis.next_fault, redis.get. cbn.
  rewrite Hsee. cbn.
  destruct (Z.ltb_spec 1 R) as [_|]; [|lia]. cbn.
  rewrite lookup_insert_eq. repeat split; try done.
  apply elem_of_app. right. by apply list_elem_of_singleton.
Qed.

(** An admission check on one pair leaves alone everything but the pair's
    counter and the log, whatever the store answers: every other key reads
    as before, and the sessions, the capacity and the platform are not
    touched. *)
Theorem admission_check_frame (g : GalactusAPI) (k' : string) :
  k ≠ k' →
  let r := IncrAndTestGuildTokenComboLock guildID hashToken g in
  redis.get (client (snd r)) k' = redis.get (client g) k'
  ∧ activeSessions (snd r) = activeSessions g
  ∧ maxRequests5Seconds (snd r) = maxRequests5Seconds g
  ∧ platform (snd r) = platform g.
Proof.
  intros Hne. cbv zeta.
  destruct (IncrAndTest_unfold guildID hashToken g) as (_ & _ & Ha & HR & Hp).
  split; [by apply IncrAndTest_get_other | done].
Qed.
End admission_more.

(** Capacity 4: three checks a second apart pass, the fourth does not. *)
Lemma window_grants_below_capacity_witness :
  fst (admit_each "g" "h" [0; time.Second; time.Second; time.Second]
         (fresh_instance 4))
  = map (λ n, Z.of_nat n <? maxRequests5Seconds (fresh_instance 4)) (seq 1 4).
Proof.
  apply (window_grants_below_capacity "g" "h" (fresh_instance 4) 0
           [time.Second; time.Second; time.Second]);
    first [ reflexivity | vm_compute; discriminate
          | repeat constructor; vm_compute; discriminate ].
Defined.

(** Capacity 1: denied at once and denied a minute later. *)
Lemma capacity_one_never_grants_witness :
  let r := admit_each "g" "h" [0; time.Minute] (fresh_instance 1) in
  fst r = repeat false 2
  ∧ redis.db (client (snd r)) !! rediskey.GuildTokenLock "g" "h"
    = Some (redis.Entry (redis.RInt (Z.of_nat 2)) None).
Proof.
  apply (capacity_one_never_grants "g" "h" (fresh_instance 1) 0 [time.Minute]);
    first [ reflexivity | vm_compute; discriminate
          | repeat constructor; vm_compute; discriminate ].
Defined.

(** A five-minute blacklisting, checked again after five minutes. *)
Lemma blacklist_wears_off_witness :
  let g := fresh_instance 3 in
  let b := BlacklistTokenForDuration "g" "X" (time.Minute * 5) g in
  let r := admit_after "g" "X" (time.Minute * 5) (snd b) in
  fst r = true
  ∧ redis.db (client (snd r)) !! rediskey.GuildTokenLock "g" "X"
    = Some (redis.Entry (redis.RInt 1)
              (Some (redis.clock (client g) + time.Minute * 5 + time.Second * 5))).
Proof.
  destruct (blacklist_wears_off "g" "X" (fresh_instance 3)
              (time.Minute * 5) (time.Minute * 5)) as (H1 & H2 & _).
  - reflexivity.
  - reflexivity.
  - vm_compute; discriminate.
  - reflexivity.
  - split; assumption.
Defined.

(** The increment goes through and the expiry is refused. *)
Lemma failed_expire_leaves_no_ttl_witness :
  let e := errorString "connection reset" in
  let r := IncrAndTestGuildTokenComboLock "g" "h"
             (with_faults [None; Some e] (fresh_instance 3)) in
  fst r = true
  ∧ redis.db (client (snd r)) !! rediskey.GuildTokenLock "g" "h"
    = Some (redis.Entry (redis.RInt 1) None)
  ∧ redis.faults (client (snd r)) = []
  ∧ {| zap.level := zap.ErrorLevel;
       zap.msg := "error setting expiration for guild token combo";
       zap.fields := [zap.Error (Some e); zap.String "guildID" "g";
                      zap.String "hashedToken" "h"] |} ∈ logger (snd r).
Proof.
  apply (failed_expire_leaves_no_ttl "g" "h"
           (with_faults [None; Some (errorString "connection reset")]
              (fresh_instance 3))
           (errorString "connection reset") []);
    first [ reflexivity | vm_compute; reflexivity ].
Defined.

(** A check on a pair of guild ["g"] and the token set of that guild. *)
Lemma admission_check_frame_witness :
  let g := guild_instance "g" {[ "h" ]} ∅ 3 in
  let r := IncrAndTestGuildTokenComboLock "g" "h" g in
  redis.get (client (snd r)) (rediskey.GuildTokensKey "g")
  = redis.get (client g) (rediskey.GuildTokensKey "g")
  ∧ activeSessions (snd r) = activeSessions g
  ∧ maxRequests5Seconds (snd r) = maxRequests5Seconds g
  ∧ platform (snd r) = platform g.
Proof.
  apply (admission_check_frame "g" "h" (guild_instance "g" {[ "h" ]} ∅ 3)
           (rediskey.GuildTokensKey "g")).
  vm_compute. discriminate.
Defined.

(** ** The session walk: what it returns, how far it goes, what it sends *)

Section walk_more.
Variable guildID : string.
Local Abbreviation ks := (rediskey.GuildTokensKey guildID).

Lemma SRem_history key member c :
  redis.history (snd (redis.SRem key member c))
  = redis.history c ++ [redis.SREM key member].
Proof.
  unfold redis.SRem, redis.next_fault.
  destruct c as [d t fs h l]; cbn.
  destruct fs as [|[f|] fs]; cbn; try done;
    unfold redis.get; cbn; destruct (d !! key) as [[[n|s|l'] exp]|]; cbn;
    try done; destruct (redis.live _ _); cbn; try done;
    destruct (decide _); cbn; done.
Qed.

Lemma getAnySession_from_sound (tokens : list string) :
  ∀ (i limit : Z) (g : GalactusAPI),
    let r := getAnySession_from guildID tokens i limit g in
    activeSessions (snd r) = activeSessions g
    ∧ match fst r with
      | (Some s, h) => h ∈ tokens ∧ activeSessions g !! h = Some s
      | (None, h) => h = ""
      end.
Proof.
  induction tokens as [|hToken rest IH]; intros i limit g; cbv zeta; [done|].
  cbn [getAnySession_from]. destruct (i =? limit); [done|].
  rewrite bind_eq.
  destruct (IncrAndTest_unfold guildID hToken g) as (_ & _ & Ha & _).
  set (g1 := snd (IncrAndTestGuildTokenComboLock guildID hToken g)) in *.
  destruct (fst (IncrAndTestGuildTokenComboLock guildID hToken g)).
  - cbv beta. rewrite Ha.
    destruct (activeSessions g !! hToken) as [s|] eqn:Hs.
    + cbn. split; [done|]. split; [apply list_elem_of_here | done].
    + rewrite bind_eq, store_eq. cbn [fst snd].
      set (g2 := with_client _ g1).
      destruct (IH (i + 1) limit g2) as [Ha2 Hr]. cbv zeta in Ha2, Hr.
      rewrite Ha2. split; [exact Ha|].
      destruct (fst (getAnySession_from guildID rest (i + 1) limit g2))
        as [[s|] h]; [|done].
      destruct Hr as [Hin Hl]. split; [by apply list_elem_of_further|].
      by rewrite <- Ha.
  - rewrite bind_eq. cbn [fst snd logger_Info write_log].
    set (g2 := {| client := client g1 |}).
    destruct (IH (i + 1) limit g2) as [Ha2 Hr]. cbv zeta in Ha2, Hr.
    rewrite Ha2. split; [exact Ha|].
    destruct (fst (getAnySession_from guildID rest (i + 1) limit g2))
      as [[s|] h]; [|done].
    destruct Hr as [Hin Hl]. split; [by apply list_elem_of_further|].
    by rewrite <- Ha.
Qed.

(** The session the walk returns is the one the local map holds for the
    token returned with it, and that token is one of the listed ones; when
    it returns no session the token is the empty string.  The walk never
    changes the local map. *)
Theorem getAnySession_sound (tokens : list string) (limit : Z)
    (g : GalactusAPI) :
  let r := getAnySession guildID tokens limit g in
  activeSessions (snd r) = activeSessions g
  ∧ match fst r with
    | (Some s, h) => h ∈ tokens ∧ activeSessions g !! h = Some s
    | (None, h) => h = ""
    end.
Proof. apply getAnySession_from_sound. Qed.

Lemma getAnySession_from_take (tokens : list string) :
  ∀ (i limit : Z) (g : GalactusAPI),
    0 ≤ i ≤ limit →
    getAnySession_from guildID tokens i limit g
    = getAnySession_from guildID (take (Z.to_nat (limit - i)) tokens) i limit g.
Proof.
  induction tokens as [|hToken rest IH]; intros i limit g Hi.
  { by rewrite take_nil. }
  cbn [getAnySession_from]. destruct (Z.eqb_spec i limit) as [->|Hne].
  { rewrite Z.sub_diag. done. }
  replace (Z.to_nat (limit - i)) with (S (Z.to_nat (limit - (i + 1)))) by lia.
  cbn [take getAnySession_from]. destruct (Z.eqb_spec i limit); [done|].
  rewrite !bind_eq.
  destruct (fst (IncrAndTestGuildTokenComboLock guildID hToken g)).
  - cbv beta. destruct (activeSessions _ !! hToken); [done|].
    rewrite !bind_eq. apply IH. lia.
  - rewrite !bind_eq. apply IH. lia.
Qed.

(** The limit bounds the walk: with a limit that is not negative, the
    tokens after the first [limit] ones play no part in the result nor in
    what is sent or logged. *)
Theorem getAnySession_visits_at_most_limit (tokens : list string) (limit : Z)
    (g : GalactusAPI) :
  0 ≤ limit →
  getAnySession guildID tokens limit g
  = getAnySession guildID (take (Z.to_nat limit) tokens) limit g.
Proof.
  intros Hl. unfold getAnySession.
  rewrite (getAnySession_from_take tokens 0 limit g) by lia.
  by rewrite Z.sub_0_r.
Qed.

Lemma walk_command_further h tokens sessions cmd :
  walk_command guildID tokens sessions cmd →
  walk_command guildID (h :: tokens) sessions cmd.
Proof.
  destruct cmd; cbn; try done.
  - intros (x & Hx & ->). exists x. split; [by apply list_elem_of_further | done].
  - intros (x & Hx & -> & ->). exists x.
    split; [by apply list_elem_of_further | done].
  - intros (-> & Hm & Hs). split; [done|].
    split; [by apply list_elem_of_further | done].
Qed.

Lemma getAnySession_from_commands (tokens : list string) :
  ∀ (i limit : Z) (g : GalactusAPI),
    ∃ suffix,
      redis.history (client (snd (getAnySession_from guildID tokens i limit g)))
      = redis.history (client g) ++ suffix
      ∧ Forall (walk_command guildID tokens (activeSessions g)) suffix.
Proof.
  induction tokens as [|hToken rest IH]; intros i limit g.
  { exists []. split; [by rewrite app_nil_r | done]. }
  cbn [getAnySession_from]. destruct (i =? limit).
  { exists []. split; [by rewrite app_nil_r | done]. }
  rewrite bind_eq.
  pose proof (IncrAndTest_history guildID hToken g) as Hh. cbv zeta in Hh.
  destruct (IncrAndTest_unfold guildID hToken g) as (_ & _ & Ha & _).
  set (g1 := snd (IncrAndTestGuildTokenComboLock guildID hToken g)) in *.
  assert (Hadm : Forall (walk_command guildID (hToken :: rest) (activeSessions g))
                   [redis.INCR (rediskey.GuildTokenLock guildID hToken);
                    redis.EXPIRE (rediskey.GuildTokenLock guildID hToken)
                      (time.Second * 5)]).
  { repeat constructor; exists hToken; (split; [apply list_elem_of_here | done]). }
  assert (Hrest : ∀ g2, activeSessions g2 = activeSessions g →
            ∀ suffix,
              Forall (walk_command guildID rest (activeSessions g2)) suffix →
              Forall (walk_command guildID (hToken :: rest) (activeSessions g)) suffix).
  { intros g2 -> suffix Hs. eapply Forall_impl; [exact Hs|]. intros cmd.
    apply walk_command_further. }
  destruct (fst (IncrAndTestGuildTokenComboLock guildID hToken g)).
  - cbv beta. rewrite Ha.
    destruct (activeSessions g !! hToken) as [s|] eqn:Hs.
    + eexists. split; [exact Hh | exact Hadm].
    + rewrite bind_eq, store_eq. cbn [fst snd].
      set (g2 := with_client _ g1).
      destruct (IH (i + 1) limit g2) as (suf & Hsuf & Hall).
      exists ([redis.INCR (rediskey.GuildTokenLock guildID hToken);
               redis.EXPIRE (rediskey.GuildTokenLock guildID hToken)
                 (time.Second * 5)]
              ++ [redis.SREM ks hToken] ++ suf).
      split.
      * rewrite Hsuf. subst g2. cbn [client with_client].
        rewrite SRem_history, Hh. by rewrite <- !app_assoc.
      * apply Forall_app. split; [exact Hadm|]. apply Forall_app. split.
        -- constructor; [|constructor].
           split; [done|]. split; [apply list_elem_of_here | done].
        -- by apply (Hrest g2).
  - rewrite bind_eq. cbn [fst snd logger_Info write_log].
    set (g2 := {| client := client g1 |}).
    destruct (IH (i + 1) limit g2) as (suf & Hsuf & Hall).
    exists ([redis.INCR (rediskey.GuildTokenLock guildID hToken)] ++ suf).
    split.
    + rewrite Hsuf. subst g2. cbn [client]. rewrite Hh. by rewrite <- !app_assoc.
    + apply Forall_app. split.
      * apply Forall_cons in Hadm as [H1 _]. by constructor.
      * by apply (Hrest g2).
Qed.

(** What the walk sends to the store, whatever the store answers:
    admission commands on the pairs of listed identities, and removals
    from the guild's set of listed identities that have no local session.
    An identity with a session here is never removed, and no other key is
    written. *)
Theorem getAnySession_removes_only_stale (tokens : list string) (limit : Z)
    (g : GalactusAPI) :
  ∃ suffix,
    redis.history (client (snd (getAnySession guildID tokens limit g)))
    = redis.history (client g) ++ suffix
    ∧ Forall (walk_command guildID tokens (activeSessions g)) suffix.
Proof. apply getAnySession_from_commands. Qed.
End walk_more.

(** Five identities listed, a limit of two. *)
Lemma getAnySession_visits_at_most_limit_witness :
  let g := guild_instance "g" {[ "a"; "b"; "c" ]} ∅ 3 in
  getAnySession "g" ["a"; "b"; "c"; "d"; "e"] 2 g
  = getAnySession "g" (take (Z.to_nat 2) ["a"; "b"; "c"; "d"; "e"]) 2 g.
Proof.
  apply (getAnySession_visits_at_most_limit "g" ["a"; "b"; "c"; "d"; "e"] 2
           (guild_instance "g" {[ "a"; "b"; "c" ]} ∅ 3)).
  vm_compute. discriminate.
Defined.

(** ** The secondary rung *)

(** The secondary rung answers true exactly when it was given tokens and a
    positive limit, the walk found a session and the mute/deaf call through
    it returned no error.  It makes at most one call to the platform, through
    a session the local map holds for a listed identity; without tokens or
    with a limit that is not positive it sends nothing to the store. *)
Theorem secondary_rung_outcome (P : Platform) (guildID userID : string)
    (tokens : option (list string)) (limit : Z)
    (request : discord.UserModify) (g : GalactusAPI) :
  let r := attemptOnSecondaryTokens P guildID userID tokens limit request g in
  let mute := discord.UMute request in
  let deaf := discord.UDeaf request in
  (fst r = true
   ↔ ∃ toks sess h,
       tokens = Some toks ∧ 0 < limit
       ∧ fst (getAnySession guildID toks limit g) = (Some sess, h)
       ∧ ApplyMuteDeaf P sess guildID userID mute deaf = None)
  ∧ (platform (snd r) = platform g
     ∨ ∃ toks sess h,
         tokens = Some toks ∧ h ∈ toks ∧ activeSessions g !! h = Some sess
         ∧ platform (snd r)
           = platform g ++ [CallApplyMuteDeaf sess guildID userID mute deaf])
  ∧ ((tokens = None ∨ limit ≤ 0) → client (snd r) = client g).
Proof.
  cbv zeta. unfold attemptOnSecondaryTokens.
  destruct tokens as [toks|].
  2:{ split; [|split; [by left | done]].
      split; [done | intros (? & ? & ? & Heq & _); discriminate Heq]. }
  destruct (Z.ltb_spec 0 limit) as [Hl|Hl].
  2:{ split; [|split; [by left | done]].
      split; [done | intros (? & ? & ? & _ & ? & _); lia]. }
  rewrite bind_eq.
  pose proof (getAnySession_from_sound guildID toks 0 limit g) as [_ Hs].
  pose proof (getAnySession_from_platform guildID toks 0 limit g) as Hp.
  cbv zeta in Hs. unfold getAnySession.
  set (g1 := snd (getAnySession_from guildID toks 0 limit g)) in *.
  destruct (fst (getAnySession_from guildID toks 0 limit g)) as [[sess|] h]
    eqn:Hres.
  - destruct Hs as [Hin Hl']. rewrite bind_eq. cbn [call fst snd].
    destruct (ApplyMuteDeaf P sess guildID userID _ _) as [e|] eqn:Hcall.
    + split; [|split; [|intros [Heq|Hle]; [discriminate Heq | lia]]].
      * split; [done|]. intros (? & ? & ? & [= <-] & _ & Hres' & Hn).
        unfold getAnySession in Hres'. rewrite Hres in Hres'.
        injection Hres' as <- <-. by rewrite Hcall in Hn.
      * right. exists toks, sess, h. cbn. by rewrite Hp.
    + split; [|split; [|intros [Heq|Hle]; [discriminate Heq | lia]]].
      * split; [|done]. intros _. by exists toks, sess, h.
      * right. exists toks, sess, h. cbn. by rewrite Hp.
  - split; [|split; [|intros [Heq|Hle]; [discriminate Heq | lia]]].
    + split; [done|]. intros (? & ? & ? & [= <-] & _ & Hres' & _).
      unfold getAnySession in Hres'. rewrite Hres in Hres'. discriminate Hres'.
    + left. cbn. by rewrite Hp.
Qed.

(** ** The capture rung: outcome, blacklisting and clean-up *)

Section capture_more.
Variables (taskID guildID connectCode : string) (gid : Z).
Variables (timeout : time.Duration) (request : discord.UserModify).
Local Abbreviation k := (rediskey.GuildTokenLock guildID connectCode).
Local Abbreviation tasks := (rediskey.TasksList connectCode).
Local Abbreviation topic := (rediskey.CompleteTask taskID).
Local Abbreviation task :=
  (discord.NewModifyTask taskID gid (discord.UserID request)
     {| discord.Deaf := discord.UDeaf request;
        discord.Mute := discord.UMute request |}).

Lemma lock_is_not_tasks : k ≠ tasks.
Proof. unfold rediskey.GuildTokenLock, rediskey.TasksList. cbn. discriminate. Qed.

Lemma RPush_healthy key x c :
  healthy c → list_or_absent c key →
  fst (redis.RPush key x c) = None
  ∧ healthy (snd (redis.RPush key x c))
  ∧ redis.clock (snd (redis.RPush key x c)) = redis.clock c.
Proof.
  intros Hh Hl. unfold redis.RPush. rewrite next_fault_healthy by done.
  rewrite get_record. unfold list_or_absent in Hl.
  by destruct (redis.get c key) as [[[n|s|l] exp]|].
Qed.

Lemma Expire_healthy_ok key ttl c :
  healthy c →
  fst (redis.Expire key ttl c) = None
  ∧ redis.clock (snd (redis.Expire key ttl c)) = redis.clock c.
Proof.
  intros Hh. unfold redis.Expire. rewrite next_fault_healthy by done.
  rewrite get_record.
  destruct (redis.get c key); [|done]. by destruct (0 <? ttl).
Qed.

Lemma Push_healthy c :
  healthy c → list_or_absent c tasks →
  fst (PushCaptureClientTask connectCode task timeout c) = None
  ∧ healthy (snd (PushCaptureClientTask connectCode task timeout c))
  ∧ redis.clock (snd (PushCaptureClientTask connectCode task timeout c))
    = redis.clock c.
Proof.
  intros Hh Hl. unfold PushCaptureClientTask.
  destruct (RPush_healthy tasks (TaskItem task) c Hh Hl) as (He & Hh1 & Hc1).
  destruct (redis.RPush tasks (TaskItem task) c) as [err c1].
  cbn [fst snd] in *. subst err.
  destruct (0 <? timeout); [|done].
  destruct (Expire_healthy_ok tasks timeout c1 Hh1) as (He2 & Hc2).
  split; [done|]. split; [by apply Expire_healthy | by rewrite Hc2].
Qed.

(** The state in which the task is pushed, and what holds of it on a
    healthy store. *)
Lemma before_push (g : GalactusAPI) :
  healthy (client g) → list_or_absent (client g) tasks →
  let g1 := snd (IncrAndTestGuildTokenComboLock guildID connectCode g) in
  let c1 := redis.record (redis.SUBSCRIBE topic) (client g1) in
  healthy c1 ∧ list_or_absent c1 tasks
  ∧ redis.clock c1 = redis.clock (client g)
  ∧ maxRequests5Seconds g1 = maxRequests5Seconds g.
Proof.
  intros Hh Hl. cbv zeta.
  destruct (IncrAndTest_unfold guildID connectCode g) as (_ & Hc & _ & HR & _).
  split; [by apply (IncrAndTest_healthy guildID connectCode g)|].
  split; [|split; [|done]].
  - unfold list_or_absent. rewrite get_record.
    rewrite IncrAndTest_get_other; [done | apply lock_is_not_tasks].
  - cbn [redis.clock redis.record]. rewrite Hc.
    assert (Hi : redis.clock (snd (redis.Incr k (client g)))
                 = redis.clock (client g)).
    { unfold redis.Incr. rewrite next_fault_healthy by done.
      rewrite get_record.
      destruct (redis.get (client g) k) as [[[n|s|l] exp]|]; try done.
      by destruct (n =? redis.int64_max). }
    destruct (_ <? _); [|done].
    destruct (Expire_healthy_ok k (time.Second * 5)
                (snd (redis.Incr k (client g)))) as [_ Hc2];
      [by apply Incr_healthy|].
    by rewrite Hc2.
Qed.

Lemma Push_commands c :
  ∃ rest,
    redis.history (snd (PushCaptureClientTask connectCode task timeout c))
    = redis.history c ++ redis.RPUSH tasks (TaskItem task) :: rest
    ∧ (rest = [] ∨ rest = [redis.EXPIRE tasks timeout]).
Proof.
  unfold PushCaptureClientTask.
  pose proof (RPush_history tasks (TaskItem task) c) as Hp.
  destruct (redis.RPush _ _ c) as [[e|] c1]; cbn [snd] in *.
  - exists []. split; [by rewrite Hp | by left].
  - destruct (0 <? timeout).
    + exists [redis.EXPIRE tasks timeout]. split; [|by right].
      rewrite Expire_history, Hp. by rewrite <- app_assoc.
    + exists []. cbn [snd]. split; [by rewrite Hp | by left].
Qed.

(** The wait for the ack, read off the inputs of the runtime: it ends with
    the ack exactly when the first message of the subscription has the
    payload ["true"] and is there before the timer fires, or at the same
    instant when the [select] takes it. *)
Lemma acked_select (waitTime : time.Duration) (rt : Runtime) :
  acked (select waitTime rt) = true
  ↔ ∃ after, delivery rt = Some (after, "true")
             ∧ (Z.max 0 after < Z.max 0 waitTime
                ∨ (Z.max 0 after = Z.max 0 waitTime ∧ timerFirst rt = false)).
Proof.
  unfold select, acked. destruct (delivery rt) as [[after payload]|].
  2: { split; [done | by intros (? & ? & _)]. }
  cbv zeta.
  destruct (Z.ltb_spec (Z.max 0 after) (Z.max 0 waitTime)) as [Hlt|Hge].
  - rewrite String.eqb_eq. split.
    + intros ->. exists after. split; [done | by left].
    + intros (a & Heq & _). by injection Heq as _ <-.
  - destruct (Z.ltb_spec (Z.max 0 waitTime) (Z.max 0 after)) as [Hgt|Hle].
    + split; [done|]. intros (a & Heq & Hor). injection Heq as <- _. lia.
    + destruct (timerFirst rt) eqn:Ht.
      * split; [done|]. intros (a & Heq & Hor). injection Heq as <- _.
        destruct Hor as [|[_ ?]]; [lia | done].
      * rewrite String.eqb_eq. split.
        -- intros ->. exists after. split; [done|]. right. split; [lia | done].
        -- intros (a & Heq & _). by injection Heq as _ <-.
Qed.

(** Messages published before the subscription was in place are not
    handed out. *)
Lemma lost_before_registered (rt : Runtime) :
  Forall (λ m, fst m < registered rt) (published rt) → delivery rt = None.
Proof.
  unfold delivery. intros Hall.
  induction Hall as [|m l Hm _ IH]; [done|].
  rewrite filter_cons. destruct (decide (registered rt ≤ m.1)); [lia | done].
Qed.

Lemma waited_bounds (waitTime : time.Duration) (rt : Runtime) :
  0 ≤ waited waitTime rt ≤ Z.max 0 waitTime.
Proof.
  unfold waited, select. destruct (delivery rt) as [[after payload]|]; [|lia].
  cbv zeta.
  destruct (Z.ltb_spec (Z.max 0 after) (Z.max 0 waitTime)); [lia|].
  destruct (Z.ltb_spec (Z.max 0 waitTime) (Z.max 0 after)); [lia|].
  destruct (timerFirst rt); lia.
Qed.

Lemma Set_frame key v ttl c :
  redis.clock (snd (redis.Set_ key v ttl c)) = redis.clock c
  ∧ ∀ key', key ≠ key' →
      redis.db (snd (redis.Set_ key v ttl c)) !! key' = redis.db c !! key'.
Proof.
  unfold redis.Set_, redis.next_fault. destruct c as [d t fs h l]; cbn.
  destruct fs as [|[f|] fs]; cbn; (split; [done|]); intros key' Hne;
    try done; by rewrite lookup_insert_ne.
Qed.

Lemma Push_items c :
  healthy c → list_or_absent c tasks →
  ∃ exp,
    redis.db (snd (PushCaptureClientTask connectCode task timeout c)) !! tasks
    = Some (redis.Entry (redis.RList (items c tasks ++ [TaskItem task])) exp).
Proof.
  intros Hh Hl. unfold PushCaptureClientTask, redis.RPush.
  rewrite next_fault_healthy by done. rewrite get_record.
  unfold list_or_absent in Hl. unfold items.
  assert (Hput : ∀ (e : redis.entry) (c' : redis.Client),
            healthy c' → redis.live (redis.clock c') e = true →
            ∃ exp,
              redis.db
                (snd (if 0 <? timeout
                      then redis.Expire tasks timeout
                             (redis.with_db (<[tasks := e]> (redis.db c')) c')
                      else (None,
                            redis.with_db (<[tasks := e]> (redis.db c')) c')))
              !! tasks
              = Some (redis.Entry (redis.val e) exp)).
  { intros e c' Hh' Hlive. destruct (0 <? timeout) eqn:Ht.
    - unfold redis.Expire. rewrite next_fault_healthy by done.
      rewrite get_record, get_insert_eq by done. rewrite Ht.
      cbn. rewrite lookup_insert_eq. by eexists.
    - cbn. rewrite lookup_insert_eq. destruct e. by eexists. }
  destruct (redis.get c tasks) as [[[n|s|l] exp]|] eqn:Hget; try done;
    cbn [fst snd].
  - apply (Hput (redis.Entry (redis.RList (l ++ [TaskItem task])) exp)
             (redis.record (redis.RPUSH tasks (TaskItem task)) c)); [done|].
    unfold redis.get in Hget.
    destruct (redis.db c !! tasks) as [e0|]; [|done].
    destruct (redis.live (redis.clock c) e0) eqn:Hlive; [|done].
    injection Hget as ->. exact Hlive.
  - apply (Hput (redis.Entry (redis.RList [TaskItem task]) None)
             (redis.record (redis.RPUSH tasks (TaskItem task)) c)); done.
Qed.

(** The store after an admitted run of the rung, from the store [c2] the
    push left: the wait, the blacklisting when there was no ack, and the
    one close that reaches the subscription. *)
Lemma rung_admitted (rt : Runtime) (g : GalactusAPI) :
  fst (IncrAndTestGuildTokenComboLock guildID connectCode g) = true →
  let g1 := snd (IncrAndTestGuildTokenComboLock guildID connectCode g) in
  let c1 := redis.record (redis.SUBSCRIBE topic) (client g1) in
  let p := PushCaptureClientTask connectCode task timeout c1 in
  let cw := redis.sleep (waited timeout rt) (snd p) in
  let R := maxRequests5Seconds g in
  let r := attemptOnCaptureBot taskID rt guildID connectCode gid timeout
             request g in
  fst r = match fst p with
          | None => acked (select timeout rt)
          | Some _ => false
          end
  ∧ client (snd r)
    = match fst p with
      | Some _ => redis.record (redis.PUBSUB_CLOSE topic) (snd p)
      | None =>
          if acked (select timeout rt)
          then redis.record (redis.PUBSUB_CLOSE topic) cw
          else if closeFirst rt
               then snd (redis.Set_ k R UnresponsiveCaptureBlacklistDuration
                           (redis.record (redis.PUBSUB_CLOSE topic) cw))
               else redis.record (redis.PUBSUB_CLOSE topic)
                      (snd (redis.Set_ k R UnresponsiveCaptureBlacklistDuration cw))
      end
  ∧ maxRequests5Seconds (snd r) = R.
Proof.
  intros Hok. cbv zeta.
  destruct (IncrAndTest_unfold guildID connectCode g) as (_ & _ & _ & HR & _).
  cbv zeta in HR.
  unfold attemptOnCaptureBot. rewrite bind_eq, Hok.
  set (g1 := snd (IncrAndTestGuildTokenComboLock guildID connectCode g)) in *.
  clearbody g1.
  rewrite bind_eq, store_eq.
  cbn [redis.Subscribe discord.TaskID discord.NewModifyTask fst snd].
  rewrite bind_eq, store_eq. cbn [client with_client fst snd].
  set (c1 := redis.record (redis.SUBSCRIBE topic) (client g1)).
  clearbody c1.
  destruct (PushCaptureClientTask connectCode task timeout c1) as [[e|] c2];
    cbn [fst snd].
  { rewrite !bind_eq. cbn. by rewrite HR. }
  unfold waitForAck, waited, acked.
  destruct (select timeout rt) as [|after payload];
    [|destruct (String.eqb payload "true")];
    destruct (closeFirst rt);
    unfold pubsub_Close, BlacklistTokenForDuration, log_Println;
    unfold bind, store, ret, write_log, redis.PubSub_Close, with_client;
    cbn [fst snd client maxRequests5Seconds activeSessions logger platform
         redis.closed redis.topic];
    rewrite ?HR;
    repeat match goal with
    | |- context [redis.Set_ ?a ?b ?c ?d] =>
        destruct (redis.Set_ a b c d) as [[?|] ?] eqn:?
    end;
    cbn [fst snd client maxRequests5Seconds activeSessions logger platform
         redis.closed redis.topic];
    try done.
Qed.


(** C5, as the code has it.  In the capture rung the subscription to the
    completion topic of the task is issued just before the push of the
    task, and neither is issued again; without admission neither is
    issued.  This is the order of the two calls, not more: [Subscribe]
    does not wait for the server, and a message published before the
    server has the subscription in place is lost.  On a store whose
    commands succeed the task is then at the end of the list of the
    connect code, the rung waits until the subscription delivers its first
    message or, at the latest, until the timer of [timeout] fires, and it
    answers true exactly when that first message has the payload ["true"]
    and is there before the timer fires, or at the same instant when the
    [select] takes it; the timer, or any other payload of the first
    message, gives false, and so do acks that were all published before the
    subscription was in place. *)
Theorem subscribe_precedes_push (rt : Runtime) (g : GalactusAPI) :
  let r := attemptOnCaptureBot taskID rt guildID connectCode gid timeout
             request g in
  let admitted := fst (IncrAndTestGuildTokenComboLock guildID connectCode g) in
  (∃ rest,
     redis.history (client (snd r))
     = redis.history (client g)
       ++ (if admitted
           then [redis.INCR k; redis.EXPIRE k (time.Second * 5);
                 redis.SUBSCRIBE topic; redis.RPUSH tasks (TaskItem task)]
                ++ rest
           else [redis.INCR k])
     ∧ Forall (λ cmd, is_push cmd = false ∧ cmd ≠ redis.SUBSCRIBE topic) rest)
  ∧ (healthy (client g) → list_or_absent (client g) tasks → admitted = true →
     (∃ exp, redis.db (client (snd r)) !! tasks
             = Some (redis.Entry
                       (redis.RList (items (client g) tasks ++ [TaskItem task]))
                       exp))
     ∧ redis.clock (client (snd r))
       = redis.clock (client g) + waited timeout rt
     ∧ 0 ≤ waited timeout rt ≤ Z.max 0 timeout
     ∧ (fst r = true
        ↔ ∃ after, delivery rt = Some (after, "true")
                   ∧ (Z.max 0 after < Z.max 0 timeout
                      ∨ (Z.max 0 after = Z.max 0 timeout
                         ∧ timerFirst rt = false)))
     ∧ (select timeout rt = TimerFired →
        fst r = false ∧ waited timeout rt = Z.max 0 timeout)
     ∧ (∀ after payload, select timeout rt = Received after payload →
                         payload ≠ "true" → fst r = false)
     ∧ (Forall (λ m, fst m < registered rt) (published rt) → fst r = false)).
Proof.
  cbv zeta. split.
  - pose proof (IncrAndTest_history guildID connectCode g) as Hh.
    cbv zeta in Hh.
    destruct (fst (IncrAndTestGuildTokenComboLock guildID connectCode g))
      eqn:Hok.
    + destruct (rung_admitted rt g Hok) as (_ & Hc & _). cbv zeta in Hc.
      rewrite Hc. clear Hc.
      set (g1 := snd (IncrAndTestGuildTokenComboLock guildID connectCode g)) in *.
      remember (redis.record (redis.SUBSCRIBE topic) (client g1)) as c1 eqn:Ec1.
      assert (Hc1 : redis.history c1
                    = redis.history (client g)
                      ++ [redis.INCR k; redis.EXPIRE k (time.Second * 5);
                          redis.SUBSCRIBE topic]).
      { subst c1. cbn. rewrite Hh. by rewrite <- app_assoc. }
      clear Ec1 Hh.
      destruct (Push_commands c1) as (rest1 & Hp & Hn1).
      rewrite Hc1 in Hp.
      assert (Hrest1 : Forall (λ cmd, is_push cmd = false
                                      ∧ cmd ≠ redis.SUBSCRIBE topic) rest1).
      { destruct Hn1 as [-> | ->]; repeat constructor; done. }
      set (p := PushCaptureClientTask connectCode task timeout c1) in *.
      clearbody p.
      destruct (fst p) as [e|].
      * exists (rest1 ++ [redis.PUBSUB_CLOSE topic]). split.
        -- cbn. rewrite Hp, <- !app_assoc. done.
        -- apply Forall_app. split; [done|]. repeat constructor; done.
      * destruct (acked (select timeout rt)); [|destruct (closeFirst rt)].
        -- exists (rest1 ++ [redis.PUBSUB_CLOSE topic]). split.
           ++ cbn. rewrite Hp, <- !app_assoc. done.
           ++ apply Forall_app. split; [done|]. repeat constructor; done.
        -- exists (rest1 ++ [redis.PUBSUB_CLOSE topic;
                             redis.SET k (maxRequests5Seconds g)
                               UnresponsiveCaptureBlacklistDuration]).
           split.
           ++ rewrite Set_history. cbn. rewrite Hp, <- !app_assoc. done.
           ++ apply Forall_app. split; [done|]. repeat constructor; done.
        -- exists (rest1 ++ [redis.SET k (maxRequests5Seconds g)
                               UnresponsiveCaptureBlacklistDuration;
                             redis.PUBSUB_CLOSE topic]).
           split.
           ++ cbn. rewrite Set_history. cbn. rewrite Hp, <- !app_assoc. done.
           ++ apply Forall_app. split; [done|]. repeat constructor; done.
    + exists []. split; [|done].
      unfold attemptOnCaptureBot. rewrite bind_eq, Hok.
      unfold bind, log_Println, write_log, ret. cbn. exact Hh.
  - intros Hh Hl Hok.
    destruct (rung_admitted rt g Hok) as (Hr & Hc & _). cbv zeta in Hr, Hc.
    destruct (before_push g Hh Hl) as (Hh1 & Hl1 & Hclock1 & _).
    cbv zeta in Hh1, Hl1, Hclock1.
    assert (Hitems : items (redis.record (redis.SUBSCRIBE topic)
                              (client (snd (IncrAndTestGuildTokenComboLock
                                              guildID connectCode g)))) tasks
                     = items (client g) tasks).
    { unfold items. rewrite get_record.
      rewrite IncrAndTest_get_other; [done | apply lock_is_not_tasks]. }
    set (c1 := redis.record (redis.SUBSCRIBE topic)
                 (client (snd (IncrAndTestGuildTokenComboLock
                                 guildID connectCode g)))) in *.
    clearbody c1.
    destruct (Push_healthy c1 Hh1 Hl1) as (He & _ & Hclock2).
    destruct (Push_items c1 Hh1 Hl1) as (exp & Hdb).
    rewrite Hitems in Hdb.
    set (p := PushCaptureClientTask connectCode task timeout c1) in *.
    clearbody p. rewrite He in Hr, Hc.
    assert (Hfinal : redis.db (client (snd (attemptOnCaptureBot taskID rt guildID
                                 connectCode gid timeout request g))) !! tasks
                     = redis.db (snd p) !! tasks
                     ∧ redis.clock (client (snd (attemptOnCaptureBot taskID rt
                                 guildID connectCode gid timeout request g)))
                       = redis.clock (snd p) + waited timeout rt).
    { rewrite Hc.
      destruct (acked (select timeout rt)); [done|].
      destruct (closeFirst rt).
      - destruct (Set_frame k (maxRequests5Seconds g)
                    UnresponsiveCaptureBlacklistDuration
                    (redis.record (redis.PUBSUB_CLOSE topic)
                       (redis.sleep (waited timeout rt) (snd p))))
          as [Hck Hfr].
        rewrite Hck, (Hfr tasks lock_is_not_tasks). done.
      - destruct (Set_frame k (maxRequests5Seconds g)
                    UnresponsiveCaptureBlacklistDuration
                    (redis.sleep (waited timeout rt) (snd p)))
          as [Hck Hfr].
        cbn [redis.record redis.db redis.clock].
        rewrite Hck, (Hfr tasks lock_is_not_tasks). done. }
    destruct Hfinal as [Hfdb Hfck].
    split; [exists exp; by rewrite Hfdb|].
    split; [by rewrite Hfck, Hclock2, Hclock1|].
    split; [apply waited_bounds|].
    split; [rewrite Hr; apply acked_select|].
    split; [|split].
    + intros Hsel. rewrite Hr. unfold waited. by rewrite Hsel.
    + intros after payload Hsel Hne. rewrite Hr, Hsel. cbn.
      by apply String.eqb_neq.
    + intros Hlost. rewrite Hr. unfold select. by rewrite lost_before_registered.
Qed.

(** On a healthy store the capture rung answers true exactly when the
    admission check granted and the wait ended with the ack. *)
Theorem capture_rung_outcome (rt : Runtime) (g : GalactusAPI) :
  healthy (client g) → list_or_absent (client g) tasks →
  fst (attemptOnCaptureBot taskID rt guildID connectCode gid timeout request g)
  = fst (IncrAndTestGuildTokenComboLock guildID connectCode g)
    && acked (select timeout rt).
Proof.
  intros Hh Hl.
  destruct (fst (IncrAndTestGuildTokenComboLock guildID connectCode g)) eqn:Hok.
  - destruct (rung_admitted rt g Hok) as (Hr & _). cbv zeta in Hr.
    destruct (before_push g Hh Hl) as (Hh1 & Hl1 & _).
    destruct (Push_healthy _ Hh1 Hl1) as (He & _).
    rewrite Hr, He. done.
  - unfold attemptOnCaptureBot. rewrite bind_eq, Hok. done.
Qed.

(** When the rung was admitted and the wait ends without the ack, by the
    timer or by another payload, the connect code is blacklisted: on a
    healthy store every admission check on it during the next five minutes
    is denied. *)
Theorem unacknowledged_capture_is_blacklisted (rt : Runtime)
    (g : GalactusAPI) (delays : list time.Duration) :
  healthy (client g) → list_or_absent (client g) tasks →
  fst (IncrAndTestGuildTokenComboLock guildID connectCode g) = true →
  acked (select timeout rt) = false →
  Forall (λ d, 0 ≤ d) delays →
  foldr Z.add 0 delays < UnresponsiveCaptureBlacklistDuration →
  maxRequests5Seconds g + Z.of_nat (length delays) ≤ redis.int64_max →
  let g' := snd (attemptOnCaptureBot taskID rt guildID connectCode gid timeout
                   request g) in
  fst (admit_each guildID connectCode delays g') = repeat false (length delays)
  ∧ expiry (client g') k
    = Some (redis.clock (client g') + UnresponsiveCaptureBlacklistDuration).
Proof.
  intros Hh Hl Hok Hack Hpos Hlt Hn. cbv zeta.
  assert (Hsum : 0 ≤ foldr Z.add 0 delays).
  { clear -Hpos. induction Hpos; cbn; lia. }
  assert (Hv : ∃ t,
    view (snd (attemptOnCaptureBot taskID rt guildID connectCode gid timeout
                 request g)) k
    = (Some (redis.Entry (redis.RInt (maxRequests5Seconds g))
               (Some (t + UnresponsiveCaptureBlacklistDuration))),
       t, [], maxRequests5Seconds g)).
  { destruct (rung_admitted rt g Hok) as (_ & Hc & HR). cbv zeta in Hc, HR.
    destruct (before_push g Hh Hl) as (Hh1 & Hl1 & _).
    destruct (Push_healthy _ Hh1 Hl1) as (He & Hh2 & _).
    rewrite He, Hack in Hc.
    set (p := PushCaptureClientTask connectCode task timeout _) in *.
    clearbody p.
    assert (Hset : ∀ c, healthy c →
              redis.db (snd (redis.Set_ k (maxRequests5Seconds g)
                               UnresponsiveCaptureBlacklistDuration c)) !! k
              = Some (redis.Entry (redis.RInt (maxRequests5Seconds g))
                        (Some (redis.clock c
                               + UnresponsiveCaptureBlacklistDuration)))
              ∧ redis.clock (snd (redis.Set_ k (maxRequests5Seconds g)
                                    UnresponsiveCaptureBlacklistDuration c))
                = redis.clock c
              ∧ redis.faults (snd (redis.Set_ k (maxRequests5Seconds g)
                                     UnresponsiveCaptureBlacklistDuration c))
                = []).
    { intros c Hc'. unfold redis.Set_. rewrite next_fault_healthy by done.
      cbn. rewrite lookup_insert_eq. done. }
    exists (redis.clock (snd p) + waited timeout rt).
    unfold view. rewrite HR, Hc.
    destruct (closeFirst rt).
    - destruct (Hset (redis.record (redis.PUBSUB_CLOSE topic)
                        (redis.sleep (waited timeout rt) (snd p))))
        as (H1 & H2 & H3); [exact Hh2|].
      rewrite H1, H2, H3. done.
    - destruct (Hset (redis.sleep (waited timeout rt) (snd p)))
        as (H1 & H2 & H3); [exact Hh2|].
      cbn [redis.record redis.db redis.clock redis.faults].
      rewrite H1, H2, H3. done. }
  destruct Hv as [t Hv].
  set (g' := snd (attemptOnCaptureBot taskID rt guildID connectCode gid timeout
                    request g)) in *.
  destruct (denied_run guildID connectCode delays g' _ _ _ _ Hv) as [Hr _];
    [lia | lia | done | lia |].
  split; [done|].
  assert (Ht : redis.clock (client g') = t).
  { unfold view in Hv. by injection Hv as _ -> _ _. }
  rewrite Ht.
  eapply expiry_of_view; [exact Hv|].
  assert (0 < UnresponsiveCaptureBlacklistDuration) by reflexivity. lia.
Qed.

(** Once admitted, the subscription the rung opened is closed exactly
    once, whatever the store, the capture client and the scheduler do.
    The close comes from the [pubsub.Close()] deferred in [waitForAck]
    when that runs before the rung goes on, and is then followed by the
    blacklisting, if there is one; otherwise it comes from the one deferred
    in the rung and is the last thing sent.  When the push of the task
    fails there is no wait: the rung answers false, sends no blacklisting,
    and its close is the last thing sent. *)
Theorem capture_rung_closes_subscription (rt : Runtime) (g : GalactusAPI) :
  fst (IncrAndTestGuildTokenComboLock guildID connectCode g) = true →
  let r := attemptOnCaptureBot taskID rt guildID connectCode gid timeout
             request g in
  let c1 := redis.record (redis.SUBSCRIBE topic)
              (client (snd (IncrAndTestGuildTokenComboLock guildID connectCode g))) in
  let pushed := fst (PushCaptureClientTask connectCode task timeout c1) in
  ∃ push blacklist,
    redis.history (client (snd r))
    = redis.history (client g)
      ++ [redis.INCR k; redis.EXPIRE k (time.Second * 5); redis.SUBSCRIBE topic]
      ++ push
      ++ (if bool_decide (pushed = None) && closeFirst rt
          then redis.PUBSUB_CLOSE topic :: blacklist
          else blacklist ++ [redis.PUBSUB_CLOSE topic])
    ∧ Forall (λ cmd, cmd ≠ redis.PUBSUB_CLOSE topic) (push ++ blacklist)
    ∧ Forall (λ cmd, ∀ key v d, cmd ≠ redis.SET key v d) push
    ∧ (blacklist = []
       ∨ blacklist = [redis.SET k (maxRequests5Seconds g)
                        UnresponsiveCaptureBlacklistDuration])
    ∧ (fst r = true → blacklist = [])
    ∧ (pushed ≠ None → fst r = false ∧ blacklist = []).
Proof.
  intros Hok. cbv zeta.
  pose proof (IncrAndTest_history guildID connectCode g) as Hh.
  cbv zeta in Hh. rewrite Hok in Hh.
  destruct (rung_admitted rt g Hok) as (Hr & Hc & _). cbv zeta in Hr, Hc.
  rewrite Hr, Hc. clear Hr Hc.
  set (g1 := snd (IncrAndTestGuildTokenComboLock guildID connectCode g)) in *.
  remember (redis.record (redis.SUBSCRIBE topic) (client g1)) as c1 eqn:Ec1.
  assert (Hc1 : redis.history c1
                = redis.history (client g)
                  ++ [redis.INCR k; redis.EXPIRE k (time.Second * 5);
                      redis.SUBSCRIBE topic]).
  { subst c1. cbn. rewrite Hh. by rewrite <- app_assoc. }
  clear Ec1 Hh.
  destruct (Push_commands c1) as (rest1 & Hp & Hn1).
  rewrite Hc1 in Hp.
  assert (Hpush : Forall (λ cmd, cmd ≠ redis.PUBSUB_CLOSE topic)
                    (redis.RPUSH tasks (TaskItem task) :: rest1)
                  ∧ Forall (λ cmd, ∀ key v d, cmd ≠ redis.SET key v d)
                      (redis.RPUSH tasks (TaskItem task) :: rest1)).
  { destruct Hn1 as [-> | ->]; split; repeat constructor; done. }
  destruct Hpush as [Hnc Hns].
  set (p := PushCaptureClientTask connectCode task timeout c1) in *.
  clearbody p.
  exists (redis.RPUSH tasks (TaskItem task) :: rest1).
  destruct (fst p) as [e|].
  - exists []. cbn [bool_decide andb]. rewrite bool_decide_false by done.
    cbn [andb app]. rewrite app_nil_r.
    split; [cbn; rewrite Hp, <- !app_assoc; done|].
    split; [done|]. split; [done|]. split; [by left|]. split; done.
  - rewrite bool_decide_true by done. cbn [andb].
    destruct (acked (select timeout rt)); [|destruct (closeFirst rt)].
    + exists []. rewrite app_nil_r.
      split; [destruct (closeFirst rt); cbn; rewrite Hp, <- !app_assoc; done|].
      split; [done|]. split; [done|]. split; [by left|]. split; done.
    + exists [redis.SET k (maxRequests5Seconds g)
                UnresponsiveCaptureBlacklistDuration].
      split; [rewrite Set_history; cbn; rewrite Hp, <- !app_assoc; done|].
      split; [apply Forall_app; split; [done | repeat constructor; done]|].
      split; [done|]. split; [by right|]. split; done.
    + exists [redis.SET k (maxRequests5Seconds g)
                UnresponsiveCaptureBlacklistDuration].
      split; [cbn; rewrite Set_history; cbn; rewrite Hp, <- !app_assoc; done|].
      split; [apply Forall_app; split; [done | repeat constructor; done]|].
      split; [done|]. split; [by right|]. split; done.
Qed.

End capture_more.

(** An admitted attempt on an empty store, acknowledged after one second
    of a wait of at most two. *)
Lemma subscribe_precedes_push_witness :
  let request := {| discord.UserID := 7; discord.UMute := true;
                    discord.UDeaf := false |} in
  let rt := {| published := [(time.Second, "true")]; registered := 0;
               timerFirst := true; closeFirst := true |} in
  let g := fresh_instance 3 in
  let r := attemptOnCaptureBot "t1" rt "g" "X" 1 (time.Second * 2) request g in
  let task := discord.NewModifyTask "t1" 1 7
                {| discord.Deaf := false; discord.Mute := true |} in
  fst r = true
  ∧ redis.clock (client (snd r)) = redis.clock (client g) + time.Second
  ∧ ∃ exp, redis.db (client (snd r)) !! rediskey.TasksList "X"
           = Some (redis.Entry (redis.RList [TaskItem task]) exp).
Proof.
  destruct (proj2 (subscribe_precedes_push "t1" "g" "X" 1 (time.Second * 2)
                     {| discord.UserID := 7; discord.UMute := true;
                        discord.UDeaf := false |}
                     {| published := [(time.Second, "true")]; registered := 0;
                        timerFirst := true; closeFirst := true |}
                     (fresh_instance 3)) eq_refl I eq_refl)
    as (Hdb & Hck & _ & Hres & _).
  split; [|split; [exact Hck | exact Hdb]].
  apply Hres. exists time.Second. split; [reflexivity|]. left. reflexivity.
Defined.

(** C5 as the specification words it fails.  The subscription is issued
    before the push, but the server has it in place only one second after
    the push: the ack published half a second after the push is lost, the
    rung waits for its two seconds and answers false.  And when two
    messages are there at the start of the wait, the first with another
    payload and the second the ack, the first one decides. *)
Lemma ack_before_registration_is_lost_counterexample :
  let request := {| discord.UserID := 7; discord.UMute := true;
                    discord.UDeaf := false |} in
  let task := discord.NewModifyTask "t1" 1 7
                {| discord.Deaf := false; discord.Mute := true |} in
  let g := fresh_instance 3 in
  let late := {| published := [(500 * time.Millisecond, "true")];
                 registered := time.Second;
                 timerFirst := false; closeFirst := false |} in
  let second := {| published := [(0, "false"); (0, "true")];
                   registered := 0;
                   timerFirst := false; closeFirst := false |} in
  let r := attemptOnCaptureBot "t1" late "g" "X" 1 (time.Second * 2) request g in
  let r' := attemptOnCaptureBot "t1" second "g" "X" 1 (time.Second * 2)
              request g in
  take 4 (redis.history (client (snd r)))
  = [redis.INCR (rediskey.GuildTokenLock "g" "X");
     redis.EXPIRE (rediskey.GuildTokenLock "g" "X") (time.Second * 5);
     redis.SUBSCRIBE (rediskey.CompleteTask "t1");
     redis.RPUSH (rediskey.TasksList "X") (TaskItem task)]
  ∧ fst r = false
  ∧ redis.clock (client (snd r)) = redis.clock (client g) + time.Second * 2
  ∧ fst r' = false
  ∧ redis.clock (client (snd r')) = redis.clock (client g).
Proof. vm_compute. repeat split; reflexivity. Qed.

(** An admitted attempt on an empty store whose wait ends by the timer,
    checked again at once, after a minute and after two more. *)
Lemma unacknowledged_capture_is_blacklisted_witness :
  let request := {| discord.UserID := 7; discord.UMute := true;
                    discord.UDeaf := false |} in
  let rt := {| published := []; registered := 0; timerFirst := true;
               closeFirst := false |} in
  let g' := snd (attemptOnCaptureBot "t1" rt "g" "X" 1 (time.Second * 2)
                   request (fresh_instance 3)) in
  fst (admit_each "g" "X" [0; time.Minute; time.Minute * 2] g') = repeat false 3
  ∧ expiry (client g') (rediskey.GuildTokenLock "g" "X")
    = Some (redis.clock (client g') + UnresponsiveCaptureBlacklistDuration).
Proof.
  apply (unacknowledged_capture_is_blacklisted "t1" "g" "X" 1 (time.Second * 2)
           {| discord.UserID := 7; discord.UMute := true; discord.UDeaf := false |}
           {| published := []; registered := 0; timerFirst := true;
              closeFirst := false |}
           (fresh_instance 3) [0; time.Minute; time.Minute * 2]);
    first [ reflexivity | exact I | vm_compute; discriminate
          | repeat constructor; vm_compute; discriminate ].
Defined.

(** An admitted attempt on an empty store that is acknowledged. *)
Lemma capture_rung_outcome_witness :
  let request := {| discord.UserID := 7; discord.UMute := true;
                    discord.UDeaf := false |} in
  let rt := {| published := [(time.Second, "true")]; registered := 0;
               timerFirst := true; closeFirst := false |} in
  fst (attemptOnCaptureBot "t1" rt "g" "X" 1 (time.Second * 2) request
         (fresh_instance 3))
  = fst (IncrAndTestGuildTokenComboLock "g" "X" (fresh_instance 3))
    && acked (select (time.Second * 2) rt).
Proof.
  apply (capture_rung_outcome "t1" "g" "X" 1 (time.Second * 2)
           {| discord.UserID := 7; discord.UMute := true; discord.UDeaf := false |}
           {| published := [(time.Second, "true")]; registered := 0;
              timerFirst := true; closeFirst := false |}
           (fresh_instance 3));
    first [ reflexivity | exact I ].
Defined.

(** An admitted attempt that is not acknowledged, with the close deferred
    in the wait running first. *)
Lemma capture_rung_closes_subscription_witness :
  let request := {| discord.UserID := 7; discord.UMute := true;
                    discord.UDeaf := false |} in
  let rt := {| published := [(time.Second, "false")]; registered := 0;
               timerFirst := true; closeFirst := true |} in
  let g := fresh_instance 3 in
  let r := attemptOnCaptureBot "t1" rt "g" "X" 1 (time.Second * 2) request g in
  let k := rediskey.GuildTokenLock "g" "X" in
  let topic := rediskey.CompleteTask "t1" in
  ∃ push blacklist,
    redis.history (client (snd r))
    = [redis.INCR k; redis.EXPIRE k (time.Second * 5); redis.SUBSCRIBE topic]
      ++ push ++ redis.PUBSUB_CLOSE topic :: blacklist
    ∧ Forall (λ cmd, cmd ≠ redis.PUBSUB_CLOSE topic) (push ++ blacklist)
    ∧ (blacklist = []
       ∨ blacklist = [redis.SET k 3 UnresponsiveCaptureBlacklistDuration]).
Proof.
  destruct (capture_rung_closes_subscription "t1" "g" "X" 1 (time.Second * 2)
              {| discord.UserID := 7; discord.UMute := true;
                 discord.UDeaf := false |}
              {| published := [(time.Second, "false")]; registered := 0;
                 timerFirst := true; closeFirst := true |}
              (fresh_instance 3) eq_refl)
    as (push & blacklist & Hh & Hnc & _ & Hb & _).
  exists push, blacklist. split; [exact Hh|]. split; [exact Hnc | exact Hb].
Defined.

(** ** The HTTP handlers of the job queue *)

(** What the request-job handler answers for the result of its pop: 200
    only for a non-empty payload popped without error, and then the body
    is that payload; 202 only for an error that is, or wraps, [redis.Nil].
    The session map and the platform are not touched. *)
Theorem request_job_status (route msg : string) (err writeErr : option error)
    (g : GalactusAPI) :
  let r := requestJobHandler route (msg, err) writeErr g in
  (StatusCode (fst r) = 200 ↔ err = None ∧ msg ≠ "")
  ∧ (StatusCode (fst r) = 202 ↔ errors_Is err redis_Nil = true)
  ∧ (StatusCode (fst r) = 200 → Body (fst r) = msg)
  ∧ activeSessions (snd r) = activeSessions g
  ∧ platform (snd r) = platform g.
Proof.
  cbv zeta. unfold requestJobHandler.
  destruct (errors_Is err redis_Nil) eqn:Hnil.
  { cbn. repeat split; try done. intros [-> _]. done. }
  destruct err as [e|].
  { cbn. repeat split; try done. by intros [? _]. }
  destruct (String.eqb_spec msg "") as [->|Hmsg].
  { cbn. repeat split; try done. by intros [_ ?]. }
  rewrite bind_eq. destruct writeErr; cbn; repeat split; done.
Qed.

(** The job-count handler treats an absent list as an empty one: when the
    size call fails with [redis.Nil] it answers as for a size of 0 without
    error, whatever number came with the error.  It answers 200 or 500
    only, and on any other error 500 at once, without a log line. *)
Theorem job_count_outcomes (num : Z) (err : option error)
    (json_Marshal : JobsNumber → option string * option error)
    (g : GalactusAPI) :
  let r := jobCount (num, err) json_Marshal g in
  (errors_Is err redis_Nil = true → r = jobCount (0, None) json_Marshal g)
  ∧ (StatusCode (fst r) = 200 ∨ StatusCode (fst r) = 500)
  ∧ (StatusCode (fst r) = 200
     ↔ (err = None ∨ errors_Is err redis_Nil = true)
       ∧ snd (json_Marshal
                {| Jobs := if errors_Is err redis_Nil then 0 else num |}) = None)
  ∧ (err ≠ None → errors_Is err redis_Nil = false →
     StatusCode (fst r) = 500 ∧ snd r = g).
Proof.
  cbv zeta. unfold jobCount.
  destruct (errors_Is err redis_Nil) eqn:Hnil.
  - rewrite orb_true_r. cbn [errors_Is bool_decide orb].
    destruct (json_Marshal {| Jobs := 0 |}) as [byt [e|]] eqn:Hm;
      cbn; (split; [done|]); (split; [auto|]); (split; [|done]).
    + split; [done | by intros [_ ?]].
    + split; [intros _; split; [by right | done] | done].
  - destruct err as [e|].
    + cbn. split; [done|]. split; [auto|]. split; [|done].
      split; [done | by intros [[?|?] _]].
    + cbn. destruct (json_Marshal {| Jobs := num |}) as [byt [e|]] eqn:Hm;
        cbn; (split; [done|]); (split; [auto|]); (split; [|done]).
      * split; [done | by intros [_ ?]].
      * split; [intros _; split; [by left | done] | done].
Qed.

(** ** Reading the tokens: splitting and hashing *)

Lemma SplitComma_nonempty (s : string) : strings_SplitComma s ≠ [].
Proof.
  destruct s as [|c rest]; cbn; [done|].
  destruct (Ascii.eqb c ","); [done|].
  by destruct (strings_SplitComma rest).
Qed.

Lemma JoinComma_push (c : ascii) (p : string) (ps : list string) :
  strings_JoinComma (String c p :: ps) = String c (strings_JoinComma (p :: ps)).
Proof. by destruct ps. Qed.

Lemma SplitComma_join (s : string) :
  strings_JoinComma (strings_SplitComma s) = s.
Proof.
  induction s as [|c rest IH]; [done|]. cbn [strings_SplitComma].
  pose proof (SplitComma_nonempty rest) as Hne.
  destruct (strings_SplitComma rest) as [|p ps] eqn:Hs; [done|].
  destruct (Ascii.eqb_spec c ",") as [->|Hc].
  - change (strings_JoinComma (EmptyString :: p :: ps))
      with (String "," (strings_JoinComma (p :: ps))).
    by rewrite IH.
  - by rewrite JoinComma_push, IH.
Qed.

Lemma SplitComma_no_comma (s : string) :
  Forall (λ t, contains "," t = false) (strings_SplitComma s).
Proof.
  induction s as [|c rest IH]; [by repeat constructor|].
  cbn [strings_SplitComma].
  pose proof (SplitComma_nonempty rest) as Hne.
  destruct (Ascii.eqb_spec c ",") as [->|Hc].
  - by constructor.
  - destruct (strings_SplitComma rest) as [|p ps]; [done|].
    apply Forall_cons in IH as [Hp Hps]. constructor; [|done].
    cbn. rewrite Hp. by destruct (Ascii.eqb_spec c ",").
Qed.

Lemma SplitComma_keeps_absent (x : ascii) (s : string) :
  contains x s = false →
  Forall (λ t, contains x t = false) (strings_SplitComma s).
Proof.
  induction s as [|c rest IH]; [by repeat constructor|].
  cbn [strings_SplitComma contains]. intros [Hc Hrest]%orb_false_elim.
  specialize (IH Hrest).
  pose proof (SplitComma_nonempty rest) as Hne.
  destruct (Ascii.eqb c ","); [by constructor|].
  destruct (strings_SplitComma rest) as [|p ps]; [done|].
  apply Forall_cons in IH as [Hp Hps]. constructor; [|done].
  cbn. by rewrite Hc, Hp.
Qed.

Lemma RemoveSpaces_no_space (s : string) :
  contains " " (strings_RemoveSpaces s) = false.
Proof.
  induction s as [|c rest IH]; [done|]. cbn [strings_RemoveSpaces].
  destruct (Ascii.eqb c " ") eqn:Hc; [done|]. cbn. by rewrite Hc, IH.
Qed.

(** The secrets read from [WORKER_BOT_TOKENS]: joined by commas they give
    back the value with its spaces removed, there is at least one, and
    none of them holds a comma or a space. *)
Theorem env_tokens_partition (env : string) :
  let secrets := strings_SplitComma (strings_RemoveSpaces env) in
  strings_JoinComma secrets = strings_RemoveSpaces env
  ∧ secrets ≠ []
  ∧ Forall (λ t, contains "," t = false ∧ contains " " t = false) secrets.
Proof.
  cbv zeta. split; [apply SplitComma_join|]. split; [apply SplitComma_nonempty|].
  apply Forall_and. split; [apply SplitComma_no_comma|].
  apply SplitComma_keeps_absent, RemoveSpaces_no_space.
Qed.

Lemma hex_pair_decodes (c : ascii) :
  ascii_of_nat
    (16 * hex_value (hex_digit (Nat.div (nat_of_ascii c) 16))
     + hex_value (hex_digit (Nat.modulo (nat_of_ascii c) 16)))%nat
  = c.
Proof. destruct c as [[] [] [] [] [] [] [] []]; vm_compute; reflexivity. Qed.

Lemma hex_digit_in_table (c : ascii) :
  contains (hex_digit (Nat.div (nat_of_ascii c) 16)) hextable = true
  ∧ contains (hex_digit (Nat.modulo (nat_of_ascii c) 16)) hextable = true.
Proof. destruct c as [[] [] [] [] [] [] [] []]; vm_compute; done. Qed.

Lemma hex_pair_inj (x y : ascii) :
  hex_digit (Nat.div (nat_of_ascii x) 16) = hex_digit (Nat.div (nat_of_ascii y) 16) →
  hex_digit (Nat.modulo (nat_of_ascii x) 16)
  = hex_digit (Nat.modulo (nat_of_ascii y) 16) →
  x = y.
Proof.
  intros Hhi Hlo.
  rewrite <- (hex_pair_decodes x), <- (hex_pair_decodes y).
  by rewrite Hhi, Hlo.
Qed.

Lemma hex_EncodeToString_inj (a : string) :
  ∀ b, hex_EncodeToString a = hex_EncodeToString b → a = b.
Proof.
  induction a as [|x a IH]; intros [|y b]; cbn [hex_EncodeToString]; try done.
  intros [= Hhi Hlo Hrest]. f_equal; [|by apply IH].
  apply hex_pair_inj; [exact Hhi | exact Hlo].
Qed.

(** A hashed identity is twice as long as the digest, is written with the
    digits [0-9a-f] only, and two secrets get the same hashed identity only
    when their digests are the same. *)
Theorem hashToken_is_lowercase_hex (P : Platform) (token : string) :
  String.length (hashToken P token) = (2 * String.length (sha256_Sum P token))%nat
  ∧ (∀ c, contains c (hashToken P token) = true → contains c hextable = true)
  ∧ ∀ token', hashToken P token = hashToken P token' →
              sha256_Sum P token = sha256_Sum P token'.
Proof.
  unfold hashToken. split; [|split].
  - induction (sha256_Sum P token) as [|x s IH]; [done|].
    cbn [hex_EncodeToString String.length]. rewrite IH. lia.
  - induction (sha256_Sum P token) as [|x s IH]; intros c; [done|].
    cbn [hex_EncodeToString contains].
    destruct (hex_digit_in_table x) as [Hhi Hlo].
    intros [Hc|[Hc|Hc]%orb_true_elim]%orb_true_elim.
    + apply Ascii.eqb_eq in Hc as <-. exact Hhi.
    + apply Ascii.eqb_eq in Hc as <-. exact Hlo.
    + by apply IH.
  - intros token'. apply hex_EncodeToString_inj.
Qed.

(** ** The guild sets: adding, listing, removing *)

Section guild_sets.
Implicit Types (c : redis.Client) (g : GalactusAPI).

(** A healthy add to a set, or to no key at all. *)
Lemma SAdd_healthy_set key member c :
  healthy c → set_or_absent c key →
  fst (redis.SAdd key member c) = None
  ∧ healthy (snd (redis.SAdd key member c))
  ∧ members (snd (redis.SAdd key member c)) key = {[ member ]} ∪ members c key
  ∧ (∀ k', key ≠ k' →
           redis.get (snd (redis.SAdd key member c)) k' = redis.get c k')
  ∧ redis.history (snd (redis.SAdd key member c))
    = redis.history c ++ [redis.SADD key member].
Proof.
  intros Hh Hs. unfold redis.SAdd. rewrite next_fault_healthy by done.
  rewrite get_record. unfold set_or_absent in Hs. unfold members at 2.
  destruct (redis.get c key) as [[[n|s|l] exp]|] eqn:Hget; try done;
    cbn [fst snd]; (split; [done|]); (split; [exact Hh|]).
  - split; [|split; [|done]].
    + unfold members. rewrite get_insert_eq; [done|].
      unfold redis.get in Hget. cbn.
      destruct (redis.db c !! key) as [e0|]; [|done].
      destruct (redis.live (redis.clock c) e0) eqn:Hl; [|done].
      injection Hget as ->. exact Hl.
    + intros k' Hne. by rewrite get_insert_ne.
  - split; [|split; [|done]].
    + unfold members. rewrite get_insert_eq; [|done].
      by rewrite union_empty_r_L.
    + intros k' Hne. by rewrite get_insert_ne.
Qed.

Lemma SAdd_keeps_sets key member c k' :
  healthy c → set_or_absent c key → set_or_absent c k' →
  set_or_absent (snd (redis.SAdd key member c)) k'
  ∧ members c k' ⊆ members (snd (redis.SAdd key member c)) k'.
Proof.
  intros Hh Hs Hs'.
  destruct (SAdd_healthy_set key member c Hh Hs) as (_ & _ & Hm & Hf & _).
  destruct (decide (key = k')) as [<-|Hne].
  - split; [|rewrite Hm; apply union_subseteq_r].
    unfold set_or_absent. unfold members in Hm.
    destruct (redis.get (snd (redis.SAdd key member c)) key)
      as [[[n|s|l] exp]|]; try done.
    + apply (f_equal (λ s, bool_decide (member ∈ s))) in Hm.
      rewrite bool_decide_eq_false_2 in Hm by apply not_elem_of_empty.
      rewrite bool_decide_eq_true_2 in Hm; [done|].
      apply elem_of_union_l. by apply elem_of_singleton.
    + apply (f_equal (λ s, bool_decide (member ∈ s))) in Hm.
      rewrite bool_decide_eq_false_2 in Hm by apply not_elem_of_empty.
      rewrite bool_decide_eq_true_2 in Hm; [done|].
      apply elem_of_union_l. by apply elem_of_singleton.
  - unfold set_or_absent, members. rewrite (Hf k' Hne). done.
Qed.

Lemma addTokenToGuilds_members botToken hashedToken (guilds : list string) :
  ∀ g,
    healthy (client g) →
    Forall (λ v, set_or_absent (client g) (rediskey.GuildTokensKey v)) guilds →
    let g' := snd (addTokenToGuilds botToken hashedToken guilds g) in
    healthy (client g')
    ∧ activeSessions g' = activeSessions g
    ∧ platform g' = platform g
    ∧ (∀ k', set_or_absent (client g) k' →
             set_or_absent (client g') k'
             ∧ members (client g) k' ⊆ members (client g') k')
    ∧ Forall (λ v, hashedToken ∈ members (client g') (rediskey.GuildTokensKey v))
        guilds.
Proof.
  induction guilds as [|v rest IH]; intros g Hh Hsets; cbv zeta.
  { cbn. repeat split; done. }
  apply Forall_cons in Hsets as [Hv Hrest].
  cbn [addTokenToGuilds]. rewrite bind_eq, store_eq. cbn [fst snd].
  rewrite bind_eq.
  destruct (SAdd_healthy_set (rediskey.GuildTokensKey v) hashedToken (client g) Hh Hv)
    as (He & Hh1 & Hm & Hf & _).
  pose proof (λ k', SAdd_keeps_sets (rediskey.GuildTokensKey v) hashedToken
                      (client g) k' Hh Hv) as Hkeep.
  set (c1 := snd (redis.SAdd (rediskey.GuildTokensKey v) hashedToken (client g))) in *.
  rewrite He.
  match goal with
  | |- context [addTokenToGuilds _ _ rest ?x] => set (g1 := x)
  end.
  assert (Hc1 : client g1 = c1) by reflexivity.
  assert (Ha1 : activeSessions g1 = activeSessions g) by reflexivity.
  assert (Hp1 : platform g1 = platform g) by reflexivity.
  clearbody g1.
  destruct (IH g1) as (Hh2 & Ha2 & Hp2 & Hk2 & Hall).
  { by rewrite Hc1. }
  { rewrite Hc1. eapply Forall_impl; [exact Hrest|]. intros v' Hv'.
    by apply Hkeep. }
  cbv zeta in Hh2, Ha2, Hp2, Hk2, Hall. rewrite Hc1 in Hk2.
  split; [exact Hh2|]. split; [by rewrite Ha2|]. split; [by rewrite Hp2|]. split.
  - intros k' Hk'. destruct (Hkeep k' Hk') as [Hs1 Hsub1].
    destruct (Hk2 k' Hs1) as [Hs2 Hsub2].
    split; [done|]. by transitivity (members c1 k').
  - constructor; [|exact Hall].
    destruct (Hkeep (rediskey.GuildTokensKey v) Hv) as [Hs1 _].
    destruct (Hk2 _ Hs1) as [_ Hsub]. apply Hsub.
    rewrite Hm. apply elem_of_union_l. by apply elem_of_singleton.
Qed.

Lemma getAllTokensForGuild_healthy guildID g :
  healthy (client g) →
  set_or_absent (client g) (rediskey.GuildTokensKey guildID) →
  getAllTokensForGuild guildID g
  = (Some (elements (members (client g) (rediskey.GuildTokensKey guildID))),
     with_client (redis.record (redis.SMEMBERS (rediskey.GuildTokensKey guildID))
                   (client g)) g).
Proof.
  intros Hh Hs. unfold getAllTokensForGuild. rewrite bind_eq, store_eq.
  unfold redis.SMembers. rewrite next_fault_healthy by done.
  rewrite get_record. unfold set_or_absent in Hs. unfold members.
  destruct (redis.get (client g) _) as [[[n|s|l] exp]|]; done.
Qed.

(** On a healthy store the listing of a guild's identities is the set the
    store holds for the guild, each identity once; an absent key lists
    nothing, and is not a nil result.  When the store fails the listing is
    nil, the error is logged and the keyspace is as before. *)
Theorem getAllTokensForGuild_lists_the_set (guildID : string) (g : GalactusAPI) :
  (healthy (client g) →
   set_or_absent (client g) (rediskey.GuildTokensKey guildID) →
   ∃ l, fst (getAllTokensForGuild guildID g) = Some l
        ∧ NoDup l
        ∧ ∀ h, h ∈ l ↔ h ∈ members (client g) (rediskey.GuildTokensKey guildID))
  ∧ (∀ e rest, redis.faults (client g) = Some e :: rest →
       fst (getAllTokensForGuild guildID g) = None
       ∧ redis.db (client (snd (getAllTokensForGuild guildID g)))
         = redis.db (client g)
       ∧ logger (snd (getAllTokensForGuild guildID g))
         = logger g
           ++ [ {| zap.level := zap.ErrorLevel;
                   zap.msg := "error retrieving smembers from Redis";
                   zap.fields := [zap.Error (Some e);
                                  zap.String "guildID" guildID] |} ]).
Proof.
  split.
  - intros Hh Hs. rewrite getAllTokensForGuild_healthy by done.
    eexists. split; [done|]. split; [apply NoDup_elements|].
    intros h. apply elem_of_elements.
  - intros e rest Hf. unfold getAllTokensForGuild. rewrite bind_eq, store_eq.
    unfold redis.SMembers, redis.next_fault. cbn [redis.record redis.faults].
    rewrite Hf. done.
Qed.
End guild_sets.

(** ** Guild-create events *)

Lemma newGuildHandler_range_absent hashedToken guildID (tests : list string) :
  ∀ g : GalactusAPI,
    hashedToken ∉ tests →
    newGuildHandler_range hashedToken guildID tests g = (tt, g).
Proof.
  induction tests as [|test rest IH]; intros g Hin; [done|].
  apply not_elem_of_cons in Hin as [Hne Hrest].
  cbn [newGuildHandler_range]. rewrite bind_eq.
  destruct (String.eqb_spec hashedToken test); [done|].
  cbn [ret fst snd]. by apply IH.
Qed.

Lemma newGuildHandler_range_present hashedToken guildID (tests : list string) :
  ∀ g : GalactusAPI,
    NoDup tests → hashedToken ∈ tests →
    let g' := snd (newGuildHandler_range hashedToken guildID tests g) in
    client g'
    = snd (redis.SAdd (rediskey.GuildTokensKey guildID) hashedToken (client g))
    ∧ activeSessions g' = activeSessions g
    ∧ platform g' = platform g.
Proof.
  induction tests as [|test rest IH]; intros g Hnd Hin; cbv zeta.
  { by apply elem_of_nil in Hin. }
  apply NoDup_cons in Hnd as [Hfresh Hnd].
  cbn [newGuildHandler_range]. rewrite bind_eq.
  destruct (String.eqb_spec hashedToken test) as [<-|Hne].
  - rewrite bind_eq, store_eq. cbn [fst snd].
    rewrite newGuildHandler_range_absent by done. cbn [snd].
    by destruct (fst (redis.SAdd _ hashedToken (client g))).
  - cbn [ret fst snd]. apply IH; [done|].
    apply elem_of_cons in Hin as [?|?]; done.
Qed.

(** A guild-create event seen through the session of an identity adds the
    identity to the guild's set only while the identity has a session in
    the local map, and then by one command; for an identity that is not in
    the map the handler does nothing at all.  On a healthy store the
    identity is in the set afterwards and is listed for the guild. *)
Theorem newGuildHandler_adds_running_identity (hashedToken guildID : string)
    (g : GalactusAPI) :
  let ks := rediskey.GuildTokensKey guildID in
  let g' := snd (newGuildHandler hashedToken guildID g) in
  (activeSessions g !! hashedToken = None → g' = g)
  ∧ (is_Some (activeSessions g !! hashedToken) →
     client g' = snd (redis.SAdd ks hashedToken (client g))
     ∧ activeSessions g' = activeSessions g
     ∧ (healthy (client g) → set_or_absent (client g) ks →
        hashedToken ∈ members (client g') ks
        ∧ ∃ l, fst (getAllTokensForGuild guildID g') = Some l
               ∧ hashedToken ∈ l)).
Proof.
  cbv zeta. unfold newGuildHandler. split.
  - intros Hnone. rewrite newGuildHandler_range_absent; [done|].
    intros [[h s] [Hh Hin]]%list_elem_of_fmap. cbn in Hh. subst h.
    apply elem_of_map_to_list in Hin. by rewrite Hnone in Hin.
  - intros [s Hs].
    destruct (newGuildHandler_range_present hashedToken guildID
                (fst <$> map_to_list (activeSessions g)) g) as (Hc & Ha & _).
    { apply NoDup_fst_map_to_list. }
    { apply list_elem_of_fmap. exists (hashedToken, s).
      split; [done | by apply elem_of_map_to_list]. }
    split; [exact Hc|]. split; [exact Ha|].
    intros Hh Hset.
    destruct (SAdd_healthy_set (rediskey.GuildTokensKey guildID) hashedToken
                (client g) Hh Hset) as (_ & Hh1 & Hm & _).
    destruct (SAdd_keeps_sets (rediskey.GuildTokensKey guildID) hashedToken
                (client g) (rediskey.GuildTokensKey guildID) Hh Hset Hset)
      as [Hset1 _].
    assert (Hin : hashedToken
                  ∈ members (client (snd (newGuildHandler_range hashedToken guildID
                                            (fst <$> map_to_list (activeSessions g)) g)))
                      (rediskey.GuildTokensKey guildID)).
    { rewrite Hc, Hm. apply elem_of_union_l. by apply elem_of_singleton. }
    split; [exact Hin|].
    rewrite getAllTokensForGuild_healthy by (by rewrite Hc).
    eexists. split; [done|]. by apply elem_of_elements.
Qed.

(** ** Stale identities stay out *)

Section stale.
Variable guildID : string.
Local Abbreviation ks := (rediskey.GuildTokensKey guildID).

Lemma SRem_keeps_set key member c :
  healthy c → set_or_absent c key →
  set_or_absent (snd (redis.SRem key member c)) key.
Proof.
  intros Hh Hs. unfold redis.SRem. rewrite next_fault_healthy by done.
  rewrite get_record. unfold set_or_absent in *.
  destruct (redis.get c key) as [[[n|s|l] exp]|] eqn:Hget; try done; cbn [snd].
  - destruct (decide (s ∖ {[member]} = ∅)); cbn [snd].
    + unfold redis.get; cbn. by rewrite lookup_delete_eq.
    + rewrite get_insert_eq; [done|].
      unfold redis.get in Hget. cbn.
      destruct (redis.db c !! key) as [e0|]; [|done].
      destruct (redis.live (redis.clock c) e0) eqn:Hl; [|done].
      injection Hget as ->. exact Hl.
  - by rewrite get_record, Hget.
Qed.

Lemma walk_keeps_out (h : string) (tokens : list string) :
  ∀ (i limit : Z) (g : GalactusAPI),
    healthy (client g) → set_or_absent (client g) ks →
    h ∉ members (client g) ks →
    let g' := snd (getAnySession_from guildID tokens i limit g) in
    healthy (client g') ∧ set_or_absent (client g') ks
    ∧ h ∉ members (client g') ks.
Proof.
  induction tokens as [|hToken rest IH]; intros i limit g Hh Hs Hout; cbv zeta;
    [done|].
  cbn [getAnySession_from]. destruct (i =? limit); [done|].
  rewrite bind_eq.
  pose proof (IncrAndTest_healthy guildID hToken g Hh) as Hh1.
  pose proof (IncrAndTest_get_other guildID hToken ks g) as Hf.
  assert (Hget : redis.get
                   (client (snd (IncrAndTestGuildTokenComboLock guildID hToken g))) ks
                 = redis.get (client g) ks).
  { apply Hf. intros E. symmetry in E. by apply GuildTokensKey_not_lock in E. }
  set (g1 := snd (IncrAndTestGuildTokenComboLock guildID hToken g)) in *.
  assert (Hs1 : set_or_absent (client g1) ks).
  { unfold set_or_absent. by rewrite Hget. }
  assert (Hout1 : h ∉ members (client g1) ks).
  { unfold members. by rewrite Hget. }
  clearbody g1.
  destruct (fst (IncrAndTestGuildTokenComboLock guildID hToken g)).
  - cbv beta. destruct (activeSessions g1 !! hToken); [done|].
    rewrite bind_eq, store_eq. cbn [fst snd].
    apply IH; cbn [client with_client].
    + by apply SRem_healthy.
    + by apply SRem_keeps_set.
    + rewrite SRem_members by done.
      intros [Hin _]%elem_of_difference. by apply Hout1.
  - rewrite bind_eq. cbn [fst snd logger_Info write_log]. by apply IH.
Qed.

(** An identity the walk has found stale, admitted but without a local
    session, is taken out of the guild's set for good: whatever the walk
    does with the identities after it, on a healthy store the identity is
    not listed for the guild when the walk returns. *)
Theorem stale_identity_not_listed_after_walk (hToken : string)
    (rest : list string) (limit : Z) (g : GalactusAPI) :
  healthy (client g) → set_or_absent (client g) ks → limit ≠ 0 →
  fst (IncrAndTestGuildTokenComboLock guildID hToken g) = true →
  activeSessions g !! hToken = None →
  ∃ l, fst (getAllTokensForGuild guildID
              (snd (getAnySession guildID (hToken :: rest) limit g))) = Some l
       ∧ hToken ∉ l.
Proof.
  intros Hh Hs Hlim Hok Hnone. unfold getAnySession.
  rewrite (walk_skips_stale guildID hToken rest 0 limit g) by done.
  pose proof (IncrAndTest_healthy guildID hToken g Hh) as Hh1.
  assert (Hget : redis.get
                   (client (snd (IncrAndTestGuildTokenComboLock guildID hToken g))) ks
                 = redis.get (client g) ks).
  { apply IncrAndTest_get_other. intros E. symmetry in E.
    by apply GuildTokensKey_not_lock in E. }
  set (g1 := snd (IncrAndTestGuildTokenComboLock guildID hToken g)) in *.
  assert (Hs1 : set_or_absent (client g1) ks).
  { unfold set_or_absent. by rewrite Hget. }
  clearbody g1. rewrite store_eq. cbn [snd].
  destruct (walk_keeps_out hToken rest (0 + 1) limit
              (with_client (snd (redis.SRem ks hToken (client g1))) g1))
    as (Hh2 & Hs2 & Hout); cbn [client with_client].
  - by apply SRem_healthy.
  - by apply SRem_keeps_set.
  - rewrite SRem_members by done. intros [_ Hn]%elem_of_difference.
    apply Hn. by apply elem_of_singleton.
  - cbv zeta in Hh2, Hs2, Hout.
    rewrite getAllTokensForGuild_healthy by done.
    eexists. split; [done|]. by rewrite elem_of_elements.
Qed.
End stale.

(** The set of a guild with two identities, listed. *)
Lemma getAllTokensForGuild_lists_the_set_witness :
  let g := guild_instance "g" {[ "h1"; "h2" ]} ∅ 3 in
  ∃ l, fst (getAllTokensForGuild "g" g) = Some l
       ∧ NoDup l
       ∧ ∀ h, h ∈ l ↔ h ∈ members (client g) (rediskey.GuildTokensKey "g").
Proof.
  apply (proj1 (getAllTokensForGuild_lists_the_set "g"
                  (guild_instance "g" {[ "h1"; "h2" ]} ∅ 3))).
  - reflexivity.
  - exact I.
Defined.

(** A guild-create event for an identity with a session, on an empty
    store. *)
Lemma newGuildHandler_adds_running_identity_witness :
  let g := with_sessions {[ "h" := {| Token := "Bot one"; Guilds := [] |} ]}
             (fresh_instance 3) in
  let g' := snd (newGuildHandler "h" "g" g) in
  "h" ∈ members (client g') (rediskey.GuildTokensKey "g")
  ∧ ∃ l, fst (getAllTokensForGuild "g" g') = Some l ∧ "h" ∈ l.
Proof.
  apply (proj2 (newGuildHandler_adds_running_identity "h" "g"
                  (with_sessions {[ "h" := {| Token := "Bot one"; Guilds := [] |} ]}
                     (fresh_instance 3)))).
  - by eexists.
  - reflexivity.
  - exact I.
Defined.

(** Two identities listed, the first one stale. *)
Lemma stale_identity_not_listed_after_walk_witness :
  let g := guild_instance "g" {[ "h1"; "h2" ]}
             {[ "h2" := {| Token := "Bot two"; Guilds := [] |} ]} 3 in
  ∃ l, fst (getAllTokensForGuild "g"
              (snd (getAnySession "g" ["h1"; "h2"] 2 g))) = Some l
       ∧ "h1" ∉ l.
Proof.
  apply (stale_identity_not_listed_after_walk "g" "h1" ["h2"] 2
           (guild_instance "g" {[ "h1"; "h2" ]}
              {[ "h2" := {| Token := "Bot two"; Guilds := [] |} ]} 3));
    first [ reflexivity | exact I | vm_compute; discriminate
          | vm_compute; reflexivity ].
Defined.

(** ** Loading the tokens *)

Section loading.
Variable P : Platform.

Lemma loadToken_running botToken (g : GalactusAPI) :
  is_Some (activeSessions g !! hashToken P botToken) →
  ∃ g', loadToken P botToken g = Some g'
        ∧ client g' = client g
        ∧ activeSessions g' = activeSessions g
        ∧ platform g' = platform g.
Proof.
  intros [s Hs]. unfold loadToken.
  cbn [logger_Info write_log snd activeSessions]. rewrite Hs.
  by eexists.
Qed.

Lemma loadTokens_running (botTokens : list string) :
  ∀ g : GalactusAPI,
    Forall (λ t, is_Some (activeSessions g !! hashToken P t)) botTokens →
    ∃ g', loadTokens P botTokens g = Some g'
          ∧ client g' = client g
          ∧ activeSessions g' = activeSessions g
          ∧ platform g' = platform g.
Proof.
  induction botTokens as [|t rest IH]; intros g Hall; [by eexists|].
  apply Forall_cons in Hall as [Ht Hrest].
  destruct (loadToken_running t g Ht) as (g1 & Hl & Hc & Ha & Hp).
  cbn [loadTokens]. rewrite Hl.
  destruct (IH g1) as (g' & Hl' & Hc' & Ha' & Hp').
  { by rewrite Ha. }
  exists g'. split; [done|]. by rewrite Hc', Ha', Hp'.
Qed.

(** Loading is idle when there is nothing to do: for a value without any
    secret, or whose secrets all have a session in the local map already,
    it returns without a wait, a lock, a platform call or a store command,
    and leaves the map as it is. *)
Theorem loadTokensFromEnv_skips_running (env : string) (g : GalactusAPI) :
  strings_RemoveSpaces env = ""
  ∨ Forall (λ t, is_Some (activeSessions g !! hashToken P t))
      (strings_SplitComma (strings_RemoveSpaces env)) →
  ∃ g', loadTokensFromEnv P env g = Some g'
        ∧ client g' = client g
        ∧ activeSessions g' = activeSessions g
        ∧ platform g' = platform g.
Proof.
  intros Hcase. unfold loadTokensFromEnv.
  destruct (String.eqb_spec (strings_RemoveSpaces env) "") as [He|Hne].
  { by eexists. }
  destruct Hcase as [?|Hall]; [done|]. by apply loadTokens_running.
Qed.

(** When the session of a secret cannot be created or cannot be opened,
    loading goes on without it: the local map and the keyspace are as
    before, and an error line naming the secret is the last thing
    logged. *)
Theorem loadToken_failure_omits (botToken : string) (g : GalactusAPI) :
  let sess := {| Token := "Bot " +:+ botToken;
                 Guilds := State_Guilds P ("Bot " +:+ botToken) |} in
  activeSessions g !! hashToken P botToken = None →
  botToken ∉ redis.tokenLocks (client g) →
  discordgo_New P ("Bot " +:+ botToken) ≠ None ∨ Session_Open P sess ≠ None →
  ∃ g' e msg,
    loadToken P botToken g = Some g'
    ∧ activeSessions g' = activeSessions g
    ∧ redis.db (client g') = redis.db (client g)
    ∧ last (logger g')
      = Some {| zap.level := zap.ErrorLevel; zap.msg := msg;
                zap.fields := [zap.Error (Some e); zap.String "token" botToken] |}.
Proof.
  intros sess Hnone Hfree Hfail. unfold loadToken.
  cbn [logger_Info write_log snd activeSessions client]. rewrite Hnone.
  unfold token_WaitForToken.
  destruct (decide (botToken ∈ redis.tokenLocks (client g))); [done|].
  destruct (discordgo_New P ("Bot " +:+ botToken)) as [e|] eqn:Hnew.
  { eexists _, e, _. split; [done|]. split; [done|]. split; [done|].
    cbn. by rewrite last_snoc. }
  destruct Hfail as [?|Hopen]; [done|]. fold sess.
  destruct (Session_Open P sess) as [e|]; [|done].
  eexists _, e, _. split; [done|]. split; [done|]. split; [done|].
  cbn. by rewrite last_snoc.
Qed.

(** When the session of a new secret is created and opened, on a healthy
    store, the session is in the local map under the hashed identity and
    the hashed identity is in the set of every guild the session reports;
    the platform saw one creation and one open. *)
Theorem loadToken_registers (botToken : string) (g : GalactusAPI) :
  let sess := {| Token := "Bot " +:+ botToken;
                 Guilds := State_Guilds P ("Bot " +:+ botToken) |} in
  healthy (client g) →
  activeSessions g !! hashToken P botToken = None →
  botToken ∉ redis.tokenLocks (client g) →
  discordgo_New P ("Bot " +:+ botToken) = None →
  Session_Open P sess = None →
  Forall (λ v, set_or_absent (client g) (rediskey.GuildTokensKey v))
    (Guilds sess) →
  ∃ g',
    loadToken P botToken g = Some g'
    ∧ activeSessions g' = <[hashToken P botToken := sess]> (activeSessions g)
    ∧ Forall (λ v, hashToken P botToken
                   ∈ members (client g') (rediskey.GuildTokensKey v))
        (Guilds sess)
    ∧ platform g' = platform g ++ [CallNew ("Bot " +:+ botToken); CallOpen sess].
Proof.
  intros sess Hh Hnone Hfree Hnew Hopen Hsets. unfold loadToken.
  cbn [logger_Info write_log snd activeSessions client]. rewrite Hnone.
  unfold token_WaitForToken.
  destruct (decide (botToken ∈ redis.tokenLocks (client g))); [done|].
  rewrite Hnew. fold sess. rewrite Hopen.
  match goal with
  | |- context [addTokenToGuilds ?b ?h ?gs ?g0] =>
      destruct (addTokenToGuilds_members b h gs g0) as (_ & Ha & Hp & _ & Hall)
  end.
  { exact Hh. }
  { exact Hsets. }
  cbv zeta in Ha, Hp, Hall.
  eexists. split; [done|]. split; [exact Ha|]. split; [exact Hall|].
  rewrite Hp. cbn. by rewrite <- app_assoc.
Qed.
End loading.

(** ** Shutdown *)

Lemma close_errors_cons (P : Platform) hToken v rest :
  close_errors P ((hToken, v) :: rest)
  = match Session_Close P v with
    | Some e => [ {| zap.level := zap.ErrorLevel;
                     zap.msg := "error closing active session";
                     zap.fields := [zap.Error (Some e);
                                    zap.String "hashedToken" hToken] |} ]
    | None => []
    end ++ close_errors P rest.
Proof.
  unfold close_errors. cbn. by destruct (Session_Close P v).
Qed.

Lemma closeSessions_effects (P : Platform) (entries : list (string * Session)) :
  ∀ g : GalactusAPI,
    platform (snd (closeSessions P entries g))
    = platform g ++ map (λ e, CallClose (snd e)) entries
    ∧ logger (snd (closeSessions P entries g))
      = logger g ++ close_errors P entries.
Proof.
  induction entries as [|[hToken v] rest IH]; intros g.
  { cbn. by rewrite !app_nil_r. }
  cbn [closeSessions]. rewrite !bind_eq.
  match goal with
  | |- context [closeSessions P rest ?x] => destruct (IH x) as [Hp Hl]
  end.
  rewrite Hp, Hl, close_errors_cons.
  destruct (Session_Close P v) as [e|]; cbn; by rewrite <- !app_assoc.
Qed.

(** [Close] asks the shard manager to stop and then closes every session of
    the local map, each once, and leaves the map empty; a session that
    fails to close gets an error line and does not keep the others from
    being closed. *)
Theorem Close_closes_every_session (P : Platform) (g : GalactusAPI) :
  let entries := map_to_list (activeSessions g) in
  platform (snd (Close P g))
  = platform g ++ CallStopAll :: map (λ e, CallClose (snd e)) entries
  ∧ (∀ h s, activeSessions g !! h = Some s →
            CallClose s ∈ platform (snd (Close P g)))
  ∧ activeSessions (snd (Close P g)) = ∅
  ∧ logger (snd (Close P g))
    = logger g
      ++ match StopAll P with
         | Some e => [ {| zap.level := zap.ErrorLevel;
                          zap.msg := "error stopping all shard sessions";
                          zap.fields := [zap.Error (Some e)] |} ]
         | None => []
         end
      ++ close_errors P entries.
Proof.
  cbv zeta.
  assert (Hp : platform (snd (Close P g))
               = platform g ++ CallStopAll
                   :: map (λ e, CallClose (snd e)) (map_to_list (activeSessions g))
               ∧ logger (snd (Close P g))
                 = logger g
                   ++ match StopAll P with
                      | Some e => [ {| zap.level := zap.ErrorLevel;
                                       zap.msg := "error stopping all shard sessions";
                                       zap.fields := [zap.Error (Some e)] |} ]
                      | None => []
                      end
                   ++ close_errors P (map_to_list (activeSessions g))).
  { unfold Close. rewrite !bind_eq. cbn [snd with_sessions platform logger].
    match goal with
    | |- context [closeSessions P ?l ?x] =>
        destruct (closeSessions_effects P l x) as [Hp Hl]
    end.
    rewrite Hp, Hl.
    destruct (StopAll P); cbn; by rewrite <- !app_assoc. }
  destruct Hp as [Hp Hl]. split; [exact Hp|]. split; [|split; [|exact Hl]].
  2: { unfold Close. by rewrite !bind_eq. }
  intros h s Hs. rewrite Hp. apply elem_of_app. right.
  apply elem_of_cons. right. apply list_elem_of_In, in_map_iff.
  exists (h, s). split; [done|].
  apply list_elem_of_In. by apply elem_of_map_to_list.
Qed.

(** A value of blanks only; and two secrets whose sessions are running. *)
Lemma loadTokensFromEnv_skips_running_witness :
  let P := platform_in_guilds ["g1"] in
  let g := with_sessions
             {[ hashToken P "a" := {| Token := "Bot a"; Guilds := [] |};
                hashToken P "b" := {| Token := "Bot b"; Guilds := [] |} ]}
             (fresh_instance 3) in
  (∃ g', loadTokensFromEnv P "  " g = Some g'
         ∧ client g' = client g
         ∧ activeSessions g' = activeSessions g
         ∧ platform g' = platform g)
  ∧ (∃ g', loadTokensFromEnv P "a, b" g = Some g'
           ∧ client g' = client g
           ∧ activeSessions g' = activeSessions g
           ∧ platform g' = platform g).
Proof.
  split.
  - apply (loadTokensFromEnv_skips_running (platform_in_guilds ["g1"]) "  ").
    left. reflexivity.
  - apply (loadTokensFromEnv_skips_running (platform_in_guilds ["g1"]) "a, b").
    right.
    change (strings_SplitComma (strings_RemoveSpaces "a, b")) with ["a"; "b"].
    repeat (apply Forall_cons; split; [eexists; reflexivity|]).
    apply Forall_nil_2.
Defined.

(** A secret the platform refuses, on an empty store. *)
Lemma loadToken_failure_omits_witness :
  let g := fresh_instance 3 in
  ∃ g' e msg,
    loadToken platform_without_sessions "a" g = Some g'
    ∧ activeSessions g' = activeSessions g
    ∧ redis.db (client g') = redis.db (client g)
    ∧ last (logger g')
      = Some {| zap.level := zap.ErrorLevel; zap.msg := msg;
                zap.fields := [zap.Error (Some e); zap.String "token" "a"] |}.
Proof.
  apply (loadToken_failure_omits platform_without_sessions "a" (fresh_instance 3)).
  - reflexivity.
  - vm_compute. discriminate.
  - left. discriminate.
Defined.

(** A secret whose session is in two guilds, on an empty store. *)
Lemma loadToken_registers_witness :
  let P := platform_in_guilds ["g1"; "g2"] in
  let sess := {| Token := "Bot a"; Guilds := ["g1"; "g2"] |} in
  ∃ g',
    loadToken P "a" (fresh_instance 3) = Some g'
    ∧ activeSessions g' = <[hashToken P "a" := sess]> ∅
    ∧ Forall (λ v, hashToken P "a"
                   ∈ members (client g') (rediskey.GuildTokensKey v))
        ["g1"; "g2"]
    ∧ platform g' = [] ++ [CallNew "Bot a"; CallOpen sess].
Proof.
  apply (loadToken_registers (platform_in_guilds ["g1"; "g2"]) "a"
           (fresh_instance 3)).
  - reflexivity.
  - reflexivity.
  - vm_compute. discriminate.
  - reflexivity.
  - reflexivity.
  - repeat (apply Forall_cons; split; [exact I|]). apply Forall_nil_2.
Defined.

(** ** The event handlers *)

Section ingress_more.
Variable key : string.
Variable typeNames : DiscordMessageType → string.

Lemma PushDiscordMessage_keeps ty data (w : handler.World) :
  healthy (handler.client w) → list_or_absent (handler.client w) key →
  let r := handler.PushDiscordMessage key ty data w in
  healthy (handler.client (snd r)) ∧ list_or_absent (handler.client (snd r)) key.
Proof.
  intros Hh Hl. cbv zeta.
  unfold handler.PushDiscordMessage, handler.store, redis.RPush.
  rewrite next_fault_healthy by done. rewrite get_record.
  unfold list_or_absent in *.
  destruct (redis.get (handler.client w) key) as [[[n|s|l] exp]|] eqn:Hget;
    try done; cbn [fst snd handler.client handler.logger];
    (split; [exact Hh|]).
  - rewrite get_insert_eq; [done|]. cbn.
    unfold redis.get in Hget.
    destruct (redis.db (handler.client w) !! key) as [e0|]; [|done].
    destruct (redis.live (redis.clock (handler.client w)) e0) eqn:Hlive; [|done].
    injection Hget as ->. exact Hlive.
  - by rewrite get_insert_eq.
Qed.

Lemma PushDiscordMessage_fault ty data e fs (w : handler.World) :
  redis.faults (handler.client w) = Some e :: fs →
  let r := handler.PushDiscordMessage key ty data w in
  fst r = Some e
  ∧ redis.db (handler.client (snd r)) = redis.db (handler.client w)
  ∧ redis.faults (handler.client (snd r)) = fs
  ∧ handler.jobs key (snd r) = handler.jobs key w
  ∧ handler.logger (snd r) = handler.logger w.
Proof.
  intros Hf. cbv zeta.
  unfold handler.PushDiscordMessage, handler.store, redis.RPush,
    redis.next_fault.
  destruct w as [[d t faults h l] lg]. cbn in Hf. subst faults. by cbn.
Qed.

(** What one run of a handler leaves behind on a healthy store, whatever
    [json.Marshal] returned. *)
Lemma GuildDeleteHandler_pushes byt err m (w : handler.World) :
  healthy (handler.client w) → list_or_absent (handler.client w) key →
  let w' := snd (handler.GuildDeleteHandler key (byt, err) m w) in
  handler.jobs key w' = handler.jobs key w ++ [MessageItem GuildDelete byt]
  ∧ healthy (handler.client w') ∧ list_or_absent (handler.client w') key.
Proof.
  intros Hh Hl. cbv zeta. unfold handler.GuildDeleteHandler.
  match goal with
  | |- context [handler.PushDiscordMessage key GuildDelete byt ?x] =>
      set (w1 := x)
  end.
  assert (Hh1 : healthy (handler.client w1)) by (by destruct err).
  assert (Hl1 : list_or_absent (handler.client w1) key) by (by destruct err).
  assert (Hj1 : handler.jobs key w1 = handler.jobs key w) by (by destruct err).
  clearbody w1.
  destruct (PushDiscordMessage_jobs key GuildDelete byt w1 Hh1 Hl1)
    as (Hnone & Hjobs & _).
  destruct (PushDiscordMessage_keeps GuildDelete byt w1 Hh1 Hl1) as (Hh2 & Hl2).
  cbv zeta in Hnone, Hjobs, Hh2, Hl2.
  destruct (handler.PushDiscordMessage key GuildDelete byt w1) as [e2 w2].
  cbn [fst snd] in *. subst e2.
  rewrite jobs_write_log, Hjobs, Hj1. done.
Qed.

Lemma VoiceStateUpdateHandler_pushes byt err selfID m (w : handler.World) :
  healthy (handler.client w) → list_or_absent (handler.client w) key →
  handler.UserID m ≠ selfID →
  let w' := snd (handler.VoiceStateUpdateHandler key typeNames (byt, err)
                   selfID true (Some m) w) in
  handler.jobs key w' = handler.jobs key w ++ [MessageItem VoiceStateUpdate byt]
  ∧ healthy (handler.client w') ∧ list_or_absent (handler.client w') key.
Proof.
  intros Hh Hl Hself. cbv zeta. unfold handler.VoiceStateUpdateHandler.
  destruct (String.eqb_spec (handler.UserID m) selfID) as [?|_]; [done|].
  cbn [negb].
  match goal with
  | |- context [handler.PushDiscordMessage key VoiceStateUpdate byt ?x] =>
      set (w1 := x)
  end.
  assert (Hh1 : healthy (handler.client w1)) by (by destruct err).
  assert (Hl1 : list_or_absent (handler.client w1) key) by (by destruct err).
  assert (Hj1 : handler.jobs key w1 = handler.jobs key w) by (by destruct err).
  clearbody w1.
  destruct (PushDiscordMessage_jobs key VoiceStateUpdate byt w1 Hh1 Hl1)
    as (Hnone & Hjobs & _).
  destruct (PushDiscordMessage_keeps VoiceStateUpdate byt w1 Hh1 Hl1)
    as (Hh2 & Hl2).
  cbv zeta in Hnone, Hjobs, Hh2, Hl2.
  destruct (handler.PushDiscordMessage key VoiceStateUpdate byt w1) as [e2 w2].
  cbn [fst snd] in *. subst e2.
  rewrite jobs_write_log, Hjobs, Hj1. done.
Qed.

(** A voice-state event that is nil or about the bot itself is dropped
    before anything is done: the handler returns at once.  For a guild
    without an active game nothing is queued and nothing is logged.  Any
    other event is queued: the handler logs at least one line, and on a
    store whose commands succeed one VoiceStateUpdate job with the bytes
    [json.Marshal] returned is at the end of the job list. *)
Theorem voice_state_update_is_filtered
    (byt : option string) (err : option error) (selfID : string)
    (anyActiveGames : bool) (m : option handler.VoiceStateUpdateEvent)
    (w : handler.World) :
  let w' := snd (handler.VoiceStateUpdateHandler key typeNames (byt, err)
                   selfID anyActiveGames m w) in
  let own :=
    match m with
    | Some ev => String.eqb (handler.UserID ev) selfID
    | None => true
    end in
  (own = true → w' = w)
  ∧ (anyActiveGames = false →
     handler.jobs key w' = handler.jobs key w
     ∧ handler.logger w' = handler.logger w)
  ∧ (own = false → anyActiveGames = true →
     (length (handler.logger w) < length (handler.logger w'))%nat
     ∧ (healthy (handler.client w) → list_or_absent (handler.client w) key →
        handler.jobs key w'
        = handler.jobs key w ++ [MessageItem VoiceStateUpdate byt])).
Proof.
  cbv zeta. destruct m as [ev|].
  2: { split; [done|]. split; [done|]. intros Hown. discriminate Hown. }
  split; [|split].
  - unfold handler.VoiceStateUpdateHandler. by intros ->.
  - unfold handler.VoiceStateUpdateHandler. intros ->.
    by destruct (String.eqb (handler.UserID ev) selfID).
  - intros Hown ->. split.
    + unfold handler.VoiceStateUpdateHandler. rewrite Hown. cbn [negb].
      unfold handler.PushDiscordMessage, handler.store.
      match goal with
      | |- context [redis.RPush key ?x (handler.client ?y)] =>
          destruct (redis.RPush key x (handler.client y)) as [e2 c2]
      end.
      destruct err as [e|], e2 as [e2|];
        cbn [snd handler.write_log handler.client handler.logger] in *;
        rewrite ?length_app; cbn [length]; lia.
    + intros Hh Hl.
      apply (VoiceStateUpdateHandler_pushes byt err selfID ev w Hh Hl).
      by apply String.eqb_neq.
Qed.

(** Events are queued in the order their handlers ran: after a guild
    deletion and a voice-state event the list ends with the two jobs in
    that order, and in the other order when the handlers ran the other way
    round; a failed [json.Marshal] changes the bytes, not the order. *)
Theorem handlers_queue_in_order
    (byt1 byt2 : option string) (err1 err2 : option error)
    (m1 : handler.GuildDeleteEvent) (m2 : handler.VoiceStateUpdateEvent)
    (selfID : string) (w : handler.World) :
  healthy (handler.client w) → list_or_absent (handler.client w) key →
  handler.UserID m2 ≠ selfID →
  let del := handler.GuildDeleteHandler key (byt1, err1) m1 in
  let voice := handler.VoiceStateUpdateHandler key typeNames (byt2, err2)
                 selfID true (Some m2) in
  handler.jobs key (snd (voice (snd (del w))))
  = handler.jobs key w
    ++ [MessageItem GuildDelete byt1; MessageItem VoiceStateUpdate byt2]
  ∧ handler.jobs key (snd (del (snd (voice w))))
    = handler.jobs key w
      ++ [MessageItem VoiceStateUpdate byt2; MessageItem GuildDelete byt1].
Proof.
  intros Hh Hl Hself. cbv zeta. split.
  - destruct (GuildDeleteHandler_pushes byt1 err1 m1 w Hh Hl) as (Hj & Hh1 & Hl1).
    cbv zeta in Hj, Hh1, Hl1.
    destruct (VoiceStateUpdateHandler_pushes byt2 err2 selfID m2 _ Hh1 Hl1 Hself)
      as (Hj2 & _).
    cbv zeta in Hj2. rewrite Hj2, Hj. by rewrite <- app_assoc.
  - destruct (VoiceStateUpdateHandler_pushes byt2 err2 selfID m2 w Hh Hl Hself)
      as (Hj & Hh1 & Hl1).
    cbv zeta in Hj, Hh1, Hl1.
    destruct (GuildDeleteHandler_pushes byt1 err1 m1 _ Hh1 Hl1) as (Hj2 & _).
    cbv zeta in Hj2. rewrite Hj2, Hj. by rewrite <- app_assoc.
Qed.

(** When the push of a guild deletion does not reach the store the event
    is lost: the handler logs the error of the push as its last line and
    returns, the keyspace and the job list are as before, and the push was
    sent once, not retried; what [json.Marshal] returned makes no
    difference. *)
Theorem push_failure_drops_event
    (byt : option string) (err : option error) (e : error)
    (fs : list (option error)) (m : handler.GuildDeleteEvent)
    (w : handler.World) :
  redis.faults (handler.client w) = Some e :: fs →
  let w' := snd (handler.GuildDeleteHandler key (byt, err) m w) in
  redis.db (handler.client w') = redis.db (handler.client w)
  ∧ handler.jobs key w' = handler.jobs key w
  ∧ redis.history (handler.client w')
    = redis.history (handler.client w)
      ++ [redis.RPUSH key (MessageItem GuildDelete byt)]
  ∧ redis.faults (handler.client w') = fs
  ∧ last (handler.logger w')
    = Some {| zap.level := zap.ErrorLevel;
              zap.msg := "error pushing to Redis for GuildDelete message";
              zap.fields := [zap.Error (Some e)] |}.
Proof.
  intros Hf. cbv zeta. unfold handler.GuildDeleteHandler.
  unfold handler.PushDiscordMessage, handler.store, redis.RPush,
    redis.next_fault.
  destruct w as [[d t faults h l] lg]. cbn in Hf. subst faults.
  destruct err; cbn; rewrite ?last_snoc; done.
Qed.
End ingress_more.

(** A guild deletion and a voice-state event, on an empty store. *)
Lemma handlers_queue_in_order_witness :
  let w := {| handler.client := empty_store; handler.logger := [] |} in
  let m2 := {| handler.GuildID := "g"; handler.ChannelID := "c";
               handler.UserID := "u"; handler.SessionID := "s" |} in
  let del := handler.GuildDeleteHandler "jobs" (Some "d", None)
               {| handler.ID := "1" |} in
  let voice := handler.VoiceStateUpdateHandler "jobs" (λ _, "")
                 (Some "v", None) "bot" true (Some m2) in
  handler.jobs "jobs" (snd (voice (snd (del w))))
  = handler.jobs "jobs" w
    ++ [MessageItem GuildDelete (Some "d");
        MessageItem VoiceStateUpdate (Some "v")]
  ∧ handler.jobs "jobs" (snd (del (snd (voice w))))
    = handler.jobs "jobs" w
      ++ [MessageItem VoiceStateUpdate (Some "v");
          MessageItem GuildDelete (Some "d")].
Proof.
  apply (handlers_queue_in_order "jobs" (λ _, "") (Some "d") (Some "v")
           None None {| handler.ID := "1" |}
           {| handler.GuildID := "g"; handler.ChannelID := "c";
              handler.UserID := "u"; handler.SessionID := "s" |} "bot"
           {| handler.client := empty_store; handler.logger := [] |}).
  - reflexivity.
  - exact I.
  - discriminate.
Defined.

(** A guild deletion while the store is unreachable. *)
Lemma push_failure_drops_event_witness :
  let e := errorString "connection refused" in
  let c := {| redis.db := ∅; redis.clock := 0; redis.faults := [Some e];
              redis.history := []; redis.tokenLocks := ∅ |} in
  let w := {| handler.client := c; handler.logger := [] |} in
  let w' := snd (handler.GuildDeleteHandler "jobs" (Some "d", None)
                   {| handler.ID := "1" |} w) in
  redis.db (handler.client w') = redis.db (handler.client w)
  ∧ handler.jobs "jobs" w' = handler.jobs "jobs" w
  ∧ redis.history (handler.client w')
    = redis.history (handler.client w)
      ++ [redis.RPUSH "jobs" (MessageItem GuildDelete (Some "d"))]
  ∧ redis.faults (handler.client w') = []
  ∧ last (handler.logger w')
    = Some {| zap.level := zap.ErrorLevel;
              zap.msg := "error pushing to Redis for GuildDelete message";
              zap.fields := [zap.Error (Some e)] |}.
Proof.
  apply (push_failure_drops_event "jobs" (Some "d") None
           (errorString "connection refused") [] {| handler.ID := "1" |}
           {| handler.client :=
                {| redis.db := ∅; redis.clock := 0;
                   redis.faults := [Some (errorString "connection refused")];
                   redis.history := []; redis.tokenLocks := ∅ |};
              handler.logger := [] |}
           eq_refl).
Defined.
